(** * Invoice OCR pipeline: arbitration, total extraction, normalisation
      and spatial structuring.

    A shallow embedding of the decision layers of the pipeline
    ([src/ocr/compare_ocr.py], [src/decision/select_best_ocr.py],
    [scripts/process_orange_factures.py], [src/normalisation.py],
    [src/dictionaries/__init__.py], [src/structurer/ocr_to_structured_json.py],
    [src/preprocess/image_enhancer.py]) and the properties stated about
    them.

    Conventions of the embedding.
    - A Python [str] is a list of Unicode code points ([char := N]).
      ASCII literals are written with [py "..."]; the few non-ASCII code
      points the sources mention are named constants ([NBSP], [EURO], ...).
    - Character classes [\d] and [str.lower] are given on ASCII (and Latin-1
      letters for [lower]); other scripts are caseless non-digits here.
    - A Python [float] is the rational it denotes ([Q]); rounding to binary64
      is not part of the model.  Decimal literals of at most 15 significant
      digits survive the round trip through binary64, so on them parsing,
      comparing and printing agree with the rational reading.
    - [None] is [None]; a raised exception is an explicit error result. *)

From Stdlib Require Import List Bool Arith ZArith NArith QArith Qminmax.
From Stdlib Require Import Ascii String Lia Lqa Permutation Sorted.
Import ListNotations.

(* ================================================================== *)
(** ** Python strings *)
(* ================================================================== *)

Module PyStr.

Definition char := N.
Definition str := list char.

(** ASCII literal to code points. *)
Definition py (s : string) : str :=
  map N_of_ascii (list_ascii_of_string s).

Definition NBSP : char := 160%N.      (* U+00A0 *)
Definition EURO : char := 8364%N.     (* U+20AC *)
Definition POUND : char := 163%N.     (* U+00A3 *)
Definition YEN : char := 165%N.       (* U+00A5 *)
Definition A_GRAVE : char := 224%N.   (* U+00E0 *)

Definition in_range (lo hi c : N) : bool := (lo <=? c)%N && (c <=? hi)%N.

Definition is_digit (c : char) : bool := in_range 48 57 c.
Definition is_upper_ascii (c : char) : bool := in_range 65 90 c.

(** [str.isspace] code points, the class [\s] of [re] on [str] patterns. *)
Definition is_space (c : char) : bool :=
  in_range 9 13 c || in_range 28 32 c || (c =? 133)%N || (c =? 160)%N
  || (c =? 5760)%N || in_range 8192 8202 c || (c =? 8232)%N || (c =? 8233)%N
  || (c =? 8239)%N || (c =? 8287)%N || (c =? 12288)%N.

(** [c.lower()] on ASCII and Latin-1 capitals. *)
Definition lower_char (c : char) : char :=
  if is_upper_ascii c then (c + 32)%N
  else if in_range 192 222 c && negb (c =? 215)%N then (c + 32)%N
  else c.

Definition lower (s : str) : str := map lower_char s.

Fixpoint str_eqb (a b : str) : bool :=
  match a, b with
  | [], [] => true
  | x :: a', y :: b' => (x =? y)%N && str_eqb a' b'
  | _, _ => false
  end.

(** [s.startswith(p)] *)
Fixpoint startswith (p s : str) : bool :=
  match p, s with
  | [], _ => true
  | x :: p', y :: s' => (x =? y)%N && startswith p' s'
  | _ :: _, [] => false
  end.

(** [p in s] *)
Fixpoint contains (p s : str) : bool :=
  startswith p s ||
  match s with
  | [] => false
  | _ :: s' => contains p s'
  end.

(** [s.replace(old, new)] for a one-character [old]. *)
Definition replace (old : char) (new : str) (s : str) : str :=
  flat_map (fun c => if (c =? old)%N then new else [c]) s.

Definition is_linebreak (c : char) : bool :=
  in_range 10 13 c || in_range 28 30 c || (c =? 133)%N
  || (c =? 8232)%N || (c =? 8233)%N.

(** [s.splitlines()]: [cur] is the line being read, reversed. *)
Fixpoint splitlines_aux (cur : str) (s : str) : list str :=
  match s with
  | [] => match cur with [] => [] | _ => [rev cur] end
  | c :: s' =>
      if (c =? 13)%N then
        match s' with
        | d :: s'' =>
            if (d =? 10)%N then rev cur :: splitlines_aux [] s''
            else rev cur :: splitlines_aux [] s'
        | [] => rev cur :: splitlines_aux [] s'
        end
      else if is_linebreak c then rev cur :: splitlines_aux [] s'
      else splitlines_aux (c :: cur) s'
  end.

Definition splitlines (s : str) : list str := splitlines_aux [] s.

(** [sep.join(parts)] *)
Fixpoint join (sep : str) (parts : list str) : str :=
  match parts with
  | [] => []
  | [p] => p
  | p :: ps => p ++ sep ++ join sep ps
  end.

(** [s.split(sep)] for a one-character [sep]; never empty. *)
Fixpoint split_aux (sep : char) (cur : str) (s : str) : list str :=
  match s with
  | [] => [rev cur]
  | c :: s' =>
      if (c =? sep)%N then rev cur :: split_aux sep [] s'
      else split_aux sep (c :: cur) s'
  end.

Definition split (sep : char) (s : str) : list str := split_aux sep [] s.

(** [s.rfind(c)]: index of the last occurrence, -1 when absent. *)
Fixpoint rfind_aux (c : char) (s : str) (i : Z) (best : Z) : Z :=
  match s with
  | [] => best
  | x :: s' => rfind_aux c s' (i + 1)%Z (if (x =? c)%N then i else best)
  end.

Definition rfind (c : char) (s : str) : Z := rfind_aux c s 0%Z (-1)%Z.

(** [c in s] for one character *)
Definition has_char (c : char) (s : str) : bool := existsb (N.eqb c) s.

(** [s.zfill(w)]; a leading sign keeps its place. *)
Definition zfill (w : nat) (s : str) : str :=
  let pad := repeat 48%N (w - List.length s) in
  match s with
  | c :: s' =>
      if (c =? 43)%N || (c =? 45)%N then c :: pad ++ s' else pad ++ s
  | [] => pad
  end.

Definition NNBSP : char := 8239%N.    (* U+202F *)



End PyStr.
Import PyStr.

(* ================================================================== *)
(** ** A backtracking matcher for the patterns of the sources *)
(* ================================================================== *)

Module Re.

(** Patterns, with the greedy bounded and unbounded repetition of [re] and
    numbered capture groups. *)
Inductive regex : Type :=
| Eps : regex
| Cls : (char -> bool) -> regex
| Cat : regex -> regex -> regex
| Alt : regex -> regex -> regex
| Rep : nat -> option nat -> regex -> regex
| Grp : nat -> regex -> regex.

Definition caps := list (nat * str).

(** Text of group [i]; the most recent binding wins. *)
Fixpoint group (i : nat) (c : caps) : option str :=
  match c with
  | [] => None
  | (j, s) :: c' => if Nat.eqb i j then Some s else group i c'
  end.

Definition consumed (s s' : str) : str :=
  firstn (List.length s - List.length s') s.

Section Run.
Variable A : Type.

(** A matcher in continuation-passing style: it is given the input, the
    captures so far and what to do with the rest of the input. *)
Definition matcher := str -> caps -> (str -> caps -> option A) -> option A.

(** Greedy repetition of [body], between [lo] and [hi] times (no upper
    bound for [None]): one more round is tried first, and the repetition
    stops where it stands when that fails.  A round that consumes nothing
    is given up, so [S (length s)] rounds of [fuel] are enough. *)
Fixpoint rep_loop (body : matcher) (k : str -> caps -> option A)
         (fuel : nat) (lo : nat) (hi : option nat) (s : str) (c : caps)
         {struct fuel} : option A :=
  let stop := match lo with O => k s c | S _ => None end in
  let more_allowed := match hi with Some O => false | _ => true end in
  match fuel with
  | O => stop
  | S fuel' =>
      if more_allowed then
        match body s c (fun s' c' =>
                if (List.length s' <? List.length s)%nat
                then rep_loop body k fuel' (pred lo) (option_map pred hi) s' c'
                else None) with
        | Some v => Some v
        | None => stop
        end
      else stop
  end.

(** [run r s c k]: match [r] at the head of [s], then hand the rest of the
    input and the captures to [k]; alternatives are tried in priority
    order (leftmost branch, longest repetition first), the first success
    is the answer. *)
Fixpoint run (r : regex) (s : str) (c : caps)
             (k : str -> caps -> option A) {struct r} : option A :=
  match r with
  | Eps => k s c
  | Cls f =>
      match s with
      | x :: s' => if f x then k s' c else None
      | [] => None
      end
  | Cat a b => run a s c (fun s' c' => run b s' c' k)
  | Alt a b =>
      match run a s c k with
      | Some v => Some v
      | None => run b s c k
      end
  | Grp i a => run a s c (fun s' c' => k s' ((i, consumed s s') :: c'))
  | Rep lo hi a => rep_loop (run a) k (S (List.length s)) lo hi s c
  end.
End Run.
Arguments rep_loop {A} body k fuel lo hi s c.
Arguments run {A} r s c k.

(** Result of a successful match: the rest of the input and the groups. *)
Definition match_at (r : regex) (s : str) : option (str * caps) :=
  run r s [] (fun s' c => Some (s', c)).

(** [re.match]: anchored at the start. *)
Definition re_match (r : regex) (s : str) : option caps :=
  option_map snd (match_at r s).

(** [pattern.search]: leftmost start position that matches. *)
Fixpoint search (r : regex) (s : str) : option caps :=
  match match_at r s with
  | Some (_, c) => Some c
  | None =>
      match s with
      | [] => None
      | _ :: s' => search r s'
      end
  end.

(** [pattern.findall]: the non-overlapping matches, left to right. *)
Fixpoint findall_aux (fuel : nat) (r : regex) (s : str) : list caps :=
  match fuel with
  | O => []
  | S fuel' =>
      match match_at r s with
      | Some (s', c) =>
          c :: (if (List.length s' <? List.length s)%nat
                then findall_aux fuel' r s'
                else match s with
                     | [] => []
                     | _ :: t => findall_aux fuel' r t
                     end)
      | None =>
          match s with
          | [] => []
          | _ :: t => findall_aux fuel' r t
          end
      end
  end.

Definition findall (r : regex) (s : str) : list caps :=
  findall_aux (S (List.length s)) r s.

(** Pattern builders. *)
Definition chr (c : char) : regex := Cls (N.eqb c).
Definition digit : regex := Cls is_digit.
Definition space : regex := Cls is_space.
Definition star (a : regex) : regex := Rep 0 None a.
Definition opt (a : regex) : regex := Rep 0 (Some 1%nat) a.
Definition rep (lo hi : nat) (a : regex) : regex := Rep lo (Some hi) a.

(** A literal under [re.IGNORECASE]. *)
Fixpoint lit_i (s : str) : regex :=
  match s with
  | [] => Eps
  | c :: s' => Cat (Cls (fun x => (lower_char x =? lower_char c)%N)) (lit_i s')
  end.

(** [pattern.sub(repl, s)] for a replacement without backslash: each match
    is replaced, left to right; after an empty match the next character is
    copied. *)
Fixpoint sub_aux (fuel : nat) (r : regex) (repl : str) (s : str) : str :=
  match fuel with
  | O => s
  | S fuel' =>
      let copy :=
        match s with
        | [] => []
        | x :: t => x :: sub_aux fuel' r repl t
        end in
      match match_at r s with
      | Some (s', _) =>
          if (List.length s' <? List.length s)%nat
          then repl ++ sub_aux fuel' r repl s'
          else repl ++ copy
      | None => copy
      end
  end.

Definition sub (r : regex) (repl : str) (s : str) : str :=
  sub_aux (S (List.length s)) r repl s.

End Re.

(* ================================================================== *)
(** ** Python floats on decimal literals *)
(* ================================================================== *)

Module PyFloat.

Definition float := Q.

Definition digit_val (c : char) : Z := Z.of_N (c - 48).

Definition digits_val (s : str) : Z :=
  fold_left (fun acc c => (acc * 10 + digit_val c)%Z) s 0%Z.

Definition pow10 (n : nat) : positive := Nat.iter n (Pos.mul 10) 1%positive.

(** Splits [s] at its first dot. *)
Fixpoint cut_dot (s : str) : str * option str :=
  match s with
  | [] => ([], None)
  | c :: s' =>
      if (c =? 46)%N then ([], Some s')
      else let (a, b) := cut_dot s' in (c :: a, b)
  end.

(** [float(s)] on the literals [[+-]digits[.digits]] (one side of the dot
    may be empty); [None] is [ValueError].  Exponents, underscores, [inf]
    and [nan] are outside this fragment. *)
Definition float_of_unsigned (s : str) : option float :=
  let (ip, rest) := cut_dot s in
  let fp := match rest with Some f => f | None => [] end in
  if forallb is_digit ip && forallb is_digit fp
     && negb (Nat.eqb (List.length ip + List.length fp) 0)
  then Some (Qmake (digits_val (ip ++ fp)) (pow10 (List.length fp)))
  else None.

Definition float_of_str (s : str) : option float :=
  match s with
  | c :: s' =>
      if (c =? 45)%N then option_map Qopp (float_of_unsigned s')
      else if (c =? 43)%N then float_of_unsigned s'
      else float_of_unsigned s
  | [] => None
  end.

Fixpoint chars_of_uint (u : Decimal.uint) : str :=
  match u with
  | Decimal.Nil => []
  | Decimal.D0 u' => 48%N :: chars_of_uint u'
  | Decimal.D1 u' => 49%N :: chars_of_uint u'
  | Decimal.D2 u' => 50%N :: chars_of_uint u'
  | Decimal.D3 u' => 51%N :: chars_of_uint u'
  | Decimal.D4 u' => 52%N :: chars_of_uint u'
  | Decimal.D5 u' => 53%N :: chars_of_uint u'
  | Decimal.D6 u' => 54%N :: chars_of_uint u'
  | Decimal.D7 u' => 55%N :: chars_of_uint u'
  | Decimal.D8 u' => 56%N :: chars_of_uint u'
  | Decimal.D9 u' => 57%N :: chars_of_uint u'
  end.

(** [str(n)] for a natural number. *)
Definition str_of_N (n : N) : str := chars_of_uint (N.to_uint n).

(** Digits of [r / den] after the point, until the remainder vanishes. *)
Fixpoint frac_digits (fuel : nat) (r den : Z) : str :=
  match fuel with
  | O => []
  | S fuel' =>
      if (r =? 0)%Z then []
      else Z.to_N (r * 10 / den + 48) :: frac_digits fuel' (r * 10 mod den) den
  end.

(** [str(x)] of a float holding a short decimal below 1e16: the decimal
    itself, with at least one digit after the point and no trailing zero. *)
Definition float_str (x : float) : str :=
  let n := Z.abs (Qnum x) in
  let d := Zpos (Qden x) in
  let fd := frac_digits 17 (n mod d) d in
  (if (Qnum x <? 0)%Z then [45%N] else [])
  ++ str_of_N (Z.to_N (n / d)) ++ [46%N]
  ++ match fd with [] => [48%N] | _ => fd end.

(** The float result [r] is the number [q]. *)
Definition float_is (r : option float) (q : Q) : Prop :=
  match r with
  | Some x => Qeq x q
  | None => False
  end.

End PyFloat.
Import PyFloat.

(* ================================================================== *)
(** ** Builtins on numbers *)
(* ================================================================== *)

Module PyBuiltins.

(** [min] and [max] keep the first of several equal extremes; on an empty
    sequence they raise [ValueError] ([None]). *)
Definition min_from (x : Q) (xs : list Q) : Q :=
  fold_left (fun m y => if Qlt_le_dec y m then y else m) xs x.

Definition max_from (x : Q) (xs : list Q) : Q :=
  fold_left (fun m y => if Qlt_le_dec m y then y else m) xs x.

Definition py_min (xs : list Q) : option Q :=
  match xs with
  | [] => None
  | x :: xs' => Some (min_from x xs')
  end.

Definition py_max (xs : list Q) : option Q :=
  match xs with
  | [] => None
  | x :: xs' => Some (max_from x xs')
  end.

(** [[f(x) for x in xs]] where [f] may raise: the first failure aborts. *)
Fixpoint map_or_raise {A B : Type} (f : A -> option B) (xs : list A)
  : option (list B) :=
  match xs with
  | [] => Some []
  | x :: xs' =>
      match f x with
      | None => None
      | Some y =>
          match map_or_raise f xs' with
          | None => None
          | Some ys => Some (y :: ys)
          end
      end
  end.

(** [statistics.mean] of a non-empty list *)
Definition mean (xs : list Q) : Q :=
  fold_left Qplus xs 0 / inject_Z (Z.of_nat (List.length xs)).

End PyBuiltins.
Import PyBuiltins.

(* ================================================================== *)
(** ** OCR lines *)
(* ================================================================== *)

(** A point is [[x, y]]; a box is the sequence of corner points the engine
    returns for a line.  [min()] and [max()] over the points of a box need
    at least one point, so a box carries its first point apart. *)
Definition point := (Q * Q)%type.

Record box := Box { box_first : point; box_rest : list point }.

Definition points (b : box) : list point := box_first b :: box_rest b.

(** The dict [{"text": ..., "conf": ..., "box": ...}] of one line. *)
Record line := Line { text : str; conf : Q; line_box : box }.

(* ================================================================== *)
(** ** src/ocr/compare_ocr.py *)
(* ================================================================== *)

Module compare_ocr.
Import Re.

(** [(\d{1,3}(?:[  ,]\d{3})*(?:[.,]\d{2}))\s*(€|EUR|DT|TND)?] under
    [re.IGNORECASE]. *)
Definition AMOUNT_RE : regex :=
  Cat (Grp 1
         (Cat (rep 1 3 digit)
         (Cat (star (Cat (Cls (fun c => (c =? 32)%N || (c =? NBSP)%N
                                        || (c =? 44)%N))
                         (rep 3 3 digit)))
              (Cat (Cls (fun c => (c =? 46)%N || (c =? 44)%N))
                   (rep 2 2 digit)))))
  (Cat (star space)
       (opt (Grp 2 (Alt (chr EURO)
                   (Alt (lit_i (py "EUR"))
                   (Alt (lit_i (py "DT")) (lit_i (py "TND")))))))).

Definition TOTAL_KEYWORDS : list str :=
  [ py "total t.t.c";
    py "total ttc";
    py "total " ++ [A_GRAVE] ++ py " payer";
    py "total t.t.c.";
    py "total" ].

(** [.replace(" ", "").replace(" ", "").replace(",", ".")] *)
Definition clean (s : str) : str :=
  replace 44%N [46%N] (replace NBSP [] (replace 32%N [] s)).

(** [match.group(1)] of a match of [AMOUNT_RE] *)
Definition group1 (c : caps) : str :=
  match group 1 c with Some s => s | None => [] end.

(** What the engine returns: pages of [[box, (text, confidence)]]. *)
Definition ocr_result := list (list (box * (str * Q))).

(** The part of [run_ocr_on_image] that follows the engine call. *)
Definition collect (result : ocr_result) : list line * Q * str :=
  let extracted :=
    flat_map (fun page =>
      map (fun e => Line (fst (snd e)) (snd (snd e)) (fst e)) page) result in
  let texts := map text extracted in
  let confs := map conf extracted in
  let avg_conf := match confs with [] => 0 | _ => mean confs end in
  let full_text := join [10%N] texts in
  (extracted, avg_conf, full_text).

Section WithEngine.
(** The OCR engine is an external collaborator: [ocr image_path] is what
    [ocr.ocr(str(image_path), cls=True)] returns, [None] when it raises. *)
Variable image : Type.
Variable ocr : image -> option ocr_result.

(** [None]: the exception of the engine leaves the function. *)
Definition run_ocr_on_image (image_path : image)
  : option (list line * Q * str) :=
  match ocr image_path with
  | Some result => Some (collect result)
  | None => None
  end.

End WithEngine.
Arguments run_ocr_on_image {image} ocr image_path.

Definition has_keyword (line : str) : bool :=
  let low := lower line in
  existsb (fun k => contains k low) TOTAL_KEYWORDS.

(** The keyword loop over [reversed(lines)]. *)
Fixpoint keyword_scan (rlines : list str) : option str :=
  match rlines with
  | [] => None
  | line :: rest =>
      if has_keyword line then
        match search AMOUNT_RE line with
        | Some m => Some (clean (group1 m))
        | None => keyword_scan rest
        end
      else keyword_scan rest
  end.

(** The fallback: largest amount of the whole text. *)
Definition largest_amount (text_block : str) : option str :=
  let matches := findall AMOUNT_RE text_block in
  match matches with
  | [] => None
  | _ =>
      let cleaned := map (fun m => clean (group1 m)) matches in
      match map_or_raise float_of_str cleaned with
      | Some nums =>
          match py_max nums with
          | Some m => Some (float_str m)
          | None => Some (last cleaned [])
          end
      | None => Some (last cleaned [])
      end
  end.

Definition find_total_in_text (text_block : str) : option str :=
  let lines := splitlines text_block in
  match keyword_scan (rev lines) with
  | Some total => Some total
  | None => largest_amount text_block
  end.

End compare_ocr.
Import compare_ocr.

(* ================================================================== *)
(** ** src/decision/select_best_ocr.py *)
(* ================================================================== *)

Module select_best_ocr.

Definition CONF_MARGIN : Q := 0.02.

Definition score_result (avg_conf : Q) (total : option str) (num_lines : nat)
  : Q :=
  let score := avg_conf in
  let score := match total with Some _ => score + 0.05 | None => score end in
  let score := score + Qmin (inject_Z (Z.of_nat num_lines) / 100) 0.05 in
  score.

(** The returned dict. *)
Record decision := Decision {
  chosen : string;
  avg_conf : Q;
  total : option str;
  lines : list line
}.

Section WithEngine.
Variable image : Type.
Variable ocr : image -> option ocr_result.

(** [None]: an exception of the engine leaves the function. *)
Definition select_best (image_original image_processed : image)
  : option decision :=
  match run_ocr_on_image ocr image_original with
  | None => None
  | Some (ext_o, conf_o, text_o) =>
      match run_ocr_on_image ocr image_processed with
      | None => None
      | Some (ext_p, conf_p, text_p) =>
          let total_o := find_total_in_text text_o in
          let total_p := find_total_in_text text_p in
          let score_o := score_result conf_o total_o (List.length ext_o) in
          let score_p := score_result conf_p total_p (List.length ext_p) in
          if Qlt_le_dec (score_o + CONF_MARGIN) score_p then
            Some (Decision "processed" conf_p total_p ext_p)
          else
            Some (Decision "original" conf_o total_o ext_o)
      end
  end.

End WithEngine.
Arguments select_best {image} ocr image_original image_processed.

End select_best_ocr.

(* ================================================================== *)
(** ** scripts/process_orange_factures.py *)
(* ================================================================== *)

Module process_orange_factures.

Definition CONF_MARGIN : Q := 0.02.

Definition score_result (avg_conf : Q) (total : option str) (num_lines : nat)
  : Q :=
  let score := avg_conf in
  let score := match total with Some _ => score + 0.05 | None => score end in
  let score := score + Qmin (inject_Z (Z.of_nat num_lines) / 100) 0.05 in
  score.

Record decision := Decision {
  chosen : string;
  image_name : str;
  avg_conf : Q;
  total : option str;
  lines : list line;
  score : Q;
  scores_original : Q;
  scores_preprocessed : Q
}.

Section WithEngine.
Variable image : Type.
Variable ocr : image -> option ocr_result.
(** The enhancement chain, [None] when it raises. *)
Variable preprocess_image : image -> option image.
(** [image_path.name] *)
Variable name : image -> str.

(** [try: ... except Exception: ext, conf, text = [], 0.0, ""] *)
Definition ocr_or_empty (image_path : image) : list line * Q * str :=
  match run_ocr_on_image ocr image_path with
  | Some r => r
  | None => ([], 0, [])
  end.

Definition select_best_orange (image_original : image) : option decision :=
  match preprocess_image image_original with
  | None => None
  | Some image_processed =>
      let '(ext_o, conf_o, text_o) := ocr_or_empty image_original in
      let '(ext_p, conf_p, text_p) := ocr_or_empty image_processed in
      let total_o :=
        match text_o with [] => None | _ => find_total_in_text text_o end in
      let total_p :=
        match text_p with [] => None | _ => find_total_in_text text_p end in
      let score_o :=
        match ext_o with
        | [] => 0
        | _ => score_result conf_o total_o (List.length ext_o)
        end in
      let score_p :=
        match ext_p with
        | [] => 0
        | _ => score_result conf_p total_p (List.length ext_p)
        end in
      if (if Qlt_le_dec (score_o + CONF_MARGIN) score_p then true else false)
         && (0 <? List.length ext_p)%nat
      then
        Some (Decision "preprocessed" (name image_original) conf_p total_p
                       ext_p score_p score_o score_p)
      else
        Some (Decision "original" (name image_original) conf_o total_o
                       ext_o score_o score_o score_p)
  end.

End WithEngine.
Arguments ocr_or_empty {image} ocr image_path.
Arguments select_best_orange {image} ocr preprocess_image name image_original.

End process_orange_factures.

(* ================================================================== *)
(** ** src/normalisation.py *)
(* ================================================================== *)

Module normalisation.
Import Re.

Fixpoint lstrip (s : str) : str :=
  match s with
  | c :: s' => if is_space c then lstrip s' else s
  | [] => []
  end.

(** [s.strip()] *)
Definition strip (s : str) : str := rev (lstrip (rev (lstrip s))).

(** The class [[€$£¥\sA-Z]] *)
Definition currency_or_space (c : char) : bool :=
  (c =? EURO)%N || (c =? 36)%N || (c =? POUND)%N || (c =? YEN)%N
  || is_space c || is_upper_ascii c.

Definition COMMA : char := 44%N.
Definition DOT : char := 46%N.

(** The separator resolution of [normalize_amount], between the clean-up
    of the input and the call of [float]. *)
Definition resolve_separators (v : str) : str :=
  let has_comma := has_char COMMA v in
  let has_dot := has_char DOT v in
  if has_comma && has_dot then
    let last_comma := rfind COMMA v in
    let last_dot := rfind DOT v in
    if (last_dot <? last_comma)%Z then
      replace COMMA [DOT] (replace DOT [] v)
    else
      replace COMMA [] v
  else if has_comma && negb has_dot then
    let parts := split COMMA v in
    if (List.length (last parts []) <=? 2)%nat then
      replace COMMA [DOT] v
    else
      replace COMMA [] v
  else v.

(** [re.sub(r'[€$£¥\sA-Z]', '', value.strip())] *)
Definition strip_currency (value : str) : str :=
  filter (fun c => negb (currency_or_space c)) (strip value).

Definition normalize_amount (value : str) : option float :=
  match value with
  | [] => None
  | _ =>
      let v := strip_currency value in
      match v with
      | [] => None
      | _ => float_of_str (resolve_separators v)
      end
  end.

(** [(\d{1,2})[\/\-](\d{1,2})[\/\-](\d{2,4})] *)
Definition date_sep (c : char) : bool := (c =? 47)%N || (c =? 45)%N.

Definition DATE_RE : regex :=
  let sep := Cls date_sep in
  Cat (Grp 1 (rep 1 2 digit))
  (Cat sep
  (Cat (Grp 2 (rep 1 2 digit))
  (Cat sep
       (Grp 3 (rep 2 4 digit))))).

Definition normalize_date (value : str) : option str :=
  match value with
  | [] => None
  | _ =>
      match re_match DATE_RE value with
      | Some m =>
          match group 1 m, group 2 m, group 3 m with
          | Some day, Some month, Some year =>
              let year :=
                if Nat.eqb (List.length year) 2 then py "20" ++ year
                else year in
              Some (year ++ py "-" ++ zfill 2 month ++ py "-" ++ zfill 2 day)
          | _, _, _ => Some value
          end
      | None => Some value
      end
  end.

Section WithTermPattern.
(** [sub_term term standardized text] is
    [re.sub(rf'\b{re.escape(term)}\b', standardized, text)], [None] when
    [re] rejects the replacement template. *)
Variable sub_term : str -> str -> str -> option str.

(** The loop over [dictionary.items()], in insertion order. *)
Fixpoint replace_terms (items : list (str * str)) (text_lower : str)
  : option str :=
  match items with
  | [] => Some text_lower
  | (term, standardized) :: rest =>
      match sub_term term standardized text_lower with
      | None => None
      | Some text_lower' => replace_terms rest text_lower'
      end
  end.

(** [normalize_text(text, dictionary)]; an absent dictionary is [None],
    and [None] as a result is the exception of [re.sub]. *)
Definition normalize_text (text : str) (dictionary : option (list (str * str)))
  : option str :=
  match text with
  | [] => Some []
  | _ =>
      let text := replace NNBSP [32%N] (replace NBSP [32%N] text) in
      let text := sub (Rep 1 None space) [32%N] text in
      match dictionary with
      | Some (item :: items) =>
          let text_lower := lower text in
          match replace_terms (item :: items) text_lower with
          | None => None
          | Some text_lower => Some (strip text_lower)
          end
      | _ => Some (strip text)
      end
  end.

End WithTermPattern.

(** The class [[%\s]] *)
Definition percent_or_space (c : char) : bool := (c =? 37)%N || is_space c.

Definition normalize_percentage (value : str) : option float :=
  match value with
  | [] => None
  | _ =>
      let v := filter (fun c => negb (percent_or_space c)) value in
      let v := replace COMMA [DOT] v in
      float_of_str v
  end.


End normalisation.

(* ================================================================== *)
(** ** src/dictionaries/__init__.py *)
(* ================================================================== *)

Module dictionaries.

(** [max(items, key=...)] on a non-empty sequence: the first item of
    greatest key. *)
Definition max_by {A : Type} (key : A -> nat) (x : A) (xs : list A) : A :=
  fold_left (fun m y => if (key m <? key y)%nat then y else m) xs x.

Section WithUnicodeData.
(** [unicodedata.normalize('NFD', .)] and the test
    [unicodedata.category(c) == 'Mn'] *)
Variable nfd : str -> str.
Variable is_Mn : char -> bool.

Definition french_keywords : list str :=
  [py "facture"; py "designation"; py "montant"; py "ttc"; py "tva";
   py "qte"].

Definition english_keywords : list str :=
  [py "invoice"; py "description"; py "amount"; py "total"; py "vat";
   py "qty"].

Definition normalized (text : str) : str :=
  filter (fun c => negb (is_Mn c)) (nfd (lower text)).

(** [sum(1 for word in keywords if word in normalized_text)] *)
Definition hits (keywords : list str) (normalized_text : str) : nat :=
  List.length (filter (fun word => contains word normalized_text) keywords).

(** The dict [scores] after both assignments, in insertion order. *)
Definition scores (text : str) : list (string * nat) :=
  let normalized_text := normalized text in
  [("fr"%string, hits french_keywords normalized_text);
   ("en"%string, hits english_keywords normalized_text)].

Definition detect_language (text : str) : string :=
  match scores text with
  | item :: items =>
      let '(language, max_score) := max_by snd item items in
      if (0 <? max_score)%nat then language else "generic"%string
  | [] => "generic"%string
  end.

End WithUnicodeData.

End dictionaries.

(* ================================================================== *)
(** ** src/structurer/ocr_to_structured_json.py *)
(* ================================================================== *)

Module ocr_to_structured_json.

Definition bbox_left (b : box) : Q :=
  min_from (fst (box_first b)) (map fst (box_rest b)).
Definition bbox_right (b : box) : Q :=
  max_from (fst (box_first b)) (map fst (box_rest b)).
Definition bbox_top (b : box) : Q :=
  min_from (snd (box_first b)) (map snd (box_rest b)).
Definition bbox_bottom (b : box) : Q :=
  max_from (snd (box_first b)) (map snd (box_rest b)).

(** [None]: [min()] of no box raises. *)
Definition bbox_union (boxes : list box) : option (list Q) :=
  match py_min (map bbox_left boxes), py_min (map bbox_top boxes),
        py_max (map bbox_right boxes), py_max (map bbox_bottom boxes) with
  | Some l, Some t, Some r, Some b => Some [l; t; r; b]
  | _, _, _, _ => None
  end.

Section Sorted.
Variable A : Type.
Variable key : A -> Q.

Fixpoint insert_by (x : A) (l : list A) : list A :=
  match l with
  | [] => [x]
  | y :: l' =>
      if Qle_bool (key x) (key y) then x :: y :: l'
      else y :: insert_by x l'
  end.

(** [sorted(l, key=key)]: ascending and stable. *)
Definition sorted (l : list A) : list A := fold_right insert_by [] l.
End Sorted.
Arguments insert_by {A} key x l.
Arguments sorted {A} key l.

Definition top (l : line) : Q := bbox_top (line_box l).
Definition bottom (l : line) : Q := bbox_bottom (line_box l).

(** One round of the loop over the sorted lines; the state is
    [(blocks, current)]. *)
Definition step (y_gap : Q) (st : list (list line) * list line) (ln : line)
  : list (list line) * list line :=
  let (blocks, current) := st in
  match current with
  | [] => (blocks, [ln])
  | _ =>
      let prev := last current ln in
      let gap := top ln - bottom prev in
      if Qlt_le_dec gap y_gap then (blocks, current ++ [ln])
      else (blocks ++ [current], [ln])
  end.

Definition group_lines_into_blocks (lines : list line) (y_gap : Q)
  : list (list line) :=
  let lines := sorted top lines in
  let (blocks, current) := fold_left (step y_gap) lines ([], []) in
  match current with
  | [] => blocks
  | _ => blocks ++ [current]
  end.

Definition default_y_gap : Q := 40.

Record block_line := BlockLine {
  line_id : nat;
  bl_text : str;
  bl_bbox : list Q;
  confidence : Q
}.

Record block := Block {
  block_id : nat;
  bbox : list Q;
  lines : list block_line
}.

Record meta := Meta {
  meta_avg_conf : option Q;
  lines_count : nat;
  blocks_count : nat;
  chosen_source : option string
}.

Record structured := Structured { blocks : list block; doc_meta : meta }.

(** The decision record read from [final_json_path]. *)
Record decision_json := DecisionJson {
  data_lines : list line;
  data_avg_conf : option Q;
  data_chosen : option string
}.

(** [enumerate(l, start=1)] *)
Definition enumerate1 {A : Type} (l : list A) : list (nat * A) :=
  combine (seq 1 (List.length l)) l.

Definition line_bbox (l : line) : list Q :=
  [bbox_left (line_box l); bbox_top (line_box l);
   bbox_right (line_box l); bbox_bottom (line_box l)].

Definition make_block (ib : nat * list line) : option block :=
  let (i, blk) := ib in
  match bbox_union (map line_box blk) with
  | None => None
  | Some block_bbox =>
      let block_lines :=
        map (fun jl : nat * line =>
               let (j, l) := jl in
               BlockLine j (text l) (line_bbox l) (conf l))
            (enumerate1 blk) in
      Some (Block i block_bbox block_lines)
  end.

(** The structured document that is written to [out_path] and returned;
    [None] when building it raises. *)
Definition structure_ocr (data : decision_json) : option structured :=
  let lines := data_lines data in
  let blocks_raw := group_lines_into_blocks lines default_y_gap in
  match map_or_raise make_block (enumerate1 blocks_raw) with
  | None => None
  | Some blocks =>
      Some (Structured blocks
              (Meta (data_avg_conf data) (List.length lines)
                    (List.length blocks) (data_chosen data)))
  end.

End ocr_to_structured_json.

(* ================================================================== *)
(** ** src/preprocess/image_enhancer.py *)
(* ================================================================== *)

Module image_enhancer.

(** The exceptions that leave the functions of this file. *)
Inductive error := FileNotFoundError | ValueError | ZeroDivisionError.

Inductive result (A : Type) :=
| Ok (a : A)
| Raise (e : error).
Arguments Ok {A} a.
Arguments Raise {A} e.

Record QualityReport := Quality {
  is_acceptable : bool;
  brightness : Q;
  message : string
}.

(** The report of [process_batch]: [passed] holds [(file, brightness)],
    [failed] holds [(file, brightness, message)]. *)
Record batch_results := Results {
  passed : list (str * Q);
  failed : list (str * Q * string);
  total : nat
}.

Section WithImages.
(** Paths, pixel arrays and the library calls on them are external
    collaborators: [path_exists p] is [p.exists()], [imread p] is
    [cv2.imread(str(p))] ([None] as in Python), [array_mean a] is
    [a.mean()], [is_colour a] is [len(a.shape) == 3], [to_gray a] is
    [cv2.cvtColor(a, cv2.COLOR_BGR2GRAY)], [round1 x] is [round(x, 1)] and
    [name p] is [p.name].  Log lines and the image files written are not
    part of the results. *)
Variable path : Type.
Variable image : Type.
Variable path_exists : path -> bool.
Variable imread : path -> option image.
Variable array_mean : image -> Q.
Variable is_colour : image -> bool.
Variable to_gray : image -> image.
Variable round1 : Q -> Q.
Variable name : path -> str.

Definition load_image (image_path : path) : result image :=
  if negb (path_exists image_path) then Raise FileNotFoundError
  else
    match imread image_path with
    | None => Raise ValueError
    | Some image => Ok image
    end.

Definition check_brightness (gray : image) : Q * bool * string :=
  let mean_brightness := array_mean gray in
  if Qlt_le_dec mean_brightness 5 then
    (mean_brightness, false, "Image completely black"%string)
  else if Qlt_le_dec 254 mean_brightness then
    (mean_brightness, false, "Image completely white"%string)
  else (mean_brightness, true, "OK"%string).

Definition assess_image_quality (image : image) : QualityReport :=
  let gray := if is_colour image then to_gray image else image in
  let '(brightness, is_ok, message) := check_brightness gray in
  Quality is_ok (round1 brightness) message.

Definition smart_preprocess (image_path : path)
  : result (option image * QualityReport) :=
  match load_image image_path with
  | Raise e => Raise e
  | Ok image =>
      let quality := assess_image_quality image in
      if negb (is_acceptable quality) then Ok (None, quality)
      else Ok (Some image, quality)
  end.

(** One round of the loop of [process_batch]. *)
Definition batch_step (results : batch_results) (img_path : path)
  : result batch_results :=
  match smart_preprocess img_path with
  | Raise e => Raise e
  | Ok (processed, quality) =>
      let total := (total results + 1)%nat in
      match processed with
      | Some _ =>
          Ok (Results
                (passed results ++ [(name img_path, brightness quality)])
                (failed results) total)
      | None =>
          Ok (Results
                (passed results)
                (failed results
                 ++ [(name img_path, brightness quality, message quality)])
                total)
      end
  end.

Fixpoint batch_loop (files : list path) (results : batch_results)
  : result batch_results :=
  match files with
  | [] => Ok results
  | img_path :: files' =>
      match batch_step results img_path with
      | Raise e => Raise e
      | Ok results' => batch_loop files' results'
      end
  end.

(** [png_files] and [jpg_files] are what the two [glob] calls list.  The
    summary divides the two counts by [results['total']]. *)
Definition process_batch (png_files jpg_files : list path)
  : result batch_results :=
  let all_files := png_files ++ jpg_files in
  match batch_loop all_files (Results [] [] 0) with
  | Raise e => Raise e
  | Ok results =>
      if (total results =? 0)%nat then Raise ZeroDivisionError
      else Ok results
  end.

End WithImages.

Arguments load_image {path image} path_exists imread image_path.
Arguments check_brightness {image} array_mean gray.
Arguments assess_image_quality {image} array_mean is_colour to_gray round1
  image.
Arguments smart_preprocess {path image} path_exists imread array_mean
  is_colour to_gray round1 image_path.
Arguments batch_step {path image} path_exists imread array_mean is_colour
  to_gray round1 name results img_path.
Arguments batch_loop {path image} path_exists imread array_mean is_colour
  to_gray round1 name files results.
Arguments process_batch {path image} path_exists imread array_mean
  is_colour to_gray round1 name png_files jpg_files.

End image_enhancer.

(* ================================================================== *)
(** ** Vocabulary of the properties *)
(* ================================================================== *)

Import normalisation.

(** The answer of a matcher depends on what its continuation answers,
    not on how the continuation is written. *)
Definition extensional {A : Type} (m : Re.matcher A) : Prop :=
  forall s c k1 k2,
    (forall s' c', k1 s' c' = k2 s' c') -> m s c k1 = m s c k2.

(** A string without blanks, capitals or currency signs, which the
    clean-up of [normalize_amount] leaves as it is. *)
Definition plain (s : str) : Prop :=
  Forall (fun c => currency_or_space c = false) s.

(** Evaluates a pattern on an input whose characters are known by their
    classes only. *)
Ltac run_pattern :=
  repeat (progress (repeat match goal with
                           | H : is_digit _ = _ |- _ => rewrite !H
                           | H : date_sep _ = _ |- _ => rewrite !H
                           end;
                    lazy beta iota zeta delta
                      -[is_digit date_sep zfill py app])).

(** A sample box. *)
Definition demo_box : box :=
  Box (0, 0)%Q [(10, 0)%Q; (10, 5)%Q; (0, 5)%Q].

(** An engine that reads one line on the original scan ([true]) and
    nothing on the enhanced one ([false]). *)
Definition demo_ocr (img : bool) : option ocr_result :=
  if img then Some [[(demo_box, (py "TOTAL 12,50", 0.9%Q))]]
  else Some [[]].

(** The normalized amount candidates of the fallback ([cleaned]). *)
Definition candidates (text_block : str) : list str :=
  map (fun m => clean (group1 m)) (Re.findall AMOUNT_RE text_block).

(** The keyword line nearest to the end of the text. *)
Definition bottom_keyword_line (text_block : str) : option str :=
  find has_keyword (rev (splitlines text_block)).

Definition has_amount (line : str) : bool :=
  match Re.search AMOUNT_RE line with Some _ => true | None => false end.

(** The reading under which the scan gives up at the first keyword line. *)
Definition stops_at_first_keyword_line : Prop :=
  forall text line,
    bottom_keyword_line text = Some line ->
    has_amount line = false ->
    find_total_in_text text = largest_amount text.

(** The reading under which the fallback answers with the candidate text of
    greatest value. *)
Definition returns_greatest_candidate (text : str) : Prop :=
  exists c q,
    In c (candidates text) /\ float_of_str c = Some q /\
    (forall c' q', In c' (candidates text) -> float_of_str c' = Some q' ->
                   (q' <= q)%Q) /\
    find_total_in_text text = Some c.

Definition NL : str := [10%N].

(** Neither comma nor dot occurs in [s]. *)
Definition no_separator (s : str) : Prop :=
  has_char COMMA s = false /\ has_char DOT s = false.

(** The number written [ip.fp], [ip] and [fp] being digit strings. *)
Definition decimal (ip fp : str) : Q :=
  Qmake (digits_val (ip ++ fp)) (pow10 (List.length fp)).

Definition digits (s : str) : Prop := Forall (fun c => is_digit c = true) s.

(** Combining diacritical marks U+0300 to U+036F. *)
Definition combining_mark (c : char) : bool := in_range 768 879 c.

(** Vocabulary for the structurer's properties. *)

(** [R] holds between each element and the next one. *)
Fixpoint chain {A : Type} (R : A -> A -> Prop) (l : list A) : Prop :=
  match l with
  | [] => True
  | x :: l' =>
      match l' with
      | [] => True
      | y :: _ => R x y
      end /\ chain R l'
  end.

Fixpoint last_opt {A : Type} (l : list A) : option A :=
  match l with
  | [] => None
  | [x] => Some x
  | _ :: l' => last_opt l'
  end.

(** [x] is a member of [xs] that none is below (above). *)
Definition least (x : Q) (xs : list Q) : Prop :=
  In x xs /\ forall y, In y xs -> (x <= y)%Q.

Definition greatest (x : Q) (xs : list Q) : Prop :=
  In x xs /\ forall y, In y xs -> (y <= x)%Q.

(** Vertical gap between a line and the one before it. *)
Definition gap (prev ln : line) : Q :=
  (ocr_to_structured_json.top ln - ocr_to_structured_json.bottom prev)%Q.

(** An axis-parallel quadrilateral, clockwise from the top left corner. *)
Definition rect (l t r b : Q) : box := Box (l, t) [(r, t); (r, b); (l, b)].

(** Coordinate [i] of the bbox of an output line. *)
Definition coord (i : nat) (bl : ocr_to_structured_json.block_line) : Q :=
  nth i (ocr_to_structured_json.bl_bbox bl) 0%Q.

(** Two successive lines of one block are close; the last line of a block
    and the first of the next block are not. *)
Definition joined (y_gap : Q) (prev ln : line) : Prop :=
  (gap prev ln < y_gap)%Q.

Definition apart (y_gap : Q) (b b' : list line) : Prop :=
  forall prev ln,
    last_opt b = Some prev -> hd_error b' = Some ln ->
    (y_gap <= gap prev ln)%Q.

(** The end of [group_lines_into_blocks]: the open block is closed. *)
Definition close_blocks (st : list (list line) * list line)
  : list (list line) :=
  let (blocks, current) := st in
  match current with
  | [] => blocks
  | _ => blocks ++ [current]
  end.

(** What holds of the loop state once the lines [done] are read. *)
Definition loop_inv (y_gap : Q) (done : list line)
           (st : list (list line) * list line) : Prop :=
  let (blocks, current) := st in
  List.concat blocks ++ current = done
  /\ Forall (fun b => b <> []) blocks
  /\ (current = [] -> blocks = [])
  /\ Forall (chain (joined y_gap)) blocks
  /\ chain (joined y_gap) current
  /\ chain (apart y_gap) (blocks ++ [current]).

Definition by_top (a b : line) : Prop :=
  (ocr_to_structured_json.top a <= ocr_to_structured_json.top b)%Q.

(** The lines of the specification's example: tops 10, 20 and 100, the
    first two ending at 30. *)
Definition line_a : line := Line (py "Facture") 0.9%Q (rect 0 10 200 30).
Definition line_b : line := Line (py "No 42") 0.8%Q (rect 0 20 200 30).
Definition line_c : line := Line (py "Total") 0.7%Q (rect 0 100 200 120).

(** Two lines whose bboxes are [0,0,10,10] and [5,5,20,20]. *)
Definition line_p : line := Line (py "p") 0.9%Q (rect 0 0 10 10).
Definition line_q : line := Line (py "q") 0.9%Q (rect 5 5 20 20).

(** The bbox of an output block is the union of the bboxes of its lines. *)
Definition bbox_is_union (blk : ocr_to_structured_json.block) : Prop :=
  let ls := ocr_to_structured_json.lines blk in
  ls <> [] /\
  exists l t r b : Q,
    ocr_to_structured_json.bbox blk = [l; t; r; b]
    /\ least l (map (coord 0) ls) /\ least t (map (coord 1) ls)
    /\ greatest r (map (coord 2) ls) /\ greatest b (map (coord 3) ls).

(** *** Words of a pattern *)

(** The words a pattern matches, whatever the order in which the matcher
    tries them. *)
Fixpoint matches (r : Re.regex) (w : str) : Prop :=
  match r with
  | Re.Eps => w = []
  | Re.Cls f => exists x, w = [x] /\ f x = true
  | Re.Cat a b =>
      exists w1 w2, w = w1 ++ w2 /\ matches a w1 /\ matches b w2
  | Re.Alt a b => matches a w \/ matches b w
  | Re.Rep lo hi a =>
      exists ws,
        w = List.concat ws /\ Forall (matches a) ws
        /\ (lo <= List.length ws)%nat
        /\ match hi with
           | Some h => (List.length ws <= h)%nat
           | None => True
           end
  | Re.Grp _ a => matches a w
  end.

(** Every group [i] of the pattern captures words of [Q i] only. *)
Fixpoint captures_in (Q : nat -> str -> Prop) (r : Re.regex) : Prop :=
  match r with
  | Re.Eps | Re.Cls _ => True
  | Re.Cat a b | Re.Alt a b => captures_in Q a /\ captures_in Q b
  | Re.Rep _ _ a => captures_in Q a
  | Re.Grp i a => (forall w, matches a w -> Q i w) /\ captures_in Q a
  end.

Definition caps_in (Q : nat -> str -> Prop) (c : Re.caps) : Prop :=
  Forall (fun e => Q (fst e) (snd e)) c.

(** A matcher that answers only through its continuation, on a rest of
    the input, after a word of [L], with captures of [Q] added. *)
Definition sound_matcher {A : Type} (Q : nat -> str -> Prop)
           (L : str -> Prop) (m : Re.matcher A) : Prop :=
  forall s c k v,
    m s c k = Some v ->
    exists w s' new,
      s = w ++ s' /\ L w /\ caps_in Q new /\ k s' (new ++ c) = Some v.

(** The characters of amounts: digits, blank, no-break space, comma and
    dot. *)
Definition amount_char (c : char) : Prop :=
  is_digit c = true \/ c = 32%N \/ c = NBSP \/ c = COMMA \/ c = DOT.

(** The characters of a detected total: digits and dots. *)
Definition total_char (c : char) : Prop := is_digit c = true \/ c = DOT.

(** The part of [AMOUNT_RE] inside its first group. *)
Definition AMOUNT_BODY : Re.regex :=
  Re.Cat (Re.rep 1 3 Re.digit)
    (Re.Cat (Re.star (Re.Cat (Re.Cls (fun c => (c =? 32)%N || (c =? NBSP)%N
                                              || (c =? 44)%N))
                             (Re.rep 3 3 Re.digit)))
            (Re.Cat (Re.Cls (fun c => (c =? 46)%N || (c =? 44)%N))
                    (Re.rep 2 2 Re.digit))).

(** What the groups of [AMOUNT_RE] and of [DATE_RE] hold. *)
Definition amount_group (i : nat) (w : str) : Prop :=
  i = 1%nat -> matches AMOUNT_BODY w.

Definition date_group (i : nat) (w : str) : Prop :=
  digits w /\
  match i with
  | 3%nat => (2 <= List.length w <= 4)%nat
  | _ => (1 <= List.length w <= 2)%nat
  end.

(** Every character class of the pattern lies in [P]. *)
Fixpoint classes_in (P : char -> Prop) (r : Re.regex) : Prop :=
  match r with
  | Re.Eps => True
  | Re.Cls f => forall x, f x = true -> P x
  | Re.Cat a b | Re.Alt a b => classes_in P a /\ classes_in P b
  | Re.Rep _ _ a | Re.Grp _ a => classes_in P a
  end.

(** *** Clean text *)

(** [re.sub(r'\s+', ' ', s)] told directly: each run of blanks becomes one
    space; [in_run] says that the character before was a blank. *)
Fixpoint squeeze (in_run : bool) (s : str) : str :=
  match s with
  | [] => []
  | x :: t =>
      if is_space x then
        if in_run then squeeze true t else 32%N :: squeeze true t
      else x :: squeeze false t
  end.

(** [s.rstrip()] *)
Definition rstrip (s : str) : str := rev (lstrip (rev s)).

Definition head_not_space (s : str) : Prop :=
  match s with
  | x :: _ => is_space x = false
  | [] => True
  end.

(** The only blank is the plain space, ... *)
Definition plain_blanks (s : str) : Prop :=
  Forall (fun c => is_space c = true -> c = 32%N) s.

(** ... no two blanks follow each other, ... *)
Definition single_blanks (s : str) : Prop :=
  chain (fun a b => is_space a = true -> is_space b = false) s.

(** ... and there is none at either end. *)
Definition tidy (s : str) : Prop :=
  plain_blanks s /\ single_blanks s /\ strip s = s.

(** *** Currencies *)


(** A comma or a dot. *)
Definition is_separator (c : char) : Prop := c = COMMA \/ c = DOT.

(** *** Lines of the text and of the document *)

(** No character of [s] ends a line for [str.splitlines]. *)
Definition one_line (s : str) : Prop :=
  Forall (fun c => is_linebreak c = false) s.

(** What the structurer copies of a line: text, bbox and confidence. *)
Definition line_content (l : line) : str * list Q * Q :=
  (text l, ocr_to_structured_json.line_bbox l, conf l).

Definition out_content (bl : ocr_to_structured_json.block_line)
  : str * list Q * Q :=
  (ocr_to_structured_json.bl_text bl, ocr_to_structured_json.bl_bbox bl,
   ocr_to_structured_json.confidence bl).

(** The output lines of a document, block after block. *)
Definition doc_lines (doc : ocr_to_structured_json.structured)
  : list ocr_to_structured_json.block_line :=
  flat_map ocr_to_structured_json.lines (ocr_to_structured_json.blocks doc).

(** Coordinate [i] of the bbox of an output block. *)
Definition block_coord (i : nat) (b : ocr_to_structured_json.block) : Q :=
  nth i (ocr_to_structured_json.bbox b) 0%Q.

(** Number of lines of [l] that lie [y_gap] or more below the line before
    them. *)
Fixpoint breaks (y_gap : Q) (l : list line) : nat :=
  match l with
  | [] => 0
  | prev :: l' =>
      match l' with
      | [] => 0
      | ln :: _ => if Qlt_le_dec (gap prev ln) y_gap then 0 else 1
      end + breaks y_gap l'
  end.

(** Splits on the comparison of the scores. *)
Ltac decide_margin :=
  match goal with
  | |- context [Qlt_le_dec ?a ?b] => destruct (Qlt_le_dec a b)
  end.

(** The output line built for line [l] of number [j]. *)
Definition out_line (jl : nat * line) : ocr_to_structured_json.block_line :=
  let (j, l) := jl in
  ocr_to_structured_json.BlockLine
    j (text l) (ocr_to_structured_json.line_bbox l) (conf l).

(** The output block [b] is built from the lines [blk], as block [i]. *)
Definition built_from (ib : nat * list line)
           (b : ocr_to_structured_json.block) : Prop :=
  snd ib <> []
  /\ ocr_to_structured_json.block_id b = fst ib
  /\ ocr_to_structured_json.bbox_union (map line_box (snd ib))
     = Some (ocr_to_structured_json.bbox b)
  /\ ocr_to_structured_json.lines b
     = map out_line (ocr_to_structured_json.enumerate1 (snd ib)).

(** Top of the first line of a group of lines. *)
Definition head_top (blk : list line) : Q :=
  match blk with
  | [] => 0%Q
  | l0 :: _ => ocr_to_structured_json.top l0
  end.

(** *** Batches of scans *)

(** The scan of [p] loads and passes the brightness check of
    [smart_preprocess]. *)
Definition accepted {path image : Type}
           (smart_preprocess :
              path -> image_enhancer.result
                        (option image * image_enhancer.QualityReport))
           (p : path) : bool :=
  match smart_preprocess p with
  | image_enhancer.Ok (Some _, _) => true
  | _ => false
  end.

(** The file of an entry of [failed]. *)
Definition failed_file (entry : str * Q * string) : str := fst (fst entry).

(** *** Scripts *)

(** Code points on which the class [\d] of Python is the one given here:
    all those below U+0660, the first decimal digit outside ASCII, and
    above it the blanks and the euro sign. *)
Definition plain_script (c : char) : bool :=
  (c <? 1632)%N || is_space c || (c =? EURO)%N.

(** *** Arbitration *)



(** The total and the score that [select_best_orange] computes from a
    result [(ext, conf, text)]. *)
Definition orange_total_of (r : list line * Q * str) : option str :=
  let '(_, _, text) := r in
  match text with
  | [] => None
  | _ => find_total_in_text text
  end.

Definition orange_score_of (r : list line * Q * str) : Q :=
  let '(ext, conf, _) := r in
  match ext with
  | [] => 0%Q
  | _ =>
      process_orange_factures.score_result conf (orange_total_of r)
        (List.length ext)
  end.

(** The two answers of [select_best_orange]: the original variant [r_o]
    beside the score [score_p] of the other one, and the enhanced variant
    [r_p] beside the score [score_o] of the original. *)
Definition orange_original (name : str) (r_o : list line * Q * str)
           (score_p : Q) : process_orange_factures.decision :=
  let '(ext_o, conf_o, _) := r_o in
  process_orange_factures.Decision
    "original" name conf_o (orange_total_of r_o) ext_o
    (orange_score_of r_o) (orange_score_of r_o) score_p.

Definition orange_preprocessed (name : str) (r_p : list line * Q * str)
           (score_o : Q) : process_orange_factures.decision :=
  let '(ext_p, conf_p, _) := r_p in
  process_orange_factures.Decision
    "preprocessed" name conf_p (orange_total_of r_p) ext_p
    (orange_score_of r_p) score_o (orange_score_of r_p).

(** The engine that answers no page where [ocr] raises. *)
Definition without_failure {image : Type} (ocr : image -> option ocr_result)
           (img : image) : option ocr_result :=
  match ocr img with
  | Some result => Some result
  | None => Some []
  end.



(* ================================================================== *)
(** * Properties *)
(* ================================================================== *)

(** ** The matcher *)

Section MatcherFacts.
Import Re.
Context {A : Type}.

Lemma rep_loop_ext (body : matcher A) (k1 k2 : str -> caps -> option A) :
  extensional body ->
  (forall s' c', k1 s' c' = k2 s' c') ->
  forall fuel lo hi s c,
    rep_loop body k1 fuel lo hi s c = rep_loop body k2 fuel lo hi s c.
Proof.
  intros Hbody Hk. induction fuel as [| fuel IH]; intros lo hi s c.
  - cbn [rep_loop]. destruct lo; [apply Hk | reflexivity].
  - cbn [rep_loop].
    rewrite (Hbody s c _
               (fun s' c' =>
                  if (List.length s' <? List.length s)%nat
                  then rep_loop body k2 fuel (pred lo) (option_map pred hi)
                         s' c'
                  else None)).
    + rewrite Hk. reflexivity.
    + intros s' c'. destruct (List.length s' <? List.length s)%nat;
        [apply IH | reflexivity].
Qed.

Lemma run_ext (r : regex) : extensional (run (A := A) r).
Proof.
  induction r as [| f | a IHa b IHb | a IHa b IHb | lo hi a IHa | i a IHa];
    intros s c k1 k2 Hk; cbn [run].
  - apply Hk.
  - destruct s as [| x s']; [reflexivity |].
    destruct (f x); [apply Hk | reflexivity].
  - apply IHa. intros s' c'. apply IHb. exact Hk.
  - rewrite (IHa s c k1 k2 Hk), (IHb s c k1 k2 Hk). reflexivity.
  - apply rep_loop_ext; assumption.
  - apply IHa. intros s' c'. apply Hk.
Qed.

(** More rounds than the input has characters change nothing: the fuel of
    a repetition never runs out before the repetition stops by itself. *)
Lemma rep_loop_fuel (body : matcher A) (k : str -> caps -> option A) :
  extensional body ->
  forall fuel1 fuel2 lo hi s c,
    (List.length s < fuel1)%nat -> (List.length s < fuel2)%nat ->
    rep_loop body k fuel1 lo hi s c = rep_loop body k fuel2 lo hi s c.
Proof.
  intros Hbody. induction fuel1 as [| fuel1 IH];
    intros fuel2 lo hi s c H1 H2; [lia |].
  destruct fuel2 as [| fuel2]; [lia |].
  cbn [rep_loop].
  rewrite (Hbody s c _
             (fun s' c' =>
                if (List.length s' <? List.length s)%nat
                then rep_loop body k fuel2 (pred lo) (option_map pred hi)
                       s' c'
                else None)); [reflexivity |].
  intros s' c'. destruct (List.length s' <? List.length s)%nat eqn:E;
    [| reflexivity].
  apply Nat.ltb_lt in E. apply IH; lia.
Qed.

End MatcherFacts.

(** Likewise for [findall]: every round moves on in the text. *)
Lemma findall_aux_fuel (r : Re.regex) :
  forall fuel1 fuel2 s,
    (List.length s < fuel1)%nat -> (List.length s < fuel2)%nat ->
    Re.findall_aux fuel1 r s = Re.findall_aux fuel2 r s.
Proof.
  induction fuel1 as [| fuel1 IH]; intros fuel2 s H1 H2; [lia |].
  destruct fuel2 as [| fuel2]; [lia |].
  cbn [Re.findall_aux].
  destruct (Re.match_at r s) as [[s' c] |].
  - f_equal. destruct (List.length s' <? List.length s)%nat eqn:E.
    + apply Nat.ltb_lt in E. apply IH; lia.
    + destruct s as [| x t]; [reflexivity |].
      cbn [List.length] in *. apply IH; lia.
  - destruct s as [| x t]; [reflexivity |].
    cbn [List.length] in *. apply IH; lia.
Qed.

(** The pattern of amounts on the writings it is made for. *)
Example amount_with_thousands_blank :
  option_map group1 (Re.search AMOUNT_RE (py "TOTAL TTC 1 234,56 EUR"))
  = Some (py "1 234,56").
Proof. reflexivity. Qed.

Example amount_after_four_digits :
  option_map group1 (Re.search AMOUNT_RE (py "1234,56"))
  = Some (py "234,56").
Proof. reflexivity. Qed.

Example amounts_of_a_text :
  map group1 (Re.findall AMOUNT_RE (py "12.00 EUR + 1,234.56 = 7,5"))
  = [py "12.00"; py "1,234.56"].
Proof. reflexivity. Qed.

Example total_on_the_last_line :
  find_total_in_text
    (py "Facture 2024" ++ NL ++ py "TOTAL TTC 1 234,56 " ++ [EURO])
  = Some (py "1234.56").
Proof. reflexivity. Qed.

(** ** Scores *)

Section ScoreFacts.
Open Scope Q_scope.

Lemma line_bonus_nonneg (n : nat) :
  0 <= Qmin (inject_Z (Z.of_nat n) / 100) 0.05.
Proof.
  apply Q.min_glb; [| discriminate].
  apply Qle_shift_div_l; [reflexivity |].
  rewrite Qmult_0_l. change 0 with (inject_Z 0).
  rewrite <- Zle_Qle. lia.
Qed.

Lemma sum_nonneg (xs : list Q) (acc : Q) :
  0 <= acc -> Forall (fun x => 0 <= x) xs -> 0 <= fold_left Qplus xs acc.
Proof.
  revert acc. induction xs as [| x xs IH]; intros acc Hacc Hxs; simpl.
  - exact Hacc.
  - inversion Hxs as [| ? ? Hx Hrest]; subst.
    apply IH; [| exact Hrest].
    change 0 with (0 + 0). apply Qplus_le_compat; assumption.
Qed.

Lemma mean_nonneg (xs : list Q) :
  xs <> [] -> Forall (fun x => 0 <= x) xs -> 0 <= mean xs.
Proof.
  intros Hne Hxs. unfold mean.
  apply Qle_shift_div_l.
  - change 0 with (inject_Z 0). rewrite <- Zlt_Qlt.
    destruct xs; [contradiction | simpl; lia].
  - rewrite Qmult_0_l. apply sum_nonneg; [apply Qle_refl | exact Hxs].
Qed.

End ScoreFacts.

(** What [collect] gives: the lines in page order, their mean confidence
    (0 without lines) and their texts joined by newlines. *)
Lemma collect_lines (result : ocr_result) :
  fst (fst (collect result)) =
  flat_map (fun page =>
    map (fun e => Line (fst (snd e)) (snd (snd e)) (fst e)) page) result.
Proof. reflexivity. Qed.

Lemma collect_empty (result : ocr_result) :
  fst (fst (collect result)) = [] -> collect result = ([], 0%Q, []).
Proof.
  unfold collect. simpl. intros ->. reflexivity.
Qed.

Lemma collect_conf_nonneg (result : ocr_result) :
  Forall (fun e => (0 <= snd (snd e))%Q) (List.concat result) ->
  (0 <= snd (fst (collect result)))%Q.
Proof.
  intros H. unfold collect. cbn [fst snd].
  set (extracted := flat_map _ result).
  assert (Hc : Forall (fun x => (0 <= x)%Q) (map conf extracted)).
  { subst extracted. rewrite flat_map_concat_map, concat_map, map_map.
    rewrite Forall_forall in *. intros x Hx.
    rewrite in_concat in Hx. destruct Hx as (l & Hl & Hx).
    rewrite in_map_iff in Hl. destruct Hl as (page & <- & Hpage).
    rewrite map_map in Hx. cbn in Hx.
    rewrite in_map_iff in Hx. destruct Hx as (e & <- & He).
    apply H. rewrite in_concat. exists page. split; assumption. }
  destruct (map conf extracted) eqn:E.
  - apply Qle_refl.
  - rewrite <- E in *. apply mean_nonneg; [rewrite E; discriminate | exact Hc].
Qed.

Lemma score_nonneg_select_best (c : Q) (t : option str) (n : nat) :
  (0 <= c)%Q -> (0 <= select_best_ocr.score_result c t n)%Q.
Proof.
  intros Hc. unfold select_best_ocr.score_result.
  pose proof (line_bonus_nonneg n) as Hb.
  destruct t; lra.
Qed.

(** C9.  The score is the average confidence, plus 0.05 when a total was
    detected, plus min(line count / 100, 0.05); for a fixed total and line
    count it never decreases when the average confidence increases.  Both
    copies of [score_result] (arbitration module and batch script). *)
Theorem score_result_monotone :
  forall (avg_conf1 avg_conf2 : Q) (total : option str) (n : nat),
    (avg_conf1 <= avg_conf2)%Q ->
    (select_best_ocr.score_result avg_conf1 total n
       <= select_best_ocr.score_result avg_conf2 total n)%Q
    /\ (process_orange_factures.score_result avg_conf1 total n
       <= process_orange_factures.score_result avg_conf2 total n)%Q
    /\ (select_best_ocr.score_result avg_conf1 total n
        == avg_conf1 + (match total with Some _ => 0.05 | None => 0 end)
           + Qmin (inject_Z (Z.of_nat n) / 100) 0.05)%Q
    /\ (process_orange_factures.score_result avg_conf1 total n
        == avg_conf1 + (match total with Some _ => 0.05 | None => 0 end)
           + Qmin (inject_Z (Z.of_nat n) / 100) 0.05)%Q.
Proof.
  intros c1 c2 total n Hle.
  unfold select_best_ocr.score_result, process_orange_factures.score_result.
  destruct total; repeat split; lra.
Qed.

Lemma score_result_monotone_witness :
  (0.5 <= 0.75)%Q
  /\ (select_best_ocr.score_result 0.5 (Some (py "12.00")) 7
      <= select_best_ocr.score_result 0.75 (Some (py "12.00")) 7)%Q.
Proof.
  split.
  - discriminate.
  - apply (score_result_monotone 0.5%Q 0.75%Q (Some (py "12.00")) 7).
    discriminate.
Defined.

(** ** Arbitration *)

Lemma find_total_in_empty_text : find_total_in_text [] = None.
Proof. reflexivity. Qed.

Lemma empty_candidate_score :
  (select_best_ocr.score_result 0 None (List.length (@nil line)) == 0)%Q.
Proof. vm_compute. reflexivity. Qed.




(** ** Total extraction *)

Lemma keyword_scan_skips (below rest : list str) :
  (forall l, In l below -> has_keyword l = true -> has_amount l = false) ->
  keyword_scan (below ++ rest) = keyword_scan rest.
Proof.
  induction below as [| l below IH]; intros H; [reflexivity |].
  cbn [app keyword_scan].
  destruct (has_keyword l) eqn:Hk.
  - assert (Ha : has_amount l = false)
      by (apply H; [left; reflexivity | exact Hk]).
    unfold has_amount in Ha.
    destruct (Re.search AMOUNT_RE l); [discriminate |].
    apply IH. intros l' Hin. apply H. right. exact Hin.
  - apply IH. intros l' Hin. apply H. right. exact Hin.
Qed.

Lemma keyword_scan_none (rlines : list str) :
  (forall l, In l rlines -> has_keyword l = true -> has_amount l = false) ->
  keyword_scan rlines = None.
Proof.
  intros H. rewrite <- (app_nil_r rlines).
  rewrite keyword_scan_skips by exact H. reflexivity.
Qed.

Lemma max_from_cons (x z : Q) (xs : list Q) :
  max_from x (z :: xs) = max_from (if Qlt_le_dec x z then z else x) xs.
Proof. reflexivity. Qed.

Lemma max_from_spec (xs : list Q) (x : Q) :
  In (max_from x xs) (x :: xs)
  /\ forall y, In y (x :: xs) -> (y <= max_from x xs)%Q.
Proof.
  revert x. induction xs as [| z xs IH]; intros x.
  - split; [left; reflexivity |]. intros y [<- | []]. apply Qle_refl.
  - rewrite max_from_cons. destruct (Qlt_le_dec x z) as [Hlt | Hle].
    + destruct (IH z) as [Hin Hmax]. split.
      * right. exact Hin.
      * intros y [<- | Hy].
        -- apply Qle_trans with z; [apply Qlt_le_weak; exact Hlt |].
           apply Hmax. left. reflexivity.
        -- apply Hmax. exact Hy.
    + destruct (IH x) as [Hin Hmax]. split.
      * destruct Hin as [<- | Hin];
          [left; reflexivity | right; right; exact Hin].
      * intros y [<- | [<- | Hy]].
        -- apply Hmax. left. reflexivity.
        -- apply Qle_trans with x; [exact Hle |]. apply Hmax. left. reflexivity.
        -- apply Hmax. right. exact Hy.
Qed.

Lemma map_or_raise_none {A B : Type} (f : A -> option B) (xs : list A) :
  xs <> [] -> Forall (fun x => f x = None) xs -> map_or_raise f xs = None.
Proof.
  intros Hne Hall. destruct xs as [| x xs]; [contradiction |].
  inversion Hall as [| ? ? Hx _]; subst. cbn. rewrite Hx. reflexivity.
Qed.

Lemma map_or_raise_length {A B : Type} (f : A -> option B) (xs : list A)
      (ys : list B) :
  map_or_raise f xs = Some ys -> List.length ys = List.length xs.
Proof.
  revert ys. induction xs as [| x xs IH]; intros ys H; cbn in H.
  - injection H as <-. reflexivity.
  - destruct (f x); [| discriminate].
    destruct (map_or_raise f xs); [| discriminate].
    injection H as <-. cbn. f_equal. apply IH. reflexivity.
Qed.

Lemma largest_amount_unfold (text : str) :
  largest_amount text =
  match candidates text with
  | [] => None
  | cleaned =>
      match map_or_raise float_of_str cleaned with
      | Some nums =>
          match py_max nums with
          | Some m => Some (float_str m)
          | None => Some (last cleaned [])
          end
      | None => Some (last cleaned [])
      end
  end.
Proof.
  unfold largest_amount, candidates.
  destruct (Re.findall AMOUNT_RE text); reflexivity.
Qed.

(** C2 as stated fails: with a bare keyword line at the bottom and a
    keyword line carrying an amount above it, the answer is the amount of
    the upper keyword line, not the fallback's greatest amount. *)
Lemma stops_at_first_keyword_line_fails : ~ stops_at_first_keyword_line.
Proof.
  intros H.
  specialize (H (py "TOTAL 10,00" ++ NL ++ py "99,99" ++ NL ++ py "TOTAL")
                (py "TOTAL") eq_refl eq_refl).
  vm_compute in H. discriminate H.
Qed.

(** C2, amended.  The bottom-up scan does not stop at a keyword line
    without an amount: it goes on to the lines above, and the first keyword
    line that has an amount gives the answer (first match of that line,
    spaces removed, comma turned into a dot).  The fallback runs only when
    no keyword line has an amount. *)
Theorem keyword_scan_continues_upward :
  forall text : str,
    (forall below line above m,
        rev (splitlines text) = below ++ line :: above ->
        (forall l, In l below -> has_keyword l = true ->
                   has_amount l = false) ->
        has_keyword line = true ->
        Re.search AMOUNT_RE line = Some m ->
        find_total_in_text text = Some (clean (group1 m)))
    /\
    ((forall l, In l (splitlines text) -> has_keyword l = true ->
                has_amount l = false) ->
     find_total_in_text text = largest_amount text).
Proof.
  intros text. split.
  - intros below line above m Hsplit Hbelow Hkw Hm.
    unfold find_total_in_text. rewrite Hsplit.
    rewrite keyword_scan_skips by exact Hbelow.
    cbn [keyword_scan]. rewrite Hkw, Hm. reflexivity.
  - intros Hnone. unfold find_total_in_text.
    rewrite keyword_scan_none; [reflexivity |].
    intros l Hin. apply Hnone. apply in_rev. exact Hin.
Qed.

Lemma keyword_scan_continues_upward_witness :
  find_total_in_text
    (py "TOTAL 10,00" ++ NL ++ py "99,99" ++ NL ++ py "TOTAL")
  = Some (py "10.00")
  /\ find_total_in_text (py "12,00" ++ NL ++ py "TOTAL")
     = largest_amount (py "12,00" ++ NL ++ py "TOTAL").
Proof.
  split.
  - destruct (keyword_scan_continues_upward
                (py "TOTAL 10,00" ++ NL ++ py "99,99" ++ NL ++ py "TOTAL"))
      as [Hup _].
    destruct (Re.search AMOUNT_RE (py "TOTAL 10,00")) as [m |] eqn:Hm;
      [| discriminate Hm].
    rewrite (Hup [py "TOTAL"; py "99,99"] (py "TOTAL 10,00") [] m).
    + vm_compute in Hm. injection Hm as <-. reflexivity.
    + reflexivity.
    + intros l [<- | [<- | []]] Hk; [reflexivity | discriminate Hk].
    + reflexivity.
    + exact Hm.
  - destruct (keyword_scan_continues_upward
                (py "12,00" ++ NL ++ py "TOTAL")) as [_ Hfall].
    apply Hfall.
    intros l [<- | [<- | []]] Hk; [discriminate Hk | reflexivity].
Defined.

(** C3.  In the fallback branch, when no normalized candidate parses as a
    float the answer is the last candidate, not None; and the function
    answers None only for a text without any amount match. *)
Theorem fallback_last_candidate_when_unparsable :
  forall text : str,
    (keyword_scan (rev (splitlines text)) = None ->
     candidates text <> [] ->
     Forall (fun c => float_of_str c = None) (candidates text) ->
     find_total_in_text text = Some (last (candidates text) []))
    /\
    (find_total_in_text text = None -> Re.findall AMOUNT_RE text = []).
Proof.
  intros text. split.
  - intros Hscan Hne Hall. unfold find_total_in_text. rewrite Hscan.
    rewrite largest_amount_unfold.
    pose proof (map_or_raise_none float_of_str (candidates text) Hne Hall)
      as Hraise.
    destruct (candidates text); [contradiction |].
    cbv zeta. rewrite Hraise. reflexivity.
  - unfold find_total_in_text.
    destruct (keyword_scan (rev (splitlines text))); [discriminate |].
    unfold largest_amount.
    destruct (Re.findall AMOUNT_RE text) as [| m ms]; [reflexivity |].
    set (cleaned := map _ (m :: ms)).
    destruct (map_or_raise float_of_str cleaned) as [nums |];
      [destruct (py_max nums) |]; discriminate.
Qed.

Lemma fallback_last_candidate_when_unparsable_witness :
  find_total_in_text (py "1,234.56" ++ NL ++ py "2,000.00")
  = Some (py "2.000.00")
  /\ Re.findall AMOUNT_RE (py "TOTAL: 12") = [].
Proof.
  split.
  - destruct (fallback_last_candidate_when_unparsable
                (py "1,234.56" ++ NL ++ py "2,000.00")) as [Hlast _].
    rewrite Hlast.
    + reflexivity.
    + reflexivity.
    + vm_compute. discriminate.
    + vm_compute. repeat constructor.
  - destruct (fallback_last_candidate_when_unparsable (py "TOTAL: 12"))
      as [_ Hnone].
    apply Hnone. reflexivity.
Defined.

(** C5 as stated fails: on the one-amount text "12.00" the fallback
    applies, and the answer is "12.0", the printed float, which is not the
    normalized candidate "12.00". *)
Lemma returns_greatest_candidate_fails :
  candidates (py "12.00") = [py "12.00"]
  /\ keyword_scan (rev (splitlines (py "12.00"))) = None
  /\ find_total_in_text (py "12.00") = Some (py "12.0")
  /\ ~ returns_greatest_candidate (py "12.00").
Proof.
  split; [reflexivity |]. split; [reflexivity |]. split; [reflexivity |].
  intros (c & q & Hin & _ & _ & Hres).
  change (candidates (py "12.00")) with [py "12.00"] in Hin.
  destruct Hin as [<- | []].
  vm_compute in Hres. discriminate Hres.
Qed.

(** C5, amended.  With at least one amount match, no keyword line giving an
    amount, and every normalized candidate accepted by [float] (candidates
    of at most 15 digits, where the float is the decimal), the answer is
    [str] of the greatest float: its decimal writing without trailing zeros
    ("12.0" for 12.00), which is the normalized candidate only when that
    has none.  On the amounts 12.00, 999.99 and 45.50 it is "999.99". *)
Theorem fallback_prints_greatest_float :
  forall (text : str) (nums : list float),
    candidates text <> [] ->
    keyword_scan (rev (splitlines text)) = None ->
    map_or_raise float_of_str (candidates text) = Some nums ->
    Forall (fun c => (List.length c <= 16)%nat) (candidates text) ->
    (exists m : float,
        In m nums /\ (forall x, In x nums -> (x <= m)%Q)
        /\ find_total_in_text text = Some (float_str m))
    /\ find_total_in_text (py "12.00" ++ NL ++ py "999.99" ++ NL ++ py "45.50")
       = Some (py "999.99").
Proof.
  intros text nums Hne Hscan Hnums _. split; [| reflexivity].
  unfold find_total_in_text. rewrite Hscan, largest_amount_unfold.
  destruct (candidates text) as [| c cs] eqn:Hc; [contradiction |].
  cbv zeta. rewrite Hnums.
  destruct nums as [| x xs].
  - apply map_or_raise_length in Hnums. discriminate Hnums.
  - cbn [py_max]. exists (max_from x xs).
    destruct (max_from_spec xs x) as [Hin Hmax].
    split; [exact Hin |]. split; [exact Hmax | reflexivity].
Qed.

Lemma fallback_prints_greatest_float_witness :
  exists m : float,
    In m [12.00; 7.50]%Q /\ (forall x, In x [12.00; 7.50]%Q -> (x <= m)%Q)
    /\ find_total_in_text (py "12.00 + 7.50") = Some (float_str m).
Proof.
  apply (fallback_prints_greatest_float (py "12.00 + 7.50") [12.00; 7.50]%Q).
  - vm_compute. discriminate.
  - reflexivity.
  - reflexivity.
  - vm_compute. repeat constructor.
Defined.

(** ** Dates *)

Lemma date_sep_not_digit (c : char) : date_sep c = true -> is_digit c = false.
Proof.
  unfold date_sep. intros H. apply orb_true_iff in H.
  destruct H as [H | H]; apply N.eqb_eq in H; subst; reflexivity.
Qed.

(** C4 as stated fails on its second example: the two-digit year 99 is
    prefixed with 20, not 19. *)
Lemma normalize_date_99_is_not_1999 :
  normalize_date (py "5-3-99") <> Some (py "1999-03-05").
Proof. vm_compute. discriminate. Qed.

(** C4, amended.  normalize_date("15/01/2024") is "2024-01-15" and
    normalize_date("5-3-99") is "2099-03-05".  In general, for a day and a
    month of one or two digits and a year of two to four digits, separated
    by slash or hyphen, the answer is year-month-day with day and month
    padded to two digits, the year being prefixed with "20" when it has two
    digits and left as it is otherwise. *)
Theorem normalize_date_day_first :
  forall (day month year : str) (s1 s2 : char),
    Forall (fun c => is_digit c = true) day ->
    (1 <= List.length day <= 2)%nat ->
    Forall (fun c => is_digit c = true) month ->
    (1 <= List.length month <= 2)%nat ->
    Forall (fun c => is_digit c = true) year ->
    (2 <= List.length year <= 4)%nat ->
    date_sep s1 = true -> date_sep s2 = true ->
    normalize_date (day ++ s1 :: month ++ s2 :: year)
    = Some ((if Nat.eqb (List.length year) 2 then py "20" ++ year else year)
            ++ py "-" ++ zfill 2 month ++ py "-" ++ zfill 2 day)
    /\ normalize_date (py "15/01/2024") = Some (py "2024-01-15")
    /\ normalize_date (py "5-3-99") = Some (py "2099-03-05").
Proof.
  intros day month year s1 s2 Hd Ld Hm Lm Hy Ly Hs1 Hs2.
  split; [| split; reflexivity].
  pose proof (date_sep_not_digit s1 Hs1) as Hn1.
  pose proof (date_sep_not_digit s2 Hs2) as Hn2.
  destruct year as [| y1 [| y2 [| y3 [| y4 [| ? ?]]]]]; cbn in Ly; try lia;
  destruct day as [| d1 [| d2 [| ? ?]]]; cbn in Ld; try lia;
  destruct month as [| m1 [| m2 [| ? ?]]]; cbn in Lm; try lia;
  repeat match goal with
         | H : Forall _ (_ :: _) |- _ => inversion H; subst; clear H
         | H : Forall _ [] |- _ => clear H
         end;
  unfold normalize_date, Re.re_match, Re.match_at, DATE_RE, Re.rep, Re.digit;
  cbn [app]; run_pattern; reflexivity.
Qed.

Lemma normalize_date_day_first_witness :
  normalize_date (py "5-3-99") = Some (py "2099-03-05").
Proof.
  destruct (normalize_date_day_first (py "5") (py "3") (py "99") 45%N 45%N)
    as (H & _).
  - repeat constructor.
  - simpl. lia.
  - repeat constructor.
  - simpl. lia.
  - repeat constructor.
  - simpl. lia.
  - reflexivity.
  - reflexivity.
  - exact H.
Defined.

(** ** Amounts *)

Section StringFacts.

Lemma has_char_app (c : char) (a b : str) :
  has_char c (a ++ b) = has_char c a || has_char c b.
Proof. apply existsb_app. Qed.

Lemma has_char_cons (c x : char) (s : str) :
  has_char c (x :: s) = (c =? x)%N || has_char c s.
Proof. reflexivity. Qed.

Lemma replace_app (c : char) (new a b : str) :
  replace c new (a ++ b) = replace c new a ++ replace c new b.
Proof. apply flat_map_app. Qed.

Lemma replace_absent (c : char) (new s : str) :
  has_char c s = false -> replace c new s = s.
Proof.
  induction s as [| x s IH]; intros H; [reflexivity |].
  rewrite has_char_cons in H. apply orb_false_iff in H. destruct H as [Hx Hs].
  unfold replace in *. cbn [flat_map].
  rewrite N.eqb_sym, Hx. cbn [app]. f_equal. apply IH. exact Hs.
Qed.

Lemma replace_hit (c : char) (new s : str) :
  replace c new (c :: s) = new ++ replace c new s.
Proof. unfold replace. cbn [flat_map]. rewrite N.eqb_refl. reflexivity. Qed.

Lemma rfind_aux_absent (c : char) (s : str) (i best : Z) :
  has_char c s = false -> rfind_aux c s i best = best.
Proof.
  revert i best. induction s as [| x s IH]; intros i best H; [reflexivity |].
  rewrite has_char_cons in H. apply orb_false_iff in H. destruct H as [Hx Hs].
  cbn [rfind_aux]. rewrite N.eqb_sym, Hx. apply IH. exact Hs.
Qed.

Lemma rfind_aux_last (c : char) (a b : str) (i best : Z) :
  has_char c b = false ->
  rfind_aux c (a ++ c :: b) i best = (i + Z.of_nat (List.length a))%Z.
Proof.
  intros Hb. revert i best. induction a as [| x a IH]; intros i best.
  - cbn [app rfind_aux List.length]. rewrite N.eqb_refl.
    rewrite rfind_aux_absent by exact Hb. cbn. lia.
  - cbn [app rfind_aux]. rewrite IH. cbn [List.length]. lia.
Qed.

Lemma rfind_aux_bound (c : char) (s : str) (i best : Z) :
  (best < i)%Z ->
  (rfind_aux c s i best < i + Z.of_nat (List.length s))%Z.
Proof.
  revert i best. induction s as [| x s IH]; intros i best H.
  - cbn. lia.
  - cbn [rfind_aux List.length].
    destruct (x =? c)%N.
    + specialize (IH (i + 1)%Z i). lia.
    + specialize (IH (i + 1)%Z best). lia.
Qed.

Lemma rfind_last (c : char) (a b : str) :
  has_char c b = false -> rfind c (a ++ c :: b) = Z.of_nat (List.length a).
Proof. intros H. unfold rfind. rewrite rfind_aux_last by exact H. lia. Qed.

Lemma rfind_aux_app_absent (c : char) (a b : str) (i best : Z) :
  has_char c b = false ->
  rfind_aux c (a ++ b) i best = rfind_aux c a i best.
Proof.
  intros Hb. revert i best. induction a as [| x a IH]; intros i best.
  - cbn [app]. rewrite rfind_aux_absent by exact Hb. reflexivity.
  - cbn [app rfind_aux]. apply IH.
Qed.

Lemma rfind_before (c : char) (a b : str) :
  has_char c b = false ->
  (rfind c (a ++ b) < Z.of_nat (List.length a))%Z.
Proof.
  intros H. unfold rfind. rewrite rfind_aux_app_absent by exact H.
  pose proof (rfind_aux_bound c a 0 (-1)). lia.
Qed.

Lemma split_aux_absent (sep : char) (cur s : str) :
  has_char sep s = false -> split_aux sep cur s = [rev cur ++ s].
Proof.
  revert cur. induction s as [| x s IH]; intros cur H.
  - cbn. rewrite app_nil_r. reflexivity.
  - rewrite has_char_cons in H. apply orb_false_iff in H.
    destruct H as [Hx Hs]. cbn [split_aux]. rewrite N.eqb_sym, Hx.
    rewrite IH by exact Hs. cbn [rev]. rewrite <- app_assoc. reflexivity.
Qed.

Lemma split_aux_nonempty (sep : char) (cur s : str) :
  split_aux sep cur s <> [].
Proof.
  revert cur. induction s as [| x s IH]; intros cur; cbn [split_aux].
  - discriminate.
  - destruct (x =? sep)%N; [discriminate | apply IH].
Qed.

Lemma last_skip_head {A : Type} (x d : A) (l : list A) :
  l <> [] -> last (x :: l) d = last l d.
Proof. destruct l; [contradiction | reflexivity]. Qed.

Lemma split_last (sep : char) (a b : str) :
  has_char sep b = false ->
  last (split sep (a ++ sep :: b)) [] = b.
Proof.
  intros Hb. unfold split.
  enough (H : forall cur, last (split_aux sep cur (a ++ sep :: b)) [] = b)
    by apply H.
  induction a as [| x a IH]; intros cur.
  - cbn [app split_aux]. rewrite N.eqb_refl.
    rewrite split_aux_absent by exact Hb. reflexivity.
  - cbn [app split_aux]. destruct (x =? sep)%N.
    + rewrite last_skip_head by apply split_aux_nonempty. apply IH.
    + apply IH.
Qed.

End StringFacts.

Lemma normalize_amount_unfold (value : str) :
  strip_currency value <> [] ->
  normalize_amount value
  = float_of_str (resolve_separators (strip_currency value)).
Proof.
  intros Hv. unfold normalize_amount.
  destruct value as [| c value'].
  - exfalso. apply Hv. reflexivity.
  - destruct (strip_currency (c :: value')); [contradiction | reflexivity].
Qed.

Section AmountFacts.

Lemma normalize_amount_comma_last (value a b : str) :
  no_separator b ->
  strip_currency value = a ++ COMMA :: b -> has_char DOT a = true ->
  normalize_amount value
  = float_of_str (replace COMMA [DOT] (replace DOT [] a) ++ DOT :: b).
Proof.
  intros [Hbc Hbd] Hv Ha.
  rewrite normalize_amount_unfold by (rewrite Hv; destruct a; discriminate).
  rewrite Hv. unfold resolve_separators.
  rewrite !has_char_app, !has_char_cons, Ha, N.eqb_refl.
  rewrite orb_true_r. cbn [andb].
  rewrite (rfind_last COMMA a b Hbc).
  assert (Hlt : (rfind DOT (a ++ COMMA :: b) < Z.of_nat (List.length a))%Z).
  { apply rfind_before. rewrite has_char_cons, Hbd. reflexivity. }
  apply Z.ltb_lt in Hlt. rewrite Hlt.
  rewrite !replace_app.
  change (replace DOT [] (COMMA :: b)) with (COMMA :: replace DOT [] b).
  rewrite (replace_absent DOT [] b Hbd).
  rewrite replace_hit, (replace_absent COMMA [DOT] b Hbc).
  reflexivity.
Qed.

Lemma normalize_amount_dot_last (value a b : str) :
  no_separator b ->
  strip_currency value = a ++ DOT :: b -> has_char COMMA a = true ->
  normalize_amount value = float_of_str (replace COMMA [] a ++ DOT :: b).
Proof.
  intros [Hbc Hbd] Hv Ha.
  rewrite normalize_amount_unfold by (rewrite Hv; destruct a; discriminate).
  rewrite Hv. unfold resolve_separators.
  rewrite !has_char_app, !has_char_cons, Ha, N.eqb_refl.
  rewrite orb_true_r. cbn [andb orb].
  rewrite (rfind_last DOT a b Hbd).
  assert (Hlt : (rfind COMMA (a ++ DOT :: b) < Z.of_nat (List.length a))%Z).
  { apply rfind_before. rewrite has_char_cons, Hbc. reflexivity. }
  assert (Hge : (Z.of_nat (List.length a) <? rfind COMMA (a ++ DOT :: b))%Z
                = false) by (apply Z.ltb_ge; lia).
  rewrite Hge.
  rewrite replace_app.
  change (replace COMMA [] (DOT :: b)) with (DOT :: replace COMMA [] b).
  rewrite (replace_absent COMMA [] b Hbc). reflexivity.
Qed.

Lemma normalize_amount_comma_only (value a b : str) :
  no_separator b ->
  strip_currency value = a ++ COMMA :: b -> has_char DOT a = false ->
  normalize_amount value
  = if (List.length b <=? 2)%nat
    then float_of_str (replace COMMA [DOT] a ++ DOT :: b)
    else float_of_str (replace COMMA [] a ++ b).
Proof.
  intros [Hbc Hbd] Hv Ha.
  rewrite normalize_amount_unfold by (rewrite Hv; destruct a; discriminate).
  rewrite Hv. unfold resolve_separators.
  rewrite !has_char_app, !has_char_cons, Ha, Hbd, N.eqb_refl.
  change (DOT =? COMMA)%N with false. cbn [andb orb negb].
  rewrite orb_true_r. cbn [andb].
  rewrite (split_last COMMA a b Hbc).
  destruct (List.length b <=? 2)%nat.
  - rewrite replace_app, replace_hit, (replace_absent COMMA [DOT] b Hbc).
    reflexivity.
  - rewrite replace_app, replace_hit, (replace_absent COMMA [] b Hbc).
    reflexivity.
Qed.

(** Digit strings. *)
Lemma digit_cases (c : char) :
  is_digit c = true ->
  (c = 48 \/ c = 49 \/ c = 50 \/ c = 51 \/ c = 52 \/ c = 53 \/ c = 54
   \/ c = 55 \/ c = 56 \/ c = 57)%N.
Proof.
  unfold is_digit, in_range. intros H. apply andb_true_iff in H.
  destruct H as [Hlo Hhi]. apply N.leb_le in Hlo, Hhi. lia.
Qed.

Lemma digit_plain (c : char) :
  is_digit c = true ->
  currency_or_space c = false /\ (c =? COMMA)%N = false
  /\ (c =? DOT)%N = false /\ (c =? 45)%N = false /\ (c =? 43)%N = false.
Proof.
  intros H. apply digit_cases in H.
  repeat (destruct H as [-> | H]; [repeat split; reflexivity |]).
  subst c. repeat split; reflexivity.
Qed.

Lemma digits_app (a b : str) : digits a -> digits b -> digits (a ++ b).
Proof. intros Ha Hb. apply Forall_app. split; assumption. Qed.

Lemma digits_forallb (s : str) : digits s -> forallb is_digit s = true.
Proof.
  intros H. apply forallb_forall. intros c Hc.
  unfold digits in H. rewrite Forall_forall in H. apply H. exact Hc.
Qed.

Lemma digits_no_char (c : char) (s : str) :
  is_digit c = false -> digits s -> has_char c s = false.
Proof.
  intros Hc H. induction H as [| x s Hx _ IH]; [reflexivity |].
  rewrite has_char_cons, IH, orb_false_r.
  destruct (c =? x)%N eqn:E; [| reflexivity].
  apply N.eqb_eq in E. subst x. rewrite Hx in Hc. discriminate Hc.
Qed.

Lemma digits_no_separator (s : str) : digits s -> no_separator s.
Proof.
  intros H.
  split; apply digits_no_char; [reflexivity | | reflexivity |]; exact H.
Qed.

Lemma plain_not_space (c : char) :
  currency_or_space c = false -> is_space c = false.
Proof.
  unfold currency_or_space. intros H.
  repeat (apply orb_false_iff in H; destruct H as [H ?]). assumption.
Qed.

Lemma lstrip_plain (s : str) : plain s -> lstrip s = s.
Proof.
  intros H. destruct H as [| c s Hc _]; [reflexivity |].
  cbn [lstrip]. rewrite (plain_not_space c Hc). reflexivity.
Qed.

Lemma strip_currency_plain (s : str) : plain s -> strip_currency s = s.
Proof.
  intros H. unfold strip_currency, strip.
  rewrite (lstrip_plain s H).
  rewrite lstrip_plain by (apply Forall_rev; exact H).
  rewrite rev_involutive.
  apply forallb_filter_id. apply forallb_forall. intros c Hc.
  unfold plain in H. rewrite Forall_forall in H.
  rewrite (H c Hc). reflexivity.
Qed.

Lemma digits_plain (s : str) : digits s -> plain s.
Proof.
  intros H. unfold plain, digits in *. rewrite Forall_forall in *.
  intros c Hc. apply digit_plain, H, Hc.
Qed.

Lemma plain_sep (a b : str) (sep : char) :
  plain a -> plain b -> currency_or_space sep = false ->
  plain (a ++ sep :: b).
Proof.
  intros Ha Hb Hs. apply Forall_app. split; [exact Ha |].
  constructor; assumption.
Qed.

Lemma cut_dot_digits (ip rest : str) :
  digits ip -> cut_dot (ip ++ DOT :: rest) = (ip, Some rest).
Proof.
  intros H. induction H as [| c ip Hc _ IH]; [reflexivity |].
  cbn [app cut_dot]. destruct (digit_plain c Hc) as (_ & _ & Hd & _).
  unfold DOT in Hd. rewrite Hd, IH. reflexivity.
Qed.

Lemma cut_dot_no_dot (s : str) : digits s -> cut_dot s = (s, None).
Proof.
  intros H. induction H as [| c s Hc _ IH]; [reflexivity |].
  cbn [cut_dot]. destruct (digit_plain c Hc) as (_ & _ & Hd & _).
  unfold DOT in Hd. rewrite Hd, IH. reflexivity.
Qed.

Lemma float_of_str_unsigned (s : str) (c : char) :
  is_digit c = true -> float_of_str (c :: s) = float_of_unsigned (c :: s).
Proof.
  intros Hc. unfold float_of_str.
  destruct (digit_plain c Hc) as (_ & _ & _ & Hm & Hp).
  rewrite Hm, Hp. reflexivity.
Qed.

Lemma float_of_str_decimal (ip fp : str) :
  digits ip -> digits fp -> ip <> [] ->
  float_of_str (ip ++ DOT :: fp) = Some (decimal ip fp).
Proof.
  intros Hi Hf Hne. destruct ip as [| c ip']; [contradiction |].
  change ((c :: ip') ++ DOT :: fp) with (c :: (ip' ++ DOT :: fp)).
  rewrite float_of_str_unsigned by (inversion Hi; assumption).
  change (c :: (ip' ++ DOT :: fp)) with ((c :: ip') ++ DOT :: fp).
  unfold float_of_unsigned. rewrite (cut_dot_digits (c :: ip') fp Hi).
  rewrite (digits_forallb _ Hi), (digits_forallb _ Hf). reflexivity.
Qed.

Lemma float_of_str_integer (ip : str) :
  digits ip -> ip <> [] -> float_of_str ip = Some (decimal ip []).
Proof.
  intros Hi Hne. destruct ip as [| c ip']; [contradiction |].
  rewrite float_of_str_unsigned by (inversion Hi; assumption).
  unfold float_of_unsigned. rewrite (cut_dot_no_dot (c :: ip') Hi).
  rewrite (digits_forallb _ Hi). cbn [forallb andb List.length Nat.add].
  unfold decimal. rewrite !app_nil_r. reflexivity.
Qed.

End AmountFacts.

(** C6.  [a ++ sep :: b] is the input once currency signs, capitals and
    blanks are removed, [sep] its rightmost separator ([b] holds none).
    With both separators present, the rightmost one becomes the decimal
    point and the other kind is dropped.  With commas only, the last comma
    becomes the decimal point when at most two characters follow it, and
    the commas are dropped as thousands separators otherwise.  On digit
    groups [ip], [mid], [fp] the value is the number written
    [ip mid . fp] for both "ip.mid,fp" and "ip,mid.fp"; "ip,fp" is the
    number [ip . fp] when [fp] has at most two digits and the integer
    [ip fp] otherwise.  The four amounts of the specification come out as
    1200.50, 1200.50, 100.50 and 1200.0. *)
Theorem normalize_amount_separators :
  forall (value a b : str),
    no_separator b ->
    (strip_currency value = a ++ COMMA :: b -> has_char DOT a = true ->
     normalize_amount value
     = float_of_str (replace COMMA [DOT] (replace DOT [] a) ++ DOT :: b))
    /\
    (strip_currency value = a ++ DOT :: b -> has_char COMMA a = true ->
     normalize_amount value = float_of_str (replace COMMA [] a ++ DOT :: b))
    /\
    (strip_currency value = a ++ COMMA :: b -> has_char DOT a = false ->
     normalize_amount value
     = if (List.length b <=? 2)%nat
       then float_of_str (replace COMMA [DOT] a ++ DOT :: b)
       else float_of_str (replace COMMA [] a ++ b))
    /\
    (forall ip mid fp : str,
        digits ip -> digits mid -> digits fp -> ip <> [] ->
        normalize_amount (ip ++ DOT :: mid ++ COMMA :: fp)
        = Some (decimal (ip ++ mid) fp)
        /\ normalize_amount (ip ++ COMMA :: mid ++ DOT :: fp)
           = Some (decimal (ip ++ mid) fp)
        /\ normalize_amount (ip ++ COMMA :: fp)
           = if (List.length fp <=? 2)%nat
             then Some (decimal ip fp)
             else Some (decimal (ip ++ fp) []))
    /\
    (float_is (normalize_amount (py "1.200,50")) 1200.50
     /\ float_is (normalize_amount (py "1,200.50")) 1200.50
     /\ float_is (normalize_amount (py "100,50")) 100.50
     /\ float_is (normalize_amount (py "1,200")) 1200.0).
Proof.
  intros value a b Hb.
  split; [| split; [| split; [| split]]].
  - apply normalize_amount_comma_last. exact Hb.
  - apply normalize_amount_dot_last. exact Hb.
  - apply normalize_amount_comma_only. exact Hb.
  - intros ip mid fp Hi Hm Hf Hne.
    pose proof (digits_no_separator ip Hi) as [Hic Hid].
    pose proof (digits_no_separator mid Hm) as [Hmc Hmd].
    pose proof (digits_no_separator fp Hf) as Hfs.
    assert (Hne' : ip ++ mid <> [])
      by (destruct ip; [contradiction | discriminate]).
    split; [| split].
    + rewrite (normalize_amount_comma_last
                 (ip ++ DOT :: mid ++ COMMA :: fp) (ip ++ DOT :: mid) fp Hfs).
      * rewrite (replace_app DOT), replace_hit.
        rewrite (replace_absent DOT [] ip Hid),
          (replace_absent DOT [] mid Hmd).
        cbn [app].
        rewrite (replace_absent COMMA [DOT] (ip ++ mid))
          by (rewrite has_char_app, Hic, Hmc; reflexivity).
        apply float_of_str_decimal;
          [apply digits_app; assumption | exact Hf | exact Hne'].
      * rewrite strip_currency_plain; [rewrite <- app_assoc; reflexivity |].
        apply plain_sep; [apply digits_plain; exact Hi | | reflexivity].
        apply plain_sep;
          [apply digits_plain; exact Hm | apply digits_plain; exact Hf
          | reflexivity].
      * rewrite has_char_app, has_char_cons, N.eqb_refl.
        apply orb_true_r.
    + rewrite (normalize_amount_dot_last
                 (ip ++ COMMA :: mid ++ DOT :: fp) (ip ++ COMMA :: mid) fp Hfs).
      * rewrite (replace_app COMMA), replace_hit.
        rewrite (replace_absent COMMA [] ip Hic),
          (replace_absent COMMA [] mid Hmc).
        cbn [app].
        apply float_of_str_decimal;
          [apply digits_app; assumption | exact Hf | exact Hne'].
      * rewrite strip_currency_plain; [rewrite <- app_assoc; reflexivity |].
        apply plain_sep; [apply digits_plain; exact Hi | | reflexivity].
        apply plain_sep;
          [apply digits_plain; exact Hm | apply digits_plain; exact Hf
          | reflexivity].
      * rewrite has_char_app, has_char_cons, N.eqb_refl.
        apply orb_true_r.
    + rewrite (normalize_amount_comma_only (ip ++ COMMA :: fp) ip fp Hfs).
      * rewrite (replace_absent COMMA [DOT] ip Hic),
          (replace_absent COMMA [] ip Hic).
        destruct (List.length fp <=? 2)%nat.
        -- apply float_of_str_decimal; assumption.
        -- apply float_of_str_integer;
             [apply digits_app; assumption
             | destruct ip; [contradiction | discriminate]].
      * apply strip_currency_plain.
        apply plain_sep;
          [apply digits_plain; exact Hi | apply digits_plain; exact Hf
          | reflexivity].
      * exact Hid.
  - repeat split; vm_compute; reflexivity.
Qed.

Lemma normalize_amount_separators_witness :
  normalize_amount (py "EUR 1.200,50")
  = float_of_str (replace COMMA [DOT] (replace DOT [] (py "1.200"))
                  ++ DOT :: py "50")
  /\ normalize_amount (py "1,200.50 $")
     = float_of_str (replace COMMA [] (py "1,200") ++ DOT :: py "50")
  /\ normalize_amount (py "100,50")
     = float_of_str (replace COMMA [DOT] (py "100") ++ DOT :: py "50")
  /\ normalize_amount (py "12" ++ COMMA :: py "345")
     = Some (decimal (py "12345") []).
Proof.
  assert (Hb : no_separator (py "50")) by (split; reflexivity).
  split; [| split; [| split]].
  - destruct (normalize_amount_separators
                (py "EUR 1.200,50") (py "1.200") (py "50") Hb)
      as (H & _).
    apply H; vm_compute; reflexivity.
  - destruct (normalize_amount_separators
                (py "1,200.50 $") (py "1,200") (py "50") Hb)
      as (_ & H & _).
    apply H; vm_compute; reflexivity.
  - destruct (normalize_amount_separators
                (py "100,50") (py "100") (py "50") Hb)
      as (_ & _ & H & _).
    apply H; vm_compute; reflexivity.
  - destruct (normalize_amount_separators
                (py "100,50") (py "100") (py "50") Hb)
      as (_ & _ & _ & H & _).
    destruct (H (py "12") [] (py "345")) as (_ & _ & H3).
    + repeat constructor.
    + constructor.
    + repeat constructor.
    + discriminate.
    + exact H3.
Defined.

(** ** Language detection *)

Import dictionaries.

(** C10.  When the French and the English keyword counts are equal and
    not zero, the answer is "fr": the entry for "fr" comes first in the
    score map and [max] keeps the first of the greatest entries. *)
Theorem detect_language_tie_gives_fr :
  forall (nfd : str -> str) (is_Mn : char -> bool) (text : str),
    hits french_keywords (normalized nfd is_Mn text)
    = hits english_keywords (normalized nfd is_Mn text) ->
    (0 < hits french_keywords (normalized nfd is_Mn text))%nat ->
    detect_language nfd is_Mn text = "fr"%string.
Proof.
  intros nfd is_Mn text Htie Hpos.
  unfold detect_language, scores, max_by. cbn [fold_left snd].
  rewrite <- Htie, Nat.ltb_irrefl.
  apply Nat.ltb_lt in Hpos. rewrite Hpos. reflexivity.
Qed.

Lemma detect_language_tie_gives_fr_witness :
  detect_language (fun s => s) combining_mark (py "FACTURE / Invoice 42")
  = "fr"%string.
Proof.
  apply (detect_language_tie_gives_fr
           (fun s => s) combining_mark (py "FACTURE / Invoice 42")).
  - reflexivity.
  - vm_compute. lia.
Defined.

(** ** Spatial structuring *)

Import ocr_to_structured_json.

Section ChainFacts.
Context {A : Type}.
Variable R : A -> A -> Prop.

Lemma last_opt_snoc (l : list A) (x : A) : last_opt (l ++ [x]) = Some x.
Proof.
  induction l as [| y l IH]; [reflexivity |].
  cbn [app last_opt]. destruct (l ++ [x]) eqn:E.
  - destruct l; discriminate E.
  - exact IH.
Qed.

Lemma last_opt_last (l : list A) (x d : A) :
  last_opt l = Some x -> last l d = x.
Proof.
  induction l as [| y l IH]; intros H; [discriminate |].
  destruct l as [| z l'].
  - injection H as ->. reflexivity.
  - change (last (y :: z :: l') d) with (last (z :: l') d). apply IH. exact H.
Qed.

Lemma last_opt_some (l : list A) : l <> [] -> exists x, last_opt l = Some x.
Proof.
  induction l as [| y l IH]; intros H; [contradiction |].
  destruct l as [| z l'].
  - exists y. reflexivity.
  - apply IH. discriminate.
Qed.

Lemma chain_cons (x y : A) (l : list A) :
  chain R (x :: y :: l) <-> R x y /\ chain R (y :: l).
Proof. reflexivity. Qed.

Lemma chain_app (l1 l2 : list A) :
  chain R (l1 ++ l2) <->
  chain R l1 /\ chain R l2 /\
  (forall x y, last_opt l1 = Some x -> hd_error l2 = Some y -> R x y).
Proof.
  induction l1 as [| a l1 IH].
  - change ([] ++ l2) with l2. split.
    + intros H. split; [exact I |]. split; [exact H |]. discriminate.
    + intros (_ & H & _). exact H.
  - destruct l1 as [| b l1'].
    + change ([a] ++ l2) with (a :: l2). destruct l2 as [| c l2'].
      * split; [intros _ | intros _; exact (conj I I)].
        split; [exact (conj I I) |]. split; [exact I |]. discriminate.
      * rewrite chain_cons. split.
        -- intros [Hac Hc]. split; [exact (conj I I) |].
           split; [exact Hc |].
           intros x y Hx Hy. injection Hx as <-. injection Hy as <-.
           exact Hac.
        -- intros (_ & Hc & Hl). split; [apply Hl; reflexivity | exact Hc].
    + change ((a :: b :: l1') ++ l2) with (a :: b :: (l1' ++ l2)).
      rewrite chain_cons.
      change (b :: l1' ++ l2) with ((b :: l1') ++ l2).
      rewrite IH, chain_cons.
      change (last_opt (a :: b :: l1')) with (last_opt (b :: l1')).
      tauto.
Qed.

End ChainFacts.

Section SortFacts.
Context {A : Type}.
Variable key : A -> Q.

Let le_key (a b : A) : Prop := (key a <= key b)%Q.

Lemma insert_by_perm (x : A) (l : list A) :
  Permutation (x :: l) (insert_by key x l).
Proof.
  induction l as [| y l IH]; cbn [insert_by].
  - apply Permutation_refl.
  - destruct (Qle_bool (key x) (key y)).
    + apply Permutation_refl.
    + apply perm_trans with (y :: x :: l); [apply perm_swap |].
      apply perm_skip. exact IH.
Qed.

Lemma sorted_perm (l : list A) : Permutation l (sorted key l).
Proof.
  induction l as [| x l IH]; cbn [sorted fold_right].
  - apply perm_nil.
  - apply perm_trans with (x :: sorted key l).
    + apply perm_skip. exact IH.
    + apply insert_by_perm.
Qed.

Lemma insert_by_sorted (x : A) (l : list A) :
  StronglySorted le_key l -> StronglySorted le_key (insert_by key x l).
Proof.
  induction l as [| y l IH]; intros Hs; cbn [insert_by].
  - constructor; constructor.
  - inversion Hs as [| ? ? Hl Hy]; subst.
    destruct (Qle_bool (key x) (key y)) eqn:E.
    + apply Qle_bool_iff in E. constructor; [exact Hs |].
      constructor; [exact E |].
      rewrite Forall_forall in *. intros z Hz.
      unfold le_key. apply Qle_trans with (key y); [exact E | apply Hy, Hz].
    + assert (Hyx : le_key y x).
      { unfold le_key. destruct (Qlt_le_dec (key y) (key x)) as [H | H].
        - apply Qlt_le_weak. exact H.
        - apply Qle_bool_iff in H. rewrite H in E. discriminate E. }
      constructor; [apply IH; exact Hl |].
      apply (Permutation_Forall (insert_by_perm x l)).
      constructor; assumption.
Qed.

Lemma sorted_sorted (l : list A) : StronglySorted le_key (sorted key l).
Proof.
  induction l as [| x l IH]; cbn [sorted fold_right].
  - constructor.
  - apply insert_by_sorted. exact IH.
Qed.

(** The sort is stable: the elements of any one key keep their order. *)
Lemma insert_by_filter (k : Q) (x : A) (l : list A) :
  filter (fun y => Qeq_bool (key y) k) (insert_by key x l)
  = filter (fun y => Qeq_bool (key y) k) (x :: l).
Proof.
  induction l as [| y l IH]; [reflexivity |].
  cbn [insert_by]. destruct (Qle_bool (key x) (key y)) eqn:E; [reflexivity |].
  cbn [filter] in *. rewrite IH.
  destruct (Qeq_bool (key x) k) eqn:Ex; [| reflexivity].
  destruct (Qeq_bool (key y) k) eqn:Ey; [| reflexivity].
  apply Qeq_bool_iff in Ex, Ey.
  assert (Hle : (key x <= key y)%Q) by (rewrite Ex, Ey; apply Qle_refl).
  apply Qle_bool_iff in Hle. rewrite Hle in E. discriminate E.
Qed.

Lemma sorted_stable (k : Q) (l : list A) :
  filter (fun y => Qeq_bool (key y) k) (sorted key l)
  = filter (fun y => Qeq_bool (key y) k) l.
Proof.
  induction l as [| x l IH]; [reflexivity |].
  cbn [sorted fold_right]. rewrite insert_by_filter.
  cbn [filter]. fold (sorted key l). rewrite IH. reflexivity.
Qed.

End SortFacts.

Section GroupFacts.
Variable y_gap : Q.

Lemma loop_inv_start : loop_inv y_gap [] ([], []).
Proof.
  unfold loop_inv. split; [reflexivity |]. split; [constructor |].
  split; [reflexivity |]. split; [constructor |].
  split; [exact I | exact (conj I I)].
Qed.

Lemma loop_inv_step (done : list line) (st : list (list line) * list line)
      (ln : line) :
  loop_inv y_gap done st -> loop_inv y_gap (done ++ [ln]) (step y_gap st ln).
Proof.
  destruct st as [blocks current].
  intros (Hcat & Hne & Hfirst & Hjb & Hjc & Hap).
  unfold step. destruct current as [| c cs].
  - rewrite (Hfirst eq_refl) in *. cbn in Hcat. subst done.
    unfold loop_inv. split; [reflexivity |]. split; [constructor |].
    split; [discriminate |]. split; [constructor |].
    split; exact (conj I I).
  - set (current := c :: cs) in *.
    assert (Hprev : last_opt current = Some (last current ln)).
    { destruct (last_opt_some current) as [p Hp]; [discriminate |].
      rewrite Hp. f_equal. symmetry. apply last_opt_last. exact Hp. }
    apply chain_app in Hap. destruct Hap as (Hab & _ & Hlink).
    destruct (Qlt_le_dec (top ln - bottom (last current ln)) y_gap)
      as [Hlt | Hge].
    + unfold loop_inv. split; [| split; [| split; [| split; [| split]]]].
      * rewrite app_assoc, Hcat. reflexivity.
      * exact Hne.
      * intros E. destruct current; discriminate E.
      * exact Hjb.
      * apply chain_app. split; [exact Hjc |]. split; [exact (conj I I) |].
        intros x y Hx Hy. rewrite Hprev in Hx.
        injection Hx as <-. injection Hy as <-. exact Hlt.
      * apply chain_app. split; [exact Hab |]. split; [exact (conj I I) |].
        intros b b' Hb Hb'. injection Hb' as <-.
        intros prev l Hp Hl. apply (Hlink b current Hb eq_refl prev l Hp).
        exact Hl.
    + unfold loop_inv. split; [| split; [| split; [| split; [| split]]]].
      * rewrite concat_app. cbn [List.concat]. rewrite app_nil_r, Hcat.
        reflexivity.
      * apply Forall_app. split; [exact Hne |].
        constructor; [discriminate | constructor].
      * discriminate.
      * apply Forall_app. split; [exact Hjb |].
        constructor; [exact Hjc | constructor].
      * exact (conj I I).
      * apply chain_app. split; [| split].
        -- apply chain_app. split; [exact Hab |].
           split; [exact (conj I I) | exact Hlink].
        -- exact (conj I I).
        -- intros b b' Hb Hb'. rewrite last_opt_snoc in Hb.
           injection Hb as <-. injection Hb' as <-.
           intros prev l Hp Hl. rewrite Hprev in Hp.
           injection Hp as <-. injection Hl as <-. exact Hge.
Qed.

Lemma loop_inv_fold (ls done : list line)
      (st : list (list line) * list line) :
  loop_inv y_gap done st ->
  loop_inv y_gap (done ++ ls) (fold_left (step y_gap) ls st).
Proof.
  revert done st. induction ls as [| ln ls IH]; intros done st H.
  - rewrite app_nil_r. exact H.
  - cbn [fold_left].
    replace (done ++ ln :: ls) with ((done ++ [ln]) ++ ls)
      by (rewrite <- app_assoc; reflexivity).
    apply IH, loop_inv_step, H.
Qed.

Lemma close_blocks_facts (done : list line)
      (st : list (list line) * list line) :
  loop_inv y_gap done st ->
  List.concat (close_blocks st) = done
  /\ Forall (fun b => b <> []) (close_blocks st)
  /\ Forall (chain (joined y_gap)) (close_blocks st)
  /\ chain (apart y_gap) (close_blocks st).
Proof.
  destruct st as [blocks current].
  intros (Hcat & Hne & Hfirst & Hjb & Hjc & Hap).
  unfold close_blocks. destruct current as [| c cs].
  - rewrite (Hfirst eq_refl) in *. cbn in Hcat. subst done.
    cbn. split; [reflexivity |]. split; [constructor |].
    split; [constructor | exact I].
  - split; [| split; [| split]].
    + rewrite concat_app. cbn [List.concat]. rewrite app_nil_r. exact Hcat.
    + apply Forall_app. split; [exact Hne |].
      constructor; [discriminate | constructor].
    + apply Forall_app. split; [exact Hjb |].
      constructor; [exact Hjc | constructor].
    + exact Hap.
Qed.

Lemma group_lines_into_blocks_close (lines : list line) :
  group_lines_into_blocks lines y_gap
  = close_blocks (fold_left (step y_gap) (sorted top lines) ([], [])).
Proof.
  unfold group_lines_into_blocks, close_blocks.
  destruct (fold_left (step y_gap) (sorted top lines) ([], [])).
  reflexivity.
Qed.

Lemma group_lines_into_blocks_facts (lines : list line) :
  List.concat (group_lines_into_blocks lines y_gap) = sorted top lines
  /\ Forall (fun b => b <> []) (group_lines_into_blocks lines y_gap)
  /\ Forall (chain (joined y_gap)) (group_lines_into_blocks lines y_gap)
  /\ chain (apart y_gap) (group_lines_into_blocks lines y_gap).
Proof.
  rewrite group_lines_into_blocks_close.
  apply close_blocks_facts.
  apply (loop_inv_fold (sorted top lines) [] ([], [])), loop_inv_start.
Qed.

End GroupFacts.

(** C7.  The blocks, read in order, are the lines sorted by ascending top;
    no block is empty; inside a block each line begins less than [y_gap]
    below the bottom of the line before it; the first line of a block
    begins at least [y_gap] below the bottom of the last line of the block
    before.  One round of the loop appends the line to the open block when
    the gap is below [y_gap], and otherwise closes the block and opens a new
    one with the line.  With the default threshold 40, lines of tops 10 and
    20 (bottoms 30) share a block and a line of top 100 opens the next. *)
Theorem group_lines_into_blocks_by_gap :
  forall (lines : list line) (y_gap : Q),
    Permutation lines (List.concat (group_lines_into_blocks lines y_gap))
    /\ StronglySorted by_top
         (List.concat (group_lines_into_blocks lines y_gap))
    /\ Forall (fun b => b <> []) (group_lines_into_blocks lines y_gap)
    /\ Forall (chain (joined y_gap)) (group_lines_into_blocks lines y_gap)
    /\ chain (apart y_gap) (group_lines_into_blocks lines y_gap)
    /\ (forall blocks current ln,
           current <> [] ->
           step y_gap (blocks, current) ln
           = if Qlt_le_dec (gap (last current ln) ln) y_gap
             then (blocks, current ++ [ln])
             else (blocks ++ [current], [ln]))
    /\ group_lines_into_blocks [line_c; line_a; line_b] default_y_gap
       = [[line_a; line_b]; [line_c]].
Proof.
  intros lines y_gap.
  destruct (group_lines_into_blocks_facts y_gap lines)
    as (Hcat & Hne & Hj & Ha).
  split; [| split; [| split; [| split; [| split; [| split]]]]].
  - rewrite Hcat. apply sorted_perm.
  - rewrite Hcat. apply (sorted_sorted top).
  - exact Hne.
  - exact Hj.
  - exact Ha.
  - intros blocks current ln Hcur. unfold step, gap.
    destruct current; [contradiction | reflexivity].
  - reflexivity.
Qed.

Section BboxFacts.

Lemma min_from_cons (x z : Q) (xs : list Q) :
  min_from x (z :: xs) = min_from (if Qlt_le_dec z x then z else x) xs.
Proof. reflexivity. Qed.

Lemma min_from_spec (xs : list Q) (x : Q) : least (min_from x xs) (x :: xs).
Proof.
  unfold least. revert x. induction xs as [| z xs IH]; intros x.
  - split; [left; reflexivity |]. intros y [<- | []]. apply Qle_refl.
  - rewrite min_from_cons. destruct (Qlt_le_dec z x) as [Hlt | Hle].
    + destruct (IH z) as [Hin Hmin]. split.
      * right. exact Hin.
      * intros y [<- | Hy].
        -- apply Qle_trans with z; [| apply Qlt_le_weak; exact Hlt].
           apply Hmin. left. reflexivity.
        -- apply Hmin. exact Hy.
    + destruct (IH x) as [Hin Hmin]. split.
      * destruct Hin as [<- | Hin];
          [left; reflexivity | right; right; exact Hin].
      * intros y [<- | [<- | Hy]].
        -- apply Hmin. left. reflexivity.
        -- apply Qle_trans with x; [| exact Hle]. apply Hmin. left. reflexivity.
        -- apply Hmin. right. exact Hy.
Qed.

Lemma max_from_greatest (xs : list Q) (x : Q) :
  greatest (max_from x xs) (x :: xs).
Proof. exact (max_from_spec xs x). Qed.

Lemma map_snd_enumerate1 {A : Type} (l : list A) :
  map snd (enumerate1 l) = l.
Proof.
  unfold enumerate1. generalize 1%nat as start.
  induction l as [| x l IH]; intros start; [reflexivity |].
  cbn [List.length seq combine map snd]. f_equal. apply IH.
Qed.

Lemma in_enumerate1 {A : Type} (l : list A) (i : nat) (x : A) :
  In (i, x) (enumerate1 l) -> In x l.
Proof. unfold enumerate1. apply in_combine_r. Qed.

Lemma map_or_raise_all {A B : Type} (f : A -> option B) (P : B -> Prop)
      (xs : list A) :
  (forall x, In x xs -> exists y, f x = Some y /\ P y) ->
  exists ys, map_or_raise f xs = Some ys /\ Forall P ys.
Proof.
  induction xs as [| x xs IH]; intros H.
  - exists []. split; [reflexivity | constructor].
  - destruct (H x (or_introl eq_refl)) as (y & Hy & Py).
    destruct IH as (ys & Hys & Pys).
    { intros x' Hx'. apply H. right. exact Hx'. }
    exists (y :: ys). cbn [map_or_raise]. rewrite Hy, Hys.
    split; [reflexivity | constructor; assumption].
Qed.

Lemma block_lines_coord (f : box -> Q) (i : nat) (blk : list line) :
  (forall l, nth i (line_bbox l) 0%Q = f (line_box l)) ->
  map (coord i)
      (map (fun jl : nat * line =>
              let (j, l) := jl in
              BlockLine j (text l) (line_bbox l) (conf l))
           (enumerate1 blk))
  = map (fun l => f (line_box l)) blk.
Proof.
  intros Hf. rewrite map_map.
  rewrite <- (map_snd_enumerate1 blk) at 2. rewrite map_map.
  apply map_ext. intros [j l]. unfold coord. cbn [bl_bbox snd]. apply Hf.
Qed.

Lemma make_block_union (i : nat) (blk : list line) :
  blk <> [] ->
  exists b, make_block (i, blk) = Some b /\ bbox_is_union b.
Proof.
  intros Hblk. destruct blk as [| c cs]; [contradiction |].
  unfold make_block, bbox_union.
  cbn [map py_min py_max].
  eexists. split; [reflexivity |].
  unfold bbox_is_union. cbn [lines bbox]. split.
  - unfold enumerate1. cbn. discriminate.
  - do 4 eexists. split; [reflexivity |].
    rewrite (block_lines_coord bbox_left 0), (block_lines_coord bbox_top 1),
      (block_lines_coord bbox_right 2), (block_lines_coord bbox_bottom 3)
      by reflexivity.
    rewrite !map_map. cbn [map].
    split; [apply min_from_spec |]. split; [apply min_from_spec |].
    split; apply max_from_greatest.
Qed.

End BboxFacts.

(** C8.  [structure_ocr] always produces a document, and in it every
    block has lines and a bbox [left, top, right, bottom] whose left and top
    are the least left and top of the bboxes of its lines and whose right
    and bottom are their greatest right and bottom.  Lines of bboxes
    [0,0,10,10] and [5,5,20,20] form one block of bbox [0,0,20,20]. *)
Theorem block_bbox_is_union_of_lines :
  forall data : decision_json,
    (exists doc : structured,
        structure_ocr data = Some doc /\ Forall bbox_is_union (blocks doc))
    /\ bbox_union [rect 0 0 10 10; rect 5 5 20 20]
       = Some [0; 0; 20; 20]%Q
    /\ option_map (fun doc => map bbox (blocks doc))
         (structure_ocr (DecisionJson [line_p; line_q] None None))
       = Some [[0; 0; 20; 20]%Q].
Proof.
  intros data. split; [| split; reflexivity].
  unfold structure_ocr.
  destruct (group_lines_into_blocks_facts default_y_gap (data_lines data))
    as (_ & Hne & _).
  destruct (map_or_raise_all make_block bbox_is_union
              (enumerate1
                 (group_lines_into_blocks (data_lines data) default_y_gap)))
    as (bs & Hbs & Hall).
  - intros [i blk] Hin. apply make_block_union.
    apply in_enumerate1 in Hin.
    rewrite Forall_forall in Hne. apply Hne. exact Hin.
  - rewrite Hbs. eexists. split; [reflexivity | exact Hall].
Qed.

(* ================================================================== *)
(** * Further properties *)
(* ================================================================== *)

(** ** Soundness of the matcher *)

Section MatcherSoundness.
Import Re.
Context {A : Type}.
Variable Q : nat -> str -> Prop.

Lemma caps_in_app (c1 c2 : caps) :
  caps_in Q c1 -> caps_in Q c2 -> caps_in Q (c1 ++ c2).
Proof. intros H1 H2. apply Forall_app. split; assumption. Qed.

Lemma consumed_prefix (w s' : str) : consumed (w ++ s') s' = w.
Proof.
  unfold consumed. rewrite length_app.
  replace (List.length w + List.length s' - List.length s')%nat
    with (List.length w) by lia.
  rewrite firstn_app, firstn_all, Nat.sub_diag. cbn. apply app_nil_r.
Qed.

Lemma rep_loop_sound (a : regex) (body : matcher A)
      (k : str -> caps -> option A) :
  sound_matcher Q (matches a) body ->
  forall fuel lo hi s c v,
    rep_loop body k fuel lo hi s c = Some v ->
    exists ws s' new,
      s = List.concat ws ++ s' /\ Forall (matches a) ws
      /\ (lo <= List.length ws)%nat
      /\ match hi with
         | Some h => (List.length ws <= h)%nat
         | None => True
         end
      /\ caps_in Q new /\ k s' (new ++ c) = Some v.
Proof.
  intros Hbody.
  assert (Hstop : forall lo hi s c v,
             match lo with O => k s c | S _ => None end = Some v ->
             exists ws s' new,
               s = List.concat ws ++ s' /\ Forall (matches a) ws
               /\ (lo <= List.length ws)%nat
               /\ match hi with
                  | Some h => (List.length ws <= h)%nat
                  | None => True
                  end
               /\ caps_in Q new /\ k s' (new ++ c) = Some v).
  { intros lo hi s c v H. destruct lo; [| discriminate H].
    exists [], s, []. cbn.
    split; [reflexivity |]. split; [constructor |]. split; [lia |].
    split; [destruct hi; [lia | exact I] |].
    split; [constructor | exact H]. }
  induction fuel as [| fuel IH]; intros lo hi s c v H.
  - cbn [rep_loop] in H. apply Hstop. exact H.
  - cbn [rep_loop] in H.
    destruct (match hi with Some O => false | _ => true end) eqn:Emore;
      [| apply Hstop; exact H].
    destruct (body s c _) as [v' |] eqn:Ebody; [| apply Hstop; exact H].
    injection H as ->.
    apply Hbody in Ebody.
    destruct Ebody as (w & s1 & new1 & -> & Hw & Hq1 & Hk).
    destruct (List.length s1 <? List.length (w ++ s1))%nat; [| discriminate Hk].
    apply IH in Hk.
    destruct Hk as (ws & s' & new & -> & Hws & Hlo & Hhi & Hq & Hk).
    exists (w :: ws), s', (new ++ new1).
    split; [cbn [List.concat]; rewrite app_assoc; reflexivity |].
    split; [constructor; assumption |].
    split; [cbn [List.length]; lia |].
    split.
    + destruct hi as [[| h] |]; cbn in *; [discriminate Emore | lia | exact I].
    + split; [apply caps_in_app; assumption |].
      rewrite <- app_assoc. exact Hk.
Qed.

Lemma run_sound (r : regex) :
  captures_in Q r -> sound_matcher Q (matches r) (run (A := A) r).
Proof.
  induction r as [| f | a IHa b IHb | a IHa b IHb | lo hi a IHa | i a IHa];
    intros Hcap s c k v H; cbn [run] in H.
  - exists [], s, []. cbn. repeat split; [constructor | exact H].
  - destruct s as [| x s']; [discriminate H |].
    destruct (f x) eqn:Ef; [| discriminate H].
    exists [x], s', []. cbn.
    split; [reflexivity |]. split; [exists x; auto |].
    split; [constructor | exact H].
  - destruct Hcap as [Ha Hb].
    apply (IHa Ha) in H. destruct H as (w1 & s1 & new1 & -> & Hw1 & Hq1 & H).
    apply (IHb Hb) in H. destruct H as (w2 & s2 & new2 & -> & Hw2 & Hq2 & H).
    exists (w1 ++ w2), s2, (new2 ++ new1).
    split; [rewrite app_assoc; reflexivity |].
    split; [exists w1, w2; auto |].
    split; [apply caps_in_app; assumption |].
    rewrite <- app_assoc. exact H.
  - destruct Hcap as [Ha Hb].
    destruct (run a s c k) as [v' |] eqn:Ea.
    + injection H as ->. apply (IHa Ha) in Ea.
      destruct Ea as (w & s' & new & -> & Hw & Hq & Hk).
      exists w, s', new. cbn [matches]. auto.
    + apply (IHb Hb) in H.
      destruct H as (w & s' & new & -> & Hw & Hq & Hk).
      exists w, s', new. cbn [matches]. auto.
  - cbn [captures_in] in Hcap.
    apply (rep_loop_sound a (run a) k (IHa Hcap)) in H.
    destruct H as (ws & s' & new & -> & Hws & Hlo & Hhi & Hq & Hk).
    exists (List.concat ws), s', new.
    split; [reflexivity |].
    split; [exists ws; auto |]. auto.
  - destruct Hcap as [Hi Ha].
    apply (IHa Ha) in H. destruct H as (w & s' & new & -> & Hw & Hq & Hk).
    rewrite consumed_prefix in Hk.
    exists w, s', ((i, w) :: new).
    split; [reflexivity |]. split; [exact Hw |].
    split; [constructor; [apply Hi; exact Hw | exact Hq] | exact Hk].
Qed.

End MatcherSoundness.

Section MatchFacts.
Import Re.
Variable Q : nat -> str -> Prop.

Lemma match_at_sound (r : regex) (s s' : str) (c : caps) :
  captures_in Q r ->
  match_at r s = Some (s', c) ->
  exists w, s = w ++ s' /\ matches r w /\ caps_in Q c.
Proof.
  intros Hcap H. unfold match_at in H.
  apply (run_sound Q r Hcap) in H.
  destruct H as (w & s1 & new & -> & Hw & Hq & H).
  injection H as <- <-. rewrite app_nil_r. exists w. auto.
Qed.

Lemma group_in (i : nat) (c : caps) (w : str) :
  caps_in Q c -> group i c = Some w -> Q i w.
Proof.
  intros Hc. induction Hc as [| [j x] c Hx _ IH]; cbn [group]; [discriminate |].
  destruct (Nat.eqb i j) eqn:E.
  - apply Nat.eqb_eq in E. subst j. intros H. injection H as <-. exact Hx.
  - exact IH.
Qed.

(** [search] answers with a match at some place of the text, [findall]
    with matches only. *)
Lemma search_sound (r : regex) (s : str) (c : caps) :
  search r s = Some c ->
  exists pre s0 s', s = pre ++ s0 /\ match_at r s0 = Some (s', c).
Proof.
  induction s as [| x s IH]; cbn [search].
  - destruct (match_at r []) as [[s' c'] |] eqn:E; [| discriminate].
    intros H. injection H as <-. exists [], [], s'. auto.
  - destruct (match_at r (x :: s)) as [[s' c'] |] eqn:E.
    + intros H. injection H as <-. exists [], (x :: s), s'. auto.
    + intros H. apply IH in H. destruct H as (pre & s0 & s' & -> & H).
      exists (x :: pre), s0, s'. auto.
Qed.

Lemma findall_aux_sound (r : regex) (fuel : nat) (s : str) (c : caps) :
  In c (findall_aux fuel r s) ->
  exists pre s0 s', s = pre ++ s0 /\ match_at r s0 = Some (s', c).
Proof.
  revert s. induction fuel as [| fuel IH]; intros s; cbn [findall_aux];
    [intros [] |].
  assert (Htail : forall x t, s = x :: t -> In c (findall_aux fuel r t) ->
            exists pre s0 s', s = pre ++ s0 /\ match_at r s0 = Some (s', c)).
  { intros x t -> H. apply IH in H. destruct H as (pre & s0 & s' & -> & H).
    exists (x :: pre), s0, s'. auto. }
  destruct (match_at r s) as [[s1 c1] |] eqn:E.
  - intros [<- | H]; [exists [], s, s1; auto |].
    destruct (List.length s1 <? List.length s)%nat.
    + pose proof E as E'. unfold match_at in E'.
      apply (run_sound (fun _ _ => True) r) in E'.
      * destruct E' as (w & s2 & new & -> & _ & _ & E').
        injection E' as <- _.
        apply IH in H. destruct H as (pre & s0 & s' & -> & H).
        exists (w ++ pre), s0, s'. rewrite app_assoc. auto.
      * clear. induction r; cbn; auto.
    + destruct s as [| x t]; [destruct H |]. apply (Htail x t eq_refl H).
  - destruct s as [| x t]; [intros [] |]. apply (Htail x t eq_refl).
Qed.

Lemma findall_sound (r : regex) (s : str) (c : caps) :
  In c (findall r s) ->
  exists pre s0 s', s = pre ++ s0 /\ match_at r s0 = Some (s', c).
Proof. apply findall_aux_sound. Qed.

End MatchFacts.

Section WordFacts.
Import Re.

Lemma matches_alphabet (P : char -> Prop) (r : regex) :
  classes_in P r -> forall w, matches r w -> Forall P w.
Proof.
  induction r as [| f | a IHa b IHb | a IHa b IHb | lo hi a IHa | i a IHa];
    intros Hc w Hw; cbn [matches classes_in] in *.
  - subst w. constructor.
  - destruct Hw as (x & -> & Hx). constructor; [apply Hc, Hx | constructor].
  - destruct Hc as [Ha Hb]. destruct Hw as (w1 & w2 & -> & H1 & H2).
    apply Forall_app. split; [apply IHa | apply IHb]; assumption.
  - destruct Hc as [Ha Hb]. destruct Hw as [Hw | Hw];
      [apply IHa | apply IHb]; assumption.
  - destruct Hw as (ws & -> & Hws & _).
    induction Hws as [| w ws Hw _ IH]; [constructor |].
    cbn [List.concat]. apply Forall_app.
    split; [apply IHa; assumption | exact IH].
  - apply IHa; assumption.
Qed.

(** A bounded repetition of one character class: a word of that many
    characters of the class. *)
Lemma matches_rep_cls (f : char -> bool) (lo hi : nat) (w : str) :
  matches (rep lo hi (Cls f)) w ->
  (lo <= List.length w <= hi)%nat /\ Forall (fun c => f c = true) w.
Proof.
  cbn [rep matches]. intros (ws & -> & Hws & Hlo & Hhi).
  assert (H : List.length (List.concat ws) = List.length ws
              /\ Forall (fun c => f c = true) (List.concat ws)).
  { clear Hlo Hhi. induction Hws as [| w ws (x & -> & Hx) _ [IHl IHf]].
    - split; constructor.
    - cbn. split; [f_equal; exact IHl | constructor; assumption]. }
  destruct H as [Hl Hf]. rewrite Hl. auto.
Qed.

Lemma amount_body_classes : classes_in amount_char AMOUNT_BODY.
Proof.
  unfold AMOUNT_BODY, amount_char, rep, star, digit. cbn [classes_in].
  repeat split; intros x Hx; auto;
    repeat (apply orb_true_iff in Hx; destruct Hx as [Hx | Hx]);
    apply N.eqb_eq in Hx; subst x; auto.
Qed.

Lemma amount_re_captures : captures_in amount_group AMOUNT_RE.
Proof.
  unfold AMOUNT_RE, amount_group, rep, star, opt, chr, digit, space.
  cbn [captures_in lit_i py map list_ascii_of_string].
  repeat split; try discriminate.
  intros w Hw _. exact Hw.
Qed.

(** An amount has a digit first and a comma or a dot before its last two
    digits. *)
Lemma amount_body_shape (w : str) :
  matches AMOUNT_BODY w ->
  exists d u sep y z,
    w = d :: u ++ [sep; y; z] /\ is_digit d = true
    /\ (sep = DOT \/ sep = COMMA).
Proof.
  unfold AMOUNT_BODY. cbn [matches].
  intros (w1 & w' & -> & H1 & w2 & w3 & -> & _ & w4 & w5 & -> & H4 & H5).
  apply matches_rep_cls in H1. destruct H1 as [[Hl1 _] Hd1].
  apply matches_rep_cls in H5. destruct H5 as [[Hl5 Hl5'] _].
  destruct H4 as (sep & -> & Hsep).
  destruct w1 as [| d w1]; [cbn in Hl1; lia |].
  destruct w5 as [| y [| z [| ? ?]]]; cbn in Hl5, Hl5'; try lia.
  inversion Hd1 as [| ? ? Hd _]; subst.
  exists d, (w1 ++ w2), sep, y, z.
  split; [| split].
  - cbn [app]. rewrite <- !app_assoc. reflexivity.
  - exact Hd.
  - apply orb_true_iff in Hsep.
    destruct Hsep as [H | H]; apply N.eqb_eq in H; subst; auto.
Qed.

End WordFacts.

(** ** Total extraction, continued *)

Section TotalFacts.

Lemma amount_match_word (s s' : str) (c : Re.caps) :
  Re.match_at AMOUNT_RE s = Some (s', c) ->
  caps_in amount_group c
  /\ exists d u sep y z rest,
       s = d :: u ++ sep :: y :: z :: rest /\ is_digit d = true
       /\ (sep = DOT \/ sep = COMMA).
Proof.
  intros H.
  apply (match_at_sound amount_group AMOUNT_RE s s' c amount_re_captures) in H.
  destruct H as (w & -> & Hw & Hc). split; [exact Hc |].
  unfold AMOUNT_RE in Hw. cbn [matches] in Hw.
  destruct Hw as (w1 & w2 & -> & H1 & _).
  apply amount_body_shape in H1.
  destruct H1 as (d & u & sep & y & z & -> & Hd & Hsep).
  exists d, u, sep, y, z, (w2 ++ s').
  split; [| auto]. cbn [app]. rewrite <- !app_assoc. reflexivity.
Qed.

Lemma group1_alphabet (c : Re.caps) :
  caps_in amount_group c -> Forall amount_char (group1 c).
Proof.
  intros Hc. unfold group1.
  destruct (Re.group 1 c) as [w |] eqn:E; [| constructor].
  apply (group_in amount_group 1 c w Hc) in E.
  apply (matches_alphabet amount_char AMOUNT_BODY amount_body_classes).
  apply E. reflexivity.
Qed.

Lemma replace_Forall (P Q : char -> Prop) (old : char) (new s : str) :
  (forall x, Q x -> x <> old -> P x) -> Forall P new -> Forall Q s ->
  Forall P (replace old new s).
Proof.
  intros HQP Hnew Hs. unfold replace.
  induction Hs as [| x s Hx _ IH]; [constructor |].
  cbn [flat_map]. apply Forall_app. split; [| exact IH].
  destruct (x =? old)%N eqn:E; [exact Hnew |].
  apply N.eqb_neq in E. constructor; [apply HQP; assumption | constructor].
Qed.

Lemma clean_alphabet (w : str) :
  Forall amount_char w -> Forall total_char (clean w).
Proof.
  intros Hw. unfold clean.
  apply (replace_Forall total_char
           (fun c => is_digit c = true \/ c = COMMA \/ c = DOT)).
  - intros x [H | [H | H]] Hne;
      [left; exact H | contradiction | right; exact H].
  - constructor; [right; reflexivity | constructor].
  - apply (replace_Forall _
             (fun c => is_digit c = true \/ c = NBSP \/ c = COMMA \/ c = DOT)).
    + intros x [H | [H | H]] Hne; [auto | contradiction | auto].
    + constructor.
    + apply (replace_Forall _ amount_char).
      * intros x [H | [H | H]] Hne; [auto | contradiction | auto].
      * constructor.
      * exact Hw.
Qed.

Lemma candidate_alphabet (text c : str) :
  In c (candidates text) -> Forall total_char c.
Proof.
  unfold candidates. intros H. apply in_map_iff in H.
  destruct H as (m & <- & Hm). apply clean_alphabet, group1_alphabet.
  apply findall_sound in Hm. destruct Hm as (pre & s0 & s' & _ & Hm).
  apply amount_match_word in Hm. apply Hm.
Qed.

(** Printed floats. *)
Lemma chars_of_uint_digits (u : Decimal.uint) :
  Forall (fun c => is_digit c = true) (chars_of_uint u).
Proof. induction u; cbn [chars_of_uint]; constructor; auto. Qed.

Lemma digit_of_Z (q : Z) :
  (0 <= q <= 9)%Z -> is_digit (Z.to_N (q + 48)) = true.
Proof.
  intros H.
  assert (Hq : (q = 0 \/ q = 1 \/ q = 2 \/ q = 3 \/ q = 4 \/ q = 5 \/ q = 6
                \/ q = 7 \/ q = 8 \/ q = 9)%Z) by lia.
  repeat (destruct Hq as [-> | Hq]; [reflexivity |]). subst q. reflexivity.
Qed.

Lemma frac_digits_digits (fuel : nat) (r den : Z) :
  (0 <= r < den)%Z ->
  Forall (fun c => is_digit c = true) (frac_digits fuel r den).
Proof.
  revert r. induction fuel as [| fuel IH]; intros r Hr; cbn [frac_digits];
    [constructor |].
  destruct (r =? 0)%Z; [constructor |].
  constructor.
  - apply digit_of_Z. split.
    + apply Z.div_pos; lia.
    + assert (r * 10 / den < 10)%Z by (apply Z.div_lt_upper_bound; lia). lia.
  - apply IH. apply Z.mod_pos_bound. lia.
Qed.

Lemma float_str_alphabet (x : float) :
  (0 <= Qnum x)%Z -> Forall total_char (float_str x).
Proof.
  intros Hx. unfold float_str.
  assert (Hneg : (Qnum x <? 0)%Z = false) by (apply Z.ltb_ge; exact Hx).
  rewrite Hneg. cbn [app].
  apply Forall_app. split.
  - unfold str_of_N.
    eapply Forall_impl; [| apply chars_of_uint_digits].
    intros c Hc. left. exact Hc.
  - constructor; [right; reflexivity |].
    pose proof (frac_digits_digits 17 (Z.abs (Qnum x) mod Zpos (Qden x))
                  (Zpos (Qden x))) as Hf.
    assert (Hr : (0 <= Z.abs (Qnum x) mod Zpos (Qden x) < Zpos (Qden x))%Z)
      by (apply Z.mod_pos_bound; lia).
    specialize (Hf Hr).
    destruct (frac_digits 17 _ _) as [| f0 fs].
    + constructor; [left; reflexivity | constructor].
    + eapply Forall_impl; [| exact Hf]. intros c0 Hc0. left. exact Hc0.
Qed.

Lemma digits_val_nonneg (s : str) : (0 <= digits_val s)%Z.
Proof.
  unfold digits_val.
  assert (H : forall acc, (0 <= acc)%Z ->
            (0 <= fold_left (fun a c => a * 10 + digit_val c) s acc)%Z).
  { induction s as [| c s IH]; intros acc Hacc; cbn [fold_left]; [exact Hacc |].
    apply IH. unfold digit_val. lia. }
  apply H. lia.
Qed.

Lemma float_of_unsigned_nonneg (s : str) (q : float) :
  float_of_unsigned s = Some q -> (0 <= Qnum q)%Z.
Proof.
  unfold float_of_unsigned. destruct (cut_dot s) as [ip rest].
  destruct (_ && _); [| discriminate].
  intros H. injection H as <-. apply digits_val_nonneg.
Qed.

Lemma float_of_amount_nonneg (s : str) (q : float) :
  Forall total_char s -> float_of_str s = Some q -> (0 <= Qnum q)%Z.
Proof.
  intros Hs. unfold float_of_str. destruct s as [| c s']; [discriminate |].
  assert (Hc : (c =? 45)%N = false /\ (c =? 43)%N = false).
  { inversion Hs as [| ? ? [Hd | ->] _]; subst; [| split; reflexivity].
    destruct (digit_plain c Hd) as (_ & _ & _ & H1 & H2). auto. }
  destruct Hc as [-> ->]. apply float_of_unsigned_nonneg.
Qed.

Lemma map_or_raise_in {A B : Type} (f : A -> option B) (xs : list A)
      (ys : list B) (y : B) :
  map_or_raise f xs = Some ys -> In y ys ->
  exists x, In x xs /\ f x = Some y.
Proof.
  revert ys. induction xs as [| x xs IH]; intros ys H Hy; cbn in H.
  - injection H as <-. destruct Hy.
  - destruct (f x) as [y0 |] eqn:Ex; [| discriminate].
    destruct (map_or_raise f xs) as [ys0 |]; [| discriminate].
    injection H as <-. destruct Hy as [<- | Hy].
    + exists x. split; [left; reflexivity | exact Ex].
    + destruct (IH ys0 eq_refl Hy) as (x' & Hin & Hx').
      exists x'. split; [right; exact Hin | exact Hx'].
Qed.

Lemma last_in {A : Type} (l : list A) (d : A) : l <> [] -> In (last l d) l.
Proof.
  induction l as [| x l IH]; intros H; [contradiction |].
  destruct l as [| y l']; [left; reflexivity |].
  right. apply IH. discriminate.
Qed.

Lemma keyword_scan_alphabet (rlines : list str) (r : str) :
  keyword_scan rlines = Some r -> Forall total_char r.
Proof.
  induction rlines as [| l rest IH]; cbn [keyword_scan]; [discriminate |].
  destruct (has_keyword l); [| exact IH].
  destruct (Re.search AMOUNT_RE l) as [m |] eqn:E; [| exact IH].
  intros H. injection H as <-.
  apply search_sound in E. destruct E as (pre & s0 & s' & _ & E).
  apply amount_match_word in E. apply clean_alphabet, group1_alphabet, E.
Qed.

Lemma splitlines_aux_chars (n : nat) :
  forall (s cur l : str) (x : char),
    (List.length s <= n)%nat ->
    In l (splitlines_aux cur s) -> In x l -> In x cur \/ In x s.
Proof.
  induction n as [| n IH]; intros s cur l x Hn Hl Hx.
  - destruct s; [| cbn in Hn; lia]. cbn [splitlines_aux] in Hl.
    destruct cur as [| c0 cur']; [destruct Hl |].
    destruct Hl as [<- | []]. left. apply in_rev. exact Hx.
  - destruct s as [| c s]; cbn [splitlines_aux] in Hl.
    + destruct cur as [| c0 cur']; [destruct Hl |].
      destruct Hl as [<- | []]. left. apply in_rev. exact Hx.
    + cbn [List.length] in Hn.
      assert (Hbreak : forall t,
                 (List.length t <= n)%nat -> (forall y, In y t -> In y s) ->
                 In l (rev cur :: splitlines_aux [] t) ->
                 In x cur \/ In x (c :: s)).
      { intros t Ht Hsub [<- | Hl'].
        - left. apply in_rev. exact Hx.
        - destruct (IH t [] l x Ht Hl' Hx) as [[] | H].
          right. right. apply Hsub. exact H. }
      destruct (c =? 13)%N.
      * destruct s as [| d s''].
        -- apply (Hbreak []); [cbn; lia | intros y [] | exact Hl].
        -- destruct (d =? 10)%N.
           ++ apply (Hbreak s''); [cbn in Hn; lia | | exact Hl].
              intros y Hy. right. exact Hy.
           ++ apply (Hbreak (d :: s'')); [lia | auto | exact Hl].
      * destruct (is_linebreak c).
        -- apply (Hbreak s); [lia | auto | exact Hl].
        -- destruct (IH s (c :: cur) l x ltac:(lia) Hl Hx) as [[<- | H] | H].
           ++ right. left. reflexivity.
           ++ left. exact H.
           ++ right. right. exact H.
Qed.

Lemma splitlines_chars (text l : str) (x : char) :
  In l (splitlines text) -> In x l -> In x text.
Proof.
  intros Hl Hx.
  destruct (splitlines_aux_chars (List.length text) text [] l x
              (Nat.le_refl _) Hl Hx) as [[] | H].
  exact H.
Qed.

Lemma no_amount_without (P : char -> Prop) (s : str) :
  (forall d sep, is_digit d = true -> sep = DOT \/ sep = COMMA ->
                 P d \/ P sep) ->
  (forall x, In x s -> ~ P x) ->
  forall pre s0 s' c,
    s = pre ++ s0 -> Re.match_at AMOUNT_RE s0 = Some (s', c) -> False.
Proof.
  intros HP Hs pre s0 s' c -> Hm.
  apply amount_match_word in Hm.
  destruct Hm as (_ & d & u & sep & y & z & rest & -> & Hd & Hsep).
  destruct (HP d sep Hd Hsep) as [H | H]; revert H; apply Hs.
  - apply in_or_app. right. left. reflexivity.
  - apply in_or_app. right. right. apply in_or_app. right. left. reflexivity.
Qed.

End TotalFacts.

(** X1.  [find_total_in_text] answers None for every text without comma
    and dot: the decimal part of the pattern is not optional, so a total
    written as an integer ("TOTAL 1200 EUR") is never detected, with or
    without a keyword on its line. *)
Theorem find_total_needs_decimal_amount :
  forall text : str,
    (forall x, In x text -> x <> DOT /\ x <> COMMA) ->
    find_total_in_text text = None.
Proof.
  intros text Hs.
  assert (Hno : forall pre s0 s' c,
             text = pre ++ s0 ->
             Re.match_at AMOUNT_RE s0 = Some (s', c) -> False).
  { apply (no_amount_without (fun x => x = DOT \/ x = COMMA)).
    - intros d sep _ Hsep. right. exact Hsep.
    - intros x Hx [H | H]; destruct (Hs x Hx); contradiction. }
  unfold find_total_in_text.
  rewrite keyword_scan_none.
  - unfold largest_amount.
    destruct (Re.findall AMOUNT_RE text) as [| m ms] eqn:E; [reflexivity |].
    exfalso.
    assert (Hin : In m (Re.findall AMOUNT_RE text))
      by (rewrite E; left; reflexivity).
    apply findall_sound in Hin. destruct Hin as (pre & s0 & s' & Heq & Hm).
    exact (Hno pre s0 s' m Heq Hm).
  - intros l Hl _. unfold has_amount.
    destruct (Re.search AMOUNT_RE l) as [m |] eqn:E; [| reflexivity].
    exfalso. apply search_sound in E.
    destruct E as (pre & s0 & s' & -> & Hm).
    apply amount_match_word in Hm.
    destruct Hm as (_ & d & u & sep & y & z & rest & -> & Hd & Hsep).
    apply in_rev in Hl.
    assert (Hst : In sep text).
    { apply (splitlines_chars text _ sep Hl).
      apply in_or_app. right. right. apply in_or_app. right. left.
      reflexivity. }
    destruct (Hs sep Hst) as [H1 H2]. destruct Hsep; contradiction.
Qed.

Lemma find_total_needs_decimal_amount_witness :
  find_total_in_text (py "TOTAL 1200 EUR") = None.
Proof.
  apply (find_total_needs_decimal_amount (py "TOTAL 1200 EUR")).
  intros x Hx.
  repeat (destruct Hx as [<- | Hx]; [split; discriminate |]). destruct Hx.
Defined.

(** X2.  Whatever [find_total_in_text] answers is made of the digits 0 to
    9 and dots only: no blank, no comma, no currency sign and no letter is
    left, on the keyword path as in the fallback.  The text is one whose
    decimal digits are those of ASCII, and the candidates have at most 15
    digits, where the printed float is the decimal. *)
Theorem find_total_digits_and_dots :
  forall text r : str,
    Forall (fun c => plain_script c = true) text ->
    Forall (fun c => (List.length c <= 16)%nat) (candidates text) ->
    find_total_in_text text = Some r ->
    Forall total_char r.
Proof.
  intros text r _ _. unfold find_total_in_text.
  destruct (keyword_scan (rev (splitlines text))) as [t |] eqn:Ek.
  - intros H. injection H as <-. apply (keyword_scan_alphabet _ _ Ek).
  - rewrite largest_amount_unfold.
    destruct (candidates text) as [| c0 cs] eqn:Ec; [discriminate |].
    cbv zeta.
    assert (Hall : forall c, In c (c0 :: cs) -> Forall total_char c).
    { intros c Hc. apply (candidate_alphabet text). rewrite Ec. exact Hc. }
    assert (Hlast : Forall total_char (last (c0 :: cs) []))
      by (apply Hall, last_in; discriminate).
    destruct (map_or_raise float_of_str (c0 :: cs)) as [nums |] eqn:En.
    + destruct nums as [| x xs]; cbn [py_max].
      * intros H. injection H as <-. exact Hlast.
      * intros H. injection H as <-.
        apply float_str_alphabet.
        destruct (max_from_spec xs x) as [Hin _].
        destruct (map_or_raise_in float_of_str _ _ _ En Hin) as (c & Hc & Hf).
        apply (float_of_amount_nonneg c _ (Hall c Hc) Hf).
    + intros H. injection H as <-. exact Hlast.
Qed.

Lemma find_total_digits_and_dots_witness :
  Forall total_char (py "1234.56").
Proof.
  apply (find_total_digits_and_dots
           (py "Net 1 000,00" ++ NL ++ py "Total TTC: 1 234,56 EUR")
           (py "1234.56")).
  - apply Forall_forall. apply forallb_forall. vm_compute. reflexivity.
  - vm_compute. repeat constructor.
  - reflexivity.
Defined.

(** ** Dates, continued *)

Section DateFacts.
Import Re.

Lemma date_re_captures : captures_in date_group DATE_RE.
Proof.
  assert (H : forall i lo hi w,
             (match i with
              | 3%nat => (2 <= List.length w <= 4)%nat
              | _ => (1 <= List.length w <= 2)%nat
              end <-> (lo <= List.length w <= hi)%nat) ->
             matches (rep lo hi digit) w -> date_group i w).
  { intros i lo hi w Hi Hw. apply matches_rep_cls in Hw.
    destruct Hw as [Hl Hd]. split; [exact Hd | apply Hi; exact Hl]. }
  unfold DATE_RE. cbn [captures_in].
  split; [split; [| exact I] |].
  { intros w. apply (H 1%nat). reflexivity. }
  split; [exact I |].
  split; [split; [| exact I] |].
  { intros w. apply (H 2%nat). reflexivity. }
  split; [exact I |].
  split; [| exact I].
  intros w. apply (H 3%nat). reflexivity.
Qed.

(** A matched date begins with one or two digits and a separator. *)
Lemma date_word_head (w : str) :
  matches DATE_RE w ->
  exists day sep rest,
    w = day ++ sep :: rest /\ digits day
    /\ (1 <= List.length day <= 2)%nat /\ date_sep sep = true.
Proof.
  unfold DATE_RE. cbn [matches].
  intros (w1 & w' & -> & H1 & w2 & w3 & -> & (sep & -> & Hsep) & _).
  apply matches_rep_cls in H1. destruct H1 as [Hl Hd].
  exists w1, sep, w3. auto.
Qed.

Lemma date_no_match (s : str) :
  (match s with
   | c :: _ => is_digit c = false
   | [] => True
   end)
  \/ (exists d1 d2 d3 rest,
         s = d1 :: d2 :: d3 :: rest /\ is_digit d1 = true
         /\ is_digit d2 = true /\ is_digit d3 = true) ->
  re_match DATE_RE s = None.
Proof.
  intros Hs. unfold re_match.
  destruct (match_at DATE_RE s) as [[s' c] |] eqn:E; [exfalso | reflexivity].
  apply (match_at_sound date_group DATE_RE s s' c date_re_captures) in E.
  destruct E as (w & -> & Hw & _).
  apply date_word_head in Hw.
  destruct Hw as (day & sep & rest & -> & Hd & Hl & Hsep).
  pose proof (date_sep_not_digit sep Hsep) as Hnd.
  destruct day as [| a [| b [| ? ?]]]; cbn in Hl; try lia;
    inversion Hd as [| ? ? Ha Hd']; subst.
  - destruct Hs as [Hs | (d1 & d2 & d3 & r & Heq & H1 & H2 & H3)].
    + cbn in Hs. rewrite Ha in Hs. discriminate Hs.
    + cbn in Heq. injection Heq as -> -> _. rewrite H2 in Hnd. discriminate.
  - destruct Hs as [Hs | (d1 & d2 & d3 & r & Heq & H1 & H2 & H3)].
    + cbn in Hs. rewrite Ha in Hs. discriminate Hs.
    + cbn in Heq. injection Heq as -> -> -> _.
      rewrite H3 in Hnd. discriminate.
Qed.

Lemma normalize_date_no_match (value : str) :
  value <> [] -> re_match DATE_RE value = None ->
  normalize_date value = Some value.
Proof.
  intros Hne Hm. unfold normalize_date. rewrite Hm.
  destruct value; [contradiction | reflexivity].
Qed.

End DateFacts.

(** X3.  [normalize_date] is idempotent: what it answers, an ISO date or
    the input it could not read, is left as it is by a second call. *)
Theorem normalize_date_idempotent :
  forall value r : str,
    normalize_date value = Some r -> normalize_date r = Some r.
Proof.
  intros value r H. pose proof H as H0. unfold normalize_date in H.
  destruct value as [| c0 value']; [discriminate |].
  set (value := c0 :: value') in *.
  destruct (Re.re_match DATE_RE value) as [m |] eqn:Em.
  - destruct (Re.group 1 m) as [day |] eqn:E1;
      [| injection H as <-; exact H0].
    destruct (Re.group 2 m) as [month |] eqn:E2;
      [| injection H as <-; exact H0].
    destruct (Re.group 3 m) as [year |] eqn:E3;
      [| injection H as <-; exact H0].
    injection H as <-.
    unfold Re.re_match in Em.
    destruct (Re.match_at DATE_RE value) as [[s' c] |] eqn:Ea;
      [| discriminate Em].
    cbn in Em. injection Em as ->.
    apply (match_at_sound date_group DATE_RE _ _ _ date_re_captures) in Ea.
    destruct Ea as (_ & _ & _ & Hc).
    apply (group_in date_group 3 m year Hc) in E3.
    destruct E3 as [Hd Hl]. cbn in Hl.
    apply normalize_date_no_match.
    + destruct year; [cbn in Hl; lia |].
      destruct (Nat.eqb _ 2); discriminate.
    + apply date_no_match. right.
      destruct year as [| y1 [| y2 [| y3 year']]]; cbn in Hl; try lia;
        repeat match goal with
               | H : digits (_ :: _) |- _ => inversion H; subst; clear H
               | H : Forall _ (_ :: _) |- _ => inversion H; subst; clear H
               end.
      * exists 50%N, 48%N, y1, (y2 :: py "-" ++ zfill 2 month ++ py "-"
                                   ++ zfill 2 day).
        repeat split; auto.
      * destruct year' as [| y4 [| ? ?]]; cbn in Hl; try lia.
        -- exists y1, y2, y3, (py "-" ++ zfill 2 month ++ py "-"
                                ++ zfill 2 day).
           repeat split; auto.
        -- exists y1, y2, y3, (y4 :: py "-" ++ zfill 2 month ++ py "-"
                                   ++ zfill 2 day).
           repeat split; auto.
  - injection H as <-. exact H0.
Qed.

Lemma normalize_date_idempotent_witness :
  normalize_date (py "2024-01-15") = Some (py "2024-01-15").
Proof.
  apply (normalize_date_idempotent (py "15/1/24") (py "2024-01-15")).
  reflexivity.
Defined.

(** X4.  [normalize_date] gives the input back unchanged when it does not
    start with a digit (the pattern is anchored and nothing is stripped, so
    one leading blank is enough) and when it starts with three digits, as
    an ISO date does. *)
Theorem normalize_date_unread_input :
  forall value : str,
    value <> [] ->
    (match value with
     | c :: _ => is_digit c = false /\ plain_script c = true
     | [] => True
     end)
    \/ (exists d1 d2 d3 rest,
           value = d1 :: d2 :: d3 :: rest /\ is_digit d1 = true
           /\ is_digit d2 = true /\ is_digit d3 = true) ->
    normalize_date value = Some value.
Proof.
  intros value Hne Hs.
  apply normalize_date_no_match; [exact Hne |].
  apply date_no_match. destruct Hs as [Hs | Hs]; [left | right; exact Hs].
  destruct value as [| c rest]; [exact I | apply Hs].
Qed.

Lemma normalize_date_unread_input_witness :
  normalize_date (py " 15/01/2024") = Some (py " 15/01/2024").
Proof.
  apply (normalize_date_unread_input (py " 15/01/2024")).
  - discriminate.
  - left. split; reflexivity.
Defined.

(** ** Text clean-up *)

Section BlankFacts.
Import Re.

Lemma lstrip_split (s : str) :
  exists p, s = p ++ lstrip s /\ Forall (fun c => is_space c = true) p.
Proof.
  induction s as [| x s (p & Hp & Hf)]; [exists []; split; constructor |].
  cbn [lstrip]. destruct (is_space x) eqn:E.
  - exists (x :: p). split; [cbn; f_equal; exact Hp | constructor; assumption].
  - exists []. split; constructor.
Qed.

Lemma lstrip_head (s : str) : head_not_space (lstrip s).
Proof.
  induction s as [| x s IH]; [exact I |].
  cbn [lstrip]. destruct (is_space x) eqn:E; [exact IH | exact E].
Qed.

Lemma lstrip_id (s : str) : head_not_space s -> lstrip s = s.
Proof. destruct s as [| x s]; [reflexivity |]. cbn. intros ->. reflexivity. Qed.

Lemma lstrip_length (s : str) : (List.length (lstrip s) <= List.length s)%nat.
Proof.
  induction s as [| x s IH]; [constructor |].
  cbn [lstrip]. destruct (is_space x); cbn [List.length]; lia.
Qed.

Lemma rstrip_snoc (s : str) (x : char) :
  rstrip (s ++ [x]) = if is_space x then rstrip s else s ++ [x].
Proof.
  unfold rstrip. rewrite rev_app_distr. cbn [rev app lstrip].
  destruct (is_space x); [reflexivity |].
  cbn [rev]. rewrite rev_involutive. reflexivity.
Qed.

Lemma rstrip_split (s : str) :
  exists q, s = rstrip s ++ q /\ Forall (fun c => is_space c = true) q.
Proof.
  induction s as [| x s (q & Hq & Hf)] using rev_ind.
  - exists []. split; constructor.
  - rewrite rstrip_snoc. destruct (is_space x) eqn:E.
    + exists (q ++ [x]). split.
      * rewrite app_assoc, <- Hq. reflexivity.
      * apply Forall_app.
        split; [exact Hf | constructor; [exact E | constructor]].
    + exists []. split; [rewrite app_nil_r; reflexivity | constructor].
Qed.

Lemma rstrip_idempotent (s : str) : rstrip (rstrip s) = rstrip s.
Proof.
  induction s as [| x s IH] using rev_ind; [reflexivity |].
  rewrite rstrip_snoc. destruct (is_space x) eqn:E; [exact IH |].
  rewrite rstrip_snoc, E. reflexivity.
Qed.

Lemma rstrip_head (s : str) : head_not_space s -> head_not_space (rstrip s).
Proof.
  intros H. destruct (rstrip_split s) as (q & Hq & _).
  destruct (rstrip s) as [| y r]; [exact I |].
  rewrite Hq in H. exact H.
Qed.

Lemma strip_rstrip (s : str) : strip s = rstrip (lstrip s).
Proof. reflexivity. Qed.

Lemma strip_idempotent (s : str) : strip (strip s) = strip s.
Proof.
  rewrite !strip_rstrip.
  rewrite (lstrip_id (rstrip (lstrip s)))
    by (apply rstrip_head, lstrip_head).
  apply rstrip_idempotent.
Qed.

Lemma strip_split (s : str) : exists p q, s = p ++ strip s ++ q.
Proof.
  destruct (lstrip_split s) as (p & Hp & _).
  destruct (rstrip_split (lstrip s)) as (q & Hq & _).
  exists p, q. rewrite strip_rstrip, <- Hq. exact Hp.
Qed.

(** The pattern [\s+] at the head of a text. *)
Lemma blanks_loop (fuel : nat) :
  forall (s : str) (lo : nat) (c : caps),
    (List.length s < fuel)%nat -> (lo <= 1)%nat ->
    rep_loop (run space) (fun s' c' => Some (s', c')) fuel lo None s c
    = match s with
      | x :: t =>
          if is_space x then Some (lstrip t, c)
          else match lo with O => Some (s, c) | S _ => None end
      | [] => match lo with O => Some ([], c) | S _ => None end
      end.
Proof.
  induction fuel as [| fuel IH]; intros s lo c Hf Hlo; [lia |].
  cbn [rep_loop]. unfold space at 1. cbn [run].
  destruct s as [| x t]; [reflexivity |].
  destruct (is_space x) eqn:E; [| reflexivity].
  assert (Hp : (List.length t <? List.length (x :: t))%nat = true)
    by (apply Nat.ltb_lt; cbn; lia).
  rewrite Hp. cbn [List.length] in Hf.
  rewrite IH by (cbn; lia).
  replace (Nat.pred lo) with 0%nat by lia.
  destruct t as [| y t']; [reflexivity |].
  cbn [lstrip]. destruct (is_space y); reflexivity.
Qed.

Lemma blanks_match (s : str) :
  match_at (Rep 1 None space) s
  = match s with
    | x :: t => if is_space x then Some (lstrip t, []) else None
    | [] => None
    end.
Proof.
  unfold match_at. cbn [run]. rewrite blanks_loop by lia.
  destruct s as [| x t]; [reflexivity |]. destruct (is_space x); reflexivity.
Qed.

Lemma squeeze_in_run (s : str) : squeeze true s = squeeze false (lstrip s).
Proof.
  induction s as [| x s IH]; [reflexivity |].
  cbn [squeeze lstrip]. destruct (is_space x) eqn:E; [exact IH |].
  cbn [squeeze]. rewrite E. reflexivity.
Qed.

Lemma sub_blanks_aux (fuel : nat) :
  forall s : str,
    (List.length s < fuel)%nat ->
    sub_aux fuel (Rep 1 None space) [32%N] s = squeeze false s.
Proof.
  induction fuel as [| fuel IH]; intros s Hf; [lia |].
  cbn [sub_aux]. rewrite blanks_match.
  destruct s as [| x t]; [reflexivity |].
  cbn [List.length] in Hf. cbn [squeeze].
  destruct (is_space x) eqn:E.
  - pose proof (lstrip_length t) as Hl.
    assert (Hp : (List.length (lstrip t) <? List.length (x :: t))%nat = true)
      by (apply Nat.ltb_lt; cbn; lia).
    rewrite Hp. cbn [app]. f_equal.
    rewrite IH by lia. symmetry. apply squeeze_in_run.
  - f_equal. apply IH. lia.
Qed.

(** [re.sub(r'\s+', ' ', s)] is [squeeze]. *)
Lemma sub_blanks (s : str) :
  sub (Rep 1 None space) [32%N] s = squeeze false s.
Proof. apply sub_blanks_aux. lia. Qed.

Lemma chain_cons_hd {A : Type} (R : A -> A -> Prop) (x : A) (l : list A) :
  chain R (x :: l) <-> (forall y, hd_error l = Some y -> R x y) /\ chain R l.
Proof.
  destruct l as [| y l]; cbn [chain hd_error].
  - split; [intros _; split; [discriminate | exact I] | intros _; auto].
  - split.
    + intros [H1 H2]. split; [| exact H2].
      intros z Hz. injection Hz as <-. exact H1.
    + intros [H1 H2]. split; [apply H1; reflexivity | exact H2].
Qed.

Lemma squeeze_plain (s : str) (b : bool) : plain_blanks (squeeze b s).
Proof.
  unfold plain_blanks. revert b.
  induction s as [| x s IH]; intros b; cbn [squeeze]; [constructor |].
  destruct (is_space x) eqn:E.
  - destruct b; [apply IH |]. constructor; [reflexivity | apply IH].
  - constructor; [| apply IH]. intros H. rewrite H in E. discriminate E.
Qed.

Lemma squeeze_single (s : str) :
  forall b, single_blanks (squeeze b s)
            /\ (b = true -> head_not_space (squeeze b s)).
Proof.
  unfold single_blanks.
  induction s as [| x s IH]; intros b; cbn [squeeze].
  - split; [exact I | intros _; exact I].
  - destruct (is_space x) eqn:E.
    + destruct (IH true) as [Hc Hh]. specialize (Hh eq_refl).
      destruct b; [split; [exact Hc | intros _; exact Hh] |].
      split; [| discriminate].
      apply chain_cons_hd. split; [| exact Hc].
      intros y Hy _. destruct (squeeze true s); [discriminate |].
      injection Hy as <-. exact Hh.
    + destruct (IH false) as [Hc _].
      split; [| intros _; exact E].
      apply chain_cons_hd. split; [| exact Hc].
      intros y _ H. rewrite H in E. discriminate E.
Qed.

Lemma squeeze_fixed (s : str) :
  plain_blanks s -> single_blanks s ->
  squeeze false s = s /\ (head_not_space s -> squeeze true s = s).
Proof.
  unfold plain_blanks, single_blanks.
  induction s as [| x s IH]; intros Hp Hs; [split; reflexivity |].
  inversion Hp as [| ? ? Hx Hp']; subst.
  apply chain_cons_hd in Hs. destruct Hs as [Hxy Hs'].
  destruct (IH Hp' Hs') as [IHf IHt].
  cbn [squeeze head_not_space]. destruct (is_space x) eqn:E.
  - split; [| discriminate].
    rewrite <- (Hx eq_refl). f_equal. apply IHt.
    destruct s as [| y s']; [exact I |].
    cbn. apply (Hxy y eq_refl). reflexivity.
  - rewrite IHf. split; reflexivity.
Qed.

Lemma plain_blanks_part (p s q : str) :
  plain_blanks (p ++ s ++ q) -> plain_blanks s.
Proof.
  unfold plain_blanks. intros H.
  apply Forall_app in H. destruct H as [_ H].
  apply Forall_app in H. apply H.
Qed.

Lemma single_blanks_part (p s q : str) :
  single_blanks (p ++ s ++ q) -> single_blanks s.
Proof.
  unfold single_blanks. intros H.
  apply chain_app in H. destruct H as (_ & H & _).
  apply chain_app in H. apply H.
Qed.

Lemma plain_blanks_no (c : char) (s : str) :
  is_space c = true -> c <> 32%N -> plain_blanks s -> has_char c s = false.
Proof.
  intros Hc Hne Hs. induction Hs as [| x s Hx _ IH]; [reflexivity |].
  rewrite has_char_cons, IH, orb_false_r.
  destruct (c =? x)%N eqn:E; [| reflexivity].
  apply N.eqb_eq in E. subst x. elim Hne. apply Hx, Hc.
Qed.

Lemma tidy_strip_squeeze (s : str) : tidy (strip (squeeze false s)).
Proof.
  destruct (strip_split (squeeze false s)) as (p & q & Hpq).
  split; [| split].
  - apply (plain_blanks_part p _ q). rewrite <- Hpq. apply squeeze_plain.
  - apply (single_blanks_part p _ q). rewrite <- Hpq. apply squeeze_single.
  - apply strip_idempotent.
Qed.

End BlankFacts.

Lemma normalize_text_plain (sub_term : str -> str -> str -> option str)
      (text : str) :
  normalize_text sub_term text None
  = Some (match text with
          | [] => []
          | _ => strip (squeeze false
                          (replace NNBSP [32%N] (replace NBSP [32%N] text)))
          end).
Proof.
  unfold normalize_text. destruct text; [reflexivity |].
  rewrite sub_blanks. reflexivity.
Qed.

Lemma tidy_nil : tidy [].
Proof. split; [constructor | split; [exact I | reflexivity]]. Qed.

Lemma normalize_text_plain_tidy
      (sub_term : str -> str -> str -> option str) (text r : str) :
  normalize_text sub_term text None = Some r -> tidy r.
Proof.
  rewrite normalize_text_plain. intros H. injection H as <-.
  destruct text; [apply tidy_nil | apply tidy_strip_squeeze].
Qed.

Lemma normalize_text_fixed
      (sub_term : str -> str -> str -> option str) (r : str) :
  tidy r -> normalize_text sub_term r None = Some r.
Proof.
  intros (Hp & Hs & Hst). rewrite normalize_text_plain. f_equal.
  destruct r as [| c r']; [reflexivity |].
  rewrite (replace_absent NBSP)
    by (apply plain_blanks_no; [reflexivity | discriminate | exact Hp]).
  rewrite (replace_absent NNBSP)
    by (apply plain_blanks_no; [reflexivity | discriminate | exact Hp]).
  destruct (squeeze_fixed _ Hp Hs) as [-> _]. exact Hst.
Qed.

(** X5.  Without a dictionary, [normalize_text] answers a text whose only
    blank character is the plain space, in which no two spaces follow each
    other, and which neither begins nor ends with one.  With a dictionary
    too, the answer never begins or ends with a blank. *)
Theorem normalize_text_tidy :
  forall (sub_term : str -> str -> str -> option str) (text : str),
    (exists r, normalize_text sub_term text None = Some r /\ tidy r)
    /\ (forall dictionary r,
           normalize_text sub_term text dictionary = Some r -> strip r = r).
Proof.
  intros sub_term text. split.
  - rewrite normalize_text_plain. eexists. split; [reflexivity |].
    destruct text; [apply tidy_nil | apply tidy_strip_squeeze].
  - intros dictionary r. unfold normalize_text.
    destruct text as [| c text'].
    + intros H. injection H as <-. reflexivity.
    + destruct dictionary as [[| item items] |];
        try (intros H; injection H as <-; apply strip_idempotent).
      destruct (replace_terms sub_term (item :: items) _); [| discriminate].
      intros H. injection H as <-. apply strip_idempotent.
Qed.

Lemma normalize_text_tidy_witness :
  strip (py "total ttc") = py "total ttc".
Proof.
  destruct (normalize_text_tidy (fun _ _ t => Some t) (py " Total TTC "))
    as [_ H].
  apply (H (Some [(py "ttc", py "ttc")]) (py "total ttc")).
  vm_compute. reflexivity.
Defined.

(** X6.  Without a dictionary, [normalize_text] leaves a tidy text as it
    is and is idempotent: a second call changes nothing. *)
Theorem normalize_text_idempotent :
  forall (sub_term : str -> str -> str -> option str) (text r : str),
    (tidy text -> normalize_text sub_term text None = Some text)
    /\ (normalize_text sub_term text None = Some r ->
        normalize_text sub_term r None = Some r).
Proof.
  intros sub_term text r. split.
  - apply normalize_text_fixed.
  - intros H. apply normalize_text_fixed.
    apply (normalize_text_plain_tidy sub_term text r H).
Qed.

Lemma normalize_text_idempotent_witness :
  normalize_text (fun _ _ t => Some t) (py "Total TTC 12,50") None
  = Some (py "Total TTC 12,50").
Proof.
  destruct (normalize_text_idempotent (fun _ _ t => Some t)
              (py "  Total" ++ [NBSP; 9%N] ++ py "TTC  12,50 ")
              (py "Total TTC 12,50")) as [_ H].
  apply H. reflexivity.
Defined.

(** ** Percentages, amounts and currencies *)

Section SubstringFacts.






End SubstringFacts.

Section PercentFacts.

Lemma digit_not_percent (c : char) :
  is_digit c = true -> percent_or_space c = false.
Proof.
  intros H. apply digit_cases in H.
  repeat (destruct H as [-> | H]; [reflexivity |]). subst c. reflexivity.
Qed.

Lemma filter_digits (f : char -> bool) (s : str) :
  (forall c, is_digit c = true -> f c = false) -> digits s ->
  filter (fun c => negb (f c)) s = s.
Proof.
  intros Hf Hs. apply forallb_filter_id, forallb_forall. intros c Hc.
  unfold digits in Hs. rewrite Forall_forall in Hs.
  rewrite (Hf c (Hs c Hc)). reflexivity.
Qed.

Lemma filter_dropped (f : char -> bool) (s : str) :
  Forall (fun c => f c = true) s -> filter (fun c => negb (f c)) s = [].
Proof.
  intros Hs. induction Hs as [| c s Hc _ IH]; [reflexivity |].
  cbn [filter]. rewrite Hc. exact IH.
Qed.

Lemma cut_dot_second (x w : str) :
  has_char DOT w = true ->
  exists ip fp, cut_dot (x ++ DOT :: w) = (ip, Some fp)
                /\ has_char DOT fp = true.
Proof.
  intros Hw. induction x as [| c x (ip & fp & IH & Hfp)]; cbn [app cut_dot].
  - exists [], w. split; [reflexivity | exact Hw].
  - destruct (c =? 46)%N.
    + exists [], (x ++ DOT :: w). split; [reflexivity |].
      rewrite has_char_app, has_char_cons, N.eqb_refl. apply orb_true_r.
    + rewrite IH. exists (c :: ip), fp. split; [reflexivity | exact Hfp].
Qed.

Lemma forallb_digit_dot (s : str) :
  has_char DOT s = true -> forallb is_digit s = false.
Proof.
  induction s as [| c s IH]; [discriminate |].
  rewrite has_char_cons. cbn [forallb]. intros H.
  apply orb_true_iff in H. destruct H as [H | H].
  - apply N.eqb_eq in H. subst c. reflexivity.
  - rewrite (IH H). apply andb_false_r.
Qed.

Lemma float_of_unsigned_two_dots (x y z : str) :
  float_of_unsigned (x ++ DOT :: y ++ DOT :: z) = None.
Proof.
  unfold float_of_unsigned.
  destruct (cut_dot_second x (y ++ DOT :: z)) as (ip & fp & -> & Hfp).
  { rewrite has_char_app, has_char_cons, N.eqb_refl. apply orb_true_r. }
  rewrite (forallb_digit_dot fp Hfp), andb_false_r. reflexivity.
Qed.

(** No float has two points. *)
Lemma float_of_str_two_dots (x y z : str) :
  float_of_str (x ++ DOT :: y ++ DOT :: z) = None.
Proof.
  unfold float_of_str.
  destruct x as [| c x'].
  - cbn [app]. change (DOT =? 45)%N with false. change (DOT =? 43)%N with false.
    apply (float_of_unsigned_two_dots [] y z).
  - cbn [app].
    destruct (c =? 45)%N;
      [rewrite (float_of_unsigned_two_dots x' y z); reflexivity |].
    destruct (c =? 43)%N; [apply float_of_unsigned_two_dots |].
    apply (float_of_unsigned_two_dots (c :: x') y z).
Qed.

Lemma replace_comma_app (a b : str) :
  replace COMMA [DOT] (a ++ b)
  = replace COMMA [DOT] a ++ replace COMMA [DOT] b.
Proof. apply replace_app. Qed.

Lemma replace_separator (c : char) (s : str) :
  is_separator c ->
  replace COMMA [DOT] (c :: s) = DOT :: replace COMMA [DOT] s.
Proof. intros [-> | ->]; reflexivity. Qed.

End PercentFacts.

(** X7.  [normalize_percentage] reads "ip,fp" and "ip.fp" alike as the
    number ip.fp, and "ip" as the integer, whatever percent signs and
    blanks follow: '20,00%' is 20.0 and '19 %' is 19.0. *)
Theorem normalize_percentage_reads_decimal :
  forall (ip fp tail : str) (sep : char),
    digits ip -> ip <> [] -> digits fp -> is_separator sep ->
    Forall (fun c => percent_or_space c = true) tail ->
    normalize_percentage (ip ++ sep :: fp ++ tail) = Some (decimal ip fp)
    /\ normalize_percentage (ip ++ tail) = Some (decimal ip []).
Proof.
  intros ip fp tail sep Hi Hne Hf Hsep Ht.
  assert (Hsp : percent_or_space sep = false)
    by (destruct Hsep as [-> | ->]; reflexivity).
  unfold normalize_percentage. split.
  - destruct (ip ++ sep :: fp ++ tail) eqn:E;
      [destruct ip; discriminate E |]. rewrite <- E. clear E.
    rewrite filter_app. cbn [filter]. rewrite Hsp. cbn [negb].
    rewrite filter_app, (filter_dropped _ tail Ht), app_nil_r.
    rewrite !(filter_digits _ _ digit_not_percent) by assumption.
    rewrite replace_comma_app, (replace_separator sep fp Hsep).
    destruct (digits_no_separator ip Hi) as [Hic _].
    destruct (digits_no_separator fp Hf) as [Hfc _].
    rewrite (replace_absent COMMA [DOT] ip Hic),
      (replace_absent COMMA [DOT] fp Hfc).
    apply float_of_str_decimal; assumption.
  - destruct (ip ++ tail) eqn:E;
      [destruct ip; [contradiction | discriminate E] |].
    rewrite <- E. clear E.
    rewrite filter_app, (filter_dropped _ tail Ht), app_nil_r.
    rewrite (filter_digits _ _ digit_not_percent) by assumption.
    destruct (digits_no_separator ip Hi) as [Hic _].
    rewrite (replace_absent COMMA [DOT] ip Hic).
    apply float_of_str_integer; assumption.
Qed.

Lemma normalize_percentage_reads_decimal_witness :
  normalize_percentage (py "20,00 %") = Some (decimal (py "20") (py "00"))
  /\ normalize_percentage (py "20 %") = Some (decimal (py "20") []).
Proof.
  apply (normalize_percentage_reads_decimal
           (py "20") (py "00") (py " %") COMMA).
  - repeat constructor.
  - discriminate.
  - repeat constructor.
  - left. reflexivity.
  - repeat constructor.
Defined.

(** X8.  [normalize_percentage] turns every comma into a dot and removes
    nothing else but percent signs and blanks, so a value with two
    separators is never read: "1,234.5 %" gives None, where
    [normalize_amount] reads "1,234.5" as 1234.5. *)
Theorem normalize_percentage_rejects_two_separators :
  forall (a b c : str) (s1 s2 : char),
    is_separator s1 -> is_separator s2 ->
    normalize_percentage (a ++ s1 :: b ++ s2 :: c) = None.
Proof.
  intros a b c s1 s2 H1 H2.
  assert (Hp : forall s, is_separator s -> percent_or_space s = false)
    by (intros s [-> | ->]; reflexivity).
  unfold normalize_percentage.
  destruct (a ++ s1 :: b ++ s2 :: c) eqn:E; [reflexivity |].
  rewrite <- E. clear E.
  rewrite filter_app. cbn [filter]. rewrite (Hp s1 H1). cbn [negb].
  rewrite filter_app. cbn [filter]. rewrite (Hp s2 H2). cbn [negb].
  rewrite replace_comma_app, (replace_separator s1 _ H1).
  rewrite replace_comma_app, (replace_separator s2 _ H2).
  apply float_of_str_two_dots.
Qed.

Lemma normalize_percentage_rejects_two_separators_witness :
  normalize_percentage (py "1,234.5 %") = None
  /\ float_is (normalize_amount (py "1,234.5")) 1234.5.
Proof.
  split.
  - apply (normalize_percentage_rejects_two_separators
             (py "1") (py "234") (py "5 %") COMMA DOT).
    + left. reflexivity.
    + right. reflexivity.
  - vm_compute. reflexivity.
Defined.

Section CurrencySignFacts.

Lemma space_is_dropped (c : char) :
  is_space c = true -> currency_or_space c = true.
Proof.
  intros H. unfold currency_or_space. rewrite H.
  rewrite !orb_true_r. reflexivity.
Qed.

Lemma filter_lstrip (s : str) :
  filter (fun c => negb (currency_or_space c)) (lstrip s)
  = filter (fun c => negb (currency_or_space c)) s.
Proof.
  induction s as [| x s IH]; [reflexivity |].
  cbn [lstrip]. destruct (is_space x) eqn:E; [| reflexivity].
  cbn [filter]. rewrite (space_is_dropped x E). exact IH.
Qed.

Lemma filter_rstrip (s : str) :
  filter (fun c => negb (currency_or_space c)) (rstrip s)
  = filter (fun c => negb (currency_or_space c)) s.
Proof.
  induction s as [| x s IH] using rev_ind; [reflexivity |].
  rewrite rstrip_snoc. destruct (is_space x) eqn:E; [| reflexivity].
  rewrite filter_app. cbn [filter]. rewrite (space_is_dropped x E).
  cbn [negb]. rewrite app_nil_r. exact IH.
Qed.

(** Stripping the ends first changes nothing: the blanks go anyway. *)
Lemma strip_currency_filter (s : str) :
  strip_currency s = filter (fun c => negb (currency_or_space c)) s.
Proof.
  unfold strip_currency. rewrite strip_rstrip, filter_rstrip.
  apply filter_lstrip.
Qed.

Lemma normalize_amount_by_strip (value : str) :
  normalize_amount value
  = match strip_currency value with
    | [] => None
    | v => float_of_str (resolve_separators v)
    end.
Proof.
  unfold normalize_amount. destruct value as [| c value']; [reflexivity |].
  destruct (strip_currency (c :: value')); reflexivity.
Qed.

End CurrencySignFacts.

(** X9.  [normalize_amount] does not see currency signs, blanks and
    capital letters, wherever they stand: inserting one of them into the
    value leaves the answer as it is. *)
Theorem normalize_amount_ignores_currency_signs :
  forall (a b : str) (c : char),
    currency_or_space c = true ->
    normalize_amount (a ++ c :: b) = normalize_amount (a ++ b).
Proof.
  intros a b c Hc.
  rewrite !normalize_amount_by_strip, !strip_currency_filter.
  rewrite !filter_app. cbn [filter]. rewrite Hc. reflexivity.
Qed.

Lemma normalize_amount_ignores_currency_signs_witness :
  normalize_amount (py "1 829,17 " ++ [EURO])
  = normalize_amount (py "1 829,17 ").
Proof.
  rewrite <- (app_nil_r (py "1 829,17 ")) at 2.
  apply (normalize_amount_ignores_currency_signs (py "1 829,17 ") [] EURO).
  reflexivity.
Defined.

Section CurrencyFacts.



End CurrencyFacts.



(** ** Language detection, continued *)

(** X11.  The whole verdict of [detect_language]: "generic" exactly when
    no keyword of either list occurs, "en" exactly when more English than
    French keywords occur, and "fr" in the remaining cases, that is as soon
    as French keywords occur and are not outnumbered. *)
Theorem detect_language_verdict :
  forall (nfd : str -> str) (is_Mn : char -> bool) (text : str),
    let fr := hits french_keywords (normalized nfd is_Mn text) in
    let en := hits english_keywords (normalized nfd is_Mn text) in
    (detect_language nfd is_Mn text = "generic"%string
     <-> fr = 0%nat /\ en = 0%nat)
    /\ (detect_language nfd is_Mn text = "en"%string <-> (fr < en)%nat)
    /\ (detect_language nfd is_Mn text = "fr"%string
        <-> (0 < fr)%nat /\ (en <= fr)%nat).
Proof.
  intros nfd is_Mn text fr en.
  unfold detect_language, scores, max_by. cbn [fold_left snd].
  fold fr. fold en.
  destruct (fr <? en)%nat eqn:E.
  - apply Nat.ltb_lt in E.
    assert (Hpos : (0 <? en)%nat = true) by (apply Nat.ltb_lt; lia).
    rewrite Hpos.
    split; [| split]; split; try discriminate; try lia; auto.
  - apply Nat.ltb_ge in E.
    destruct (0 <? fr)%nat eqn:Ef.
    + apply Nat.ltb_lt in Ef.
      split; [| split]; split; try discriminate; try lia; auto.
    + apply Nat.ltb_ge in Ef.
      split; [| split]; split; try discriminate; try lia; auto.
Qed.

(** ** Arbitration, continued *)

Section ArbiterFacts.
Open Scope Q_scope.

Lemma line_bonus_le (n : nat) :
  Qmin (inject_Z (Z.of_nat n) / 100) 0.05 <= 0.05.
Proof. apply Q.le_min_r. Qed.

Lemma line_bonus_first (n : nat) :
  (1 <= n)%nat -> 0.01 <= Qmin (inject_Z (Z.of_nat n) / 100) 0.05.
Proof.
  intros Hn. apply Q.min_glb; [| discriminate].
  apply Qle_shift_div_l; [reflexivity |].
  assert (H : 1 <= inject_Z (Z.of_nat n)).
  { change 1 with (inject_Z 1). rewrite <- Zle_Qle. lia. }
  lra.
Qed.

Lemma score_bounds (c : Q) (t : option str) (n : nat) :
  c <= select_best_ocr.score_result c t n <= c + 0.10.
Proof.
  unfold select_best_ocr.score_result.
  pose proof (line_bonus_nonneg n). pose proof (line_bonus_le n).
  destruct t; split; lra.
Qed.

Lemma score_same (c : Q) (t : option str) (n : nat) :
  process_orange_factures.score_result c t n
  = select_best_ocr.score_result c t n.
Proof. reflexivity. Qed.

Lemma orange_total (t : str) :
  match t with [] => None | _ => find_total_in_text t end
  = find_total_in_text t.
Proof. destruct t; reflexivity. Qed.

(** The score of a candidate in [select_best_orange]. *)
Lemma orange_score_bounds (r : list line * Q * str) :
  let '(ext, c, t) := r in
  (ext = [] -> c == 0) ->
  c <= match ext with
       | [] => 0
       | _ => process_orange_factures.score_result c
                (match t with [] => None | _ => find_total_in_text t end)
                (List.length ext)
       end <= c + 0.10.
Proof.
  destruct r as [[ext c] t]. intros Hc.
  destruct ext as [| l ext'].
  - specialize (Hc eq_refl). split; lra.
  - rewrite score_same. apply score_bounds.
Qed.

Lemma collect_no_line (result : ocr_result) :
  let '(ext, c, t) := collect result in ext = [] -> c == 0.
Proof.
  destruct (collect result) as [[ext c] t] eqn:E. intros Hext.
  assert (H : fst (fst (collect result)) = []) by (rewrite E; exact Hext).
  apply collect_empty in H. rewrite H in E. injection E as _ <- _.
  reflexivity.
Qed.

Lemma ocr_or_empty_no_line {image : Type} (ocr : image -> option ocr_result)
      (img : image) :
  let '(ext, c, t) := process_orange_factures.ocr_or_empty ocr img in
  ext = [] -> c == 0.
Proof.
  unfold process_orange_factures.ocr_or_empty, run_ocr_on_image.
  destruct (ocr img) as [res |]; [apply collect_no_line |].
  intros _. reflexivity.
Qed.

End ArbiterFacts.

(** X12.  A gap between the average confidences decides the arbitration,
    whatever the totals and line counts are (the two bonuses add at most
    0.10): the original is kept when it is ahead by 0.08 or more, by both
    arbiters; the enhanced variant is taken when it is ahead by more than
    0.12, provided for [select_best_orange] that it has lines. *)
Theorem confidence_gap_decides :
  forall (image : Type) (ocr : image -> option ocr_result)
         (preprocess_image : image -> option image) (name : image -> str)
         (image_original image_processed : image)
         (res_o res_p : ocr_result),
    ocr image_original = Some res_o ->
    ocr image_processed = Some res_p ->
    preprocess_image image_original = Some image_processed ->
    let conf_o := snd (fst (collect res_o)) in
    let conf_p := snd (fst (collect res_p)) in
    ((conf_p + 0.08 <= conf_o)%Q ->
     option_map select_best_ocr.chosen
       (select_best_ocr.select_best ocr image_original image_processed)
     = Some "original"%string
     /\ option_map process_orange_factures.chosen
          (process_orange_factures.select_best_orange
             ocr preprocess_image name image_original)
        = Some "original"%string)
    /\
    ((conf_o + 0.12 < conf_p)%Q ->
     option_map select_best_ocr.chosen
       (select_best_ocr.select_best ocr image_original image_processed)
     = Some "processed"%string
     /\ (fst (fst (collect res_p)) <> [] ->
         option_map process_orange_factures.chosen
           (process_orange_factures.select_best_orange
              ocr preprocess_image name image_original)
         = Some "preprocessed"%string)).
Proof.
  intros image ocr pre name io ip res_o res_p Ho Hp Hpre conf_o conf_p.
  unfold select_best_ocr.select_best,
    process_orange_factures.select_best_orange,
    process_orange_factures.ocr_or_empty, run_ocr_on_image.
  rewrite Hpre, Ho, Hp.
  pose proof (collect_no_line res_o) as Hno.
  pose proof (collect_no_line res_p) as Hnp.
  pose proof (orange_score_bounds (collect res_o)) as Hbo.
  pose proof (orange_score_bounds (collect res_p)) as Hbp.
  subst conf_o conf_p.
  destruct (collect res_o) as [[ext_o conf_o] text_o].
  destruct (collect res_p) as [[ext_p conf_p] text_p].
  cbn [fst snd]. specialize (Hbo Hno). specialize (Hbp Hnp).
  pose proof (score_bounds conf_o (find_total_in_text text_o)
                (List.length ext_o)) as Hso.
  pose proof (score_bounds conf_p (find_total_in_text text_p)
                (List.length ext_p)) as Hsp.
  unfold select_best_ocr.CONF_MARGIN, process_orange_factures.CONF_MARGIN.
  split.
  - intros Hgap. split; decide_margin; solve [reflexivity | exfalso; lra].
  - intros Hgap. split.
    + decide_margin; [reflexivity | exfalso; lra].
    + intros Hext. decide_margin; [| exfalso; lra].
      destruct ext_p; [contradiction | reflexivity].
Qed.

Lemma confidence_gap_decides_witness :
  option_map select_best_ocr.chosen
    (select_best_ocr.select_best demo_ocr true false) = Some "original"%string.
Proof.
  destruct (confidence_gap_decides bool demo_ocr (fun _ => Some false)
              (fun _ => py "scan.png") true false
              [[(demo_box, (py "TOTAL 12,50", 0.9%Q))]] [[]]
              eq_refl eq_refl eq_refl) as [H _].
  apply H. vm_compute. discriminate.
Defined.

(** X13.  When both engine calls succeed and the line confidences of the
    original are not negative, [select_best] and [select_best_orange] take
    the same candidate and report the same confidence, total and lines:
    the extra test on the number of lines of [select_best_orange] only
    matters for results that [select_best] rejects by their score. *)
Theorem arbiters_agree :
  forall (image : Type) (ocr : image -> option ocr_result)
         (preprocess_image : image -> option image) (name : image -> str)
         (image_original image_processed : image)
         (res_o res_p : ocr_result),
    ocr image_original = Some res_o ->
    ocr image_processed = Some res_p ->
    preprocess_image image_original = Some image_processed ->
    Forall (fun e => (0 <= snd (snd e))%Q) (List.concat res_o) ->
    exists d d',
      select_best_ocr.select_best ocr image_original image_processed = Some d
      /\ process_orange_factures.select_best_orange
           ocr preprocess_image name image_original = Some d'
      /\ (select_best_ocr.chosen d = "original"%string
          <-> process_orange_factures.chosen d' = "original"%string)
      /\ select_best_ocr.avg_conf d = process_orange_factures.avg_conf d'
      /\ select_best_ocr.total d = process_orange_factures.total d'
      /\ select_best_ocr.lines d = process_orange_factures.lines d'.
Proof.
  intros image ocr pre name io ip res_o res_p Ho Hp Hpre Hconf.
  unfold select_best_ocr.select_best,
    process_orange_factures.select_best_orange,
    process_orange_factures.ocr_or_empty, run_ocr_on_image.
  rewrite Hpre, Ho, Hp.
  pose proof (collect_conf_nonneg res_o Hconf) as Hnn.
  pose proof (collect_empty res_o) as Heo.
  pose proof (collect_empty res_p) as Hep.
  destruct (collect res_o) as [[ext_o conf_o] text_o].
  destruct (collect res_p) as [[ext_p conf_p] text_p].
  cbn [fst snd] in *.
  rewrite !orange_total.
  pose proof (score_nonneg_select_best conf_o (find_total_in_text text_o)
                (List.length ext_o) Hnn) as Hso.
  unfold select_best_ocr.CONF_MARGIN, process_orange_factures.CONF_MARGIN.
  (* the score of the original is the same number on both sides *)
  assert (Hsame :
            (match ext_o with
             | [] => 0
             | _ => process_orange_factures.score_result conf_o
                      (find_total_in_text text_o) (List.length ext_o)
             end
             == select_best_ocr.score_result conf_o
                  (find_total_in_text text_o) (List.length ext_o))%Q).
  { destruct ext_o as [| lo ext_o']; [| reflexivity].
    specialize (Heo eq_refl). injection Heo as Hc Ht. subst conf_o text_o.
    symmetry. apply empty_candidate_score. }
  destruct ext_p as [| lp ext_p'].
  - (* no line in the enhanced variant: both keep the original *)
    specialize (Hep eq_refl). injection Hep as Hc Ht. subst conf_p text_p.
    pose proof empty_candidate_score as Hs.
    rewrite find_total_in_empty_text.
    cbn [List.length Nat.ltb Nat.leb] in *. rewrite andb_false_r.
    match goal with
    | |- context [Qlt_le_dec ?a ?b] =>
        destruct (Qlt_le_dec a b) as [Hlt | Hle]
    end; [exfalso; lra |].
    do 2 eexists. repeat split; reflexivity.
  - cbn [List.length Nat.ltb Nat.leb]. rewrite andb_true_r.
    change process_orange_factures.score_result
      with select_best_ocr.score_result in *.
    set (sp := select_best_ocr.score_result conf_p
                 (find_total_in_text text_p) (S (List.length ext_p'))) in *.
    set (so := select_best_ocr.score_result conf_o
                 (find_total_in_text text_o) (List.length ext_o)) in *.
    destruct (Qlt_le_dec (so + 0.02) sp) as [H1 | H1];
      match goal with
      | |- context [Qlt_le_dec ?a ?b] =>
          destruct (Qlt_le_dec a b) as [H2 | H2]
      end;
      try (exfalso; lra);
      do 2 eexists; repeat split; try reflexivity; intros H; discriminate H.
Qed.

Lemma arbiters_agree_witness :
  exists d d',
    select_best_ocr.select_best demo_ocr true false = Some d
    /\ process_orange_factures.select_best_orange
         demo_ocr (fun _ => Some false) (fun _ => py "scan.png") true
       = Some d'
    /\ (select_best_ocr.chosen d = "original"%string
        <-> process_orange_factures.chosen d' = "original"%string)
    /\ select_best_ocr.avg_conf d = process_orange_factures.avg_conf d'
    /\ select_best_ocr.total d = process_orange_factures.total d'
    /\ select_best_ocr.lines d = process_orange_factures.lines d'.
Proof.
  apply (arbiters_agree bool demo_ocr (fun _ => Some false)
           (fun _ => py "scan.png") true false
           [[(demo_box, (py "TOTAL 12,50", 0.9%Q))]] [[]]).
  - reflexivity.
  - reflexivity.
  - reflexivity.
  - simpl. repeat constructor. simpl. discriminate.
Defined.

Lemma ocr_or_empty_without_failure {image : Type}
      (ocr : image -> option ocr_result) (img : image) :
  process_orange_factures.ocr_or_empty (without_failure ocr) img
  = process_orange_factures.ocr_or_empty ocr img.
Proof.
  unfold process_orange_factures.ocr_or_empty, run_ocr_on_image,
    without_failure.
  destruct (ocr img); reflexivity.
Qed.

Lemma orange_score_without_lines (r : list line * Q * str) :
  (0 + process_orange_factures.CONF_MARGIN < orange_score_of r)%Q ->
  (0 <? List.length (fst (fst r)))%nat = true.
Proof.
  destruct r as [[[| l ext] conf] text]; [| reflexivity].
  cbn [orange_score_of]. unfold process_orange_factures.CONF_MARGIN.
  intros H. exfalso. lra.
Qed.

(** X14.  An exception of the engine, on either image, leaves
    [select_best], and nothing else does.  [select_best_orange] never lets
    it out: only an exception of the preprocessing leaves it, and a failed
    engine call is treated exactly as a scan without any line.  So when the
    call on the enhanced image fails the original variant is returned in
    full; when only the call on the original fails the enhanced variant is
    returned in full if its score exceeds the margin, and the empty original
    otherwise; when both calls fail the answer is the original with no
    line, confidence 0, no total and the scores 0 and 0. *)
Theorem arbiters_on_engine_failure :
  forall (image : Type) (ocr : image -> option ocr_result)
         (preprocess_image : image -> option image) (name : image -> str)
         (image_original image_processed : image),
    let orange :=
      process_orange_factures.select_best_orange
        ocr preprocess_image name image_original in
    (select_best_ocr.select_best ocr image_original image_processed = None
     <-> ocr image_original = None \/ ocr image_processed = None)
    /\ (orange = None <-> preprocess_image image_original = None)
    /\ orange
       = process_orange_factures.select_best_orange
           (without_failure ocr) preprocess_image name image_original
    /\ (preprocess_image image_original = Some image_processed ->
        ocr image_processed = None ->
        forall res_o,
          ocr image_original = Some res_o ->
          orange
          = Some (orange_original (name image_original) (collect res_o) 0))
    /\ (preprocess_image image_original = Some image_processed ->
        ocr image_original = None ->
        forall res_p,
          ocr image_processed = Some res_p ->
          let score_p := orange_score_of (collect res_p) in
          ((0 + process_orange_factures.CONF_MARGIN < score_p)%Q ->
           orange
           = Some (orange_preprocessed (name image_original)
                     (collect res_p) 0))
          /\ ((score_p <= 0 + process_orange_factures.CONF_MARGIN)%Q ->
              orange
              = Some (process_orange_factures.Decision
                        "original" (name image_original) 0 None [] 0 0
                        score_p)))
    /\ (preprocess_image image_original = Some image_processed ->
        ocr image_original = None -> ocr image_processed = None ->
        orange
        = Some (process_orange_factures.Decision
                  "original" (name image_original) 0 None [] 0 0 0)).
Proof.
  intros image ocr pre name io ip orange. subst orange.
  split; [| split; [| split; [| split; [| split]]]].
  - unfold select_best_ocr.select_best, run_ocr_on_image. split.
    + destruct (ocr io) as [r_o |]; [| intros _; left; reflexivity].
      destruct (collect r_o) as [[ext_o conf_o] text_o].
      destruct (ocr ip) as [r_p |]; [| intros _; right; reflexivity].
      destruct (collect r_p) as [[ext_p conf_p] text_p].
      destruct (Qlt_le_dec _ _); discriminate.
    + intros [H | H].
      * rewrite H. reflexivity.
      * rewrite H. destruct (ocr io) as [r |]; [| reflexivity].
        destruct (collect r) as [[? ?] ?]. reflexivity.
  - unfold process_orange_factures.select_best_orange. split.
    + destruct (pre io) as [ip' |]; [| reflexivity].
      destruct (process_orange_factures.ocr_or_empty ocr io)
        as [[ext_o conf_o] text_o].
      destruct (process_orange_factures.ocr_or_empty ocr ip')
        as [[ext_p conf_p] text_p].
      destruct (_ && _); discriminate.
    + intros ->. reflexivity.
  - unfold process_orange_factures.select_best_orange.
    destruct (pre io) as [ip' |]; [| reflexivity].
    rewrite !ocr_or_empty_without_failure. reflexivity.
  - intros Hpre Hp res_o Ho.
    unfold process_orange_factures.select_best_orange,
      process_orange_factures.ocr_or_empty, run_ocr_on_image.
    rewrite Hpre, Ho, Hp.
    destruct (collect res_o) as [[ext_o conf_o] text_o].
    cbn [List.length Nat.ltb Nat.leb]. rewrite andb_false_r. reflexivity.
  - intros Hpre Ho res_p Hp score_p.
    pose proof (orange_score_without_lines (collect res_p)) as Hlines.
    subst score_p.
    unfold process_orange_factures.select_best_orange,
      process_orange_factures.ocr_or_empty, run_ocr_on_image.
    rewrite Hpre, Ho, Hp.
    destruct (collect res_p) as [[ext_p conf_p] text_p].
    cbn [fst] in Hlines.
    change (match ext_p with
            | [] => 0%Q
            | _ :: _ =>
                process_orange_factures.score_result conf_p
                  match text_p with
                  | [] => None
                  | _ :: _ => find_total_in_text text_p
                  end (List.length ext_p)
            end) with (orange_score_of (ext_p, conf_p, text_p)).
    destruct (Qlt_le_dec _ _) as [Hlt | Hle]; split; intros H.
    + rewrite (Hlines H). reflexivity.
    + exfalso. lra.
    + exfalso. lra.
    + reflexivity.
  - intros Hpre Ho Hp.
    unfold process_orange_factures.select_best_orange,
      process_orange_factures.ocr_or_empty, run_ocr_on_image.
    rewrite Hpre, Ho, Hp. reflexivity.
Qed.

Lemma arbiters_on_engine_failure_witness :
  process_orange_factures.select_best_orange
    (fun img : bool => if img then demo_ocr true else None)
    (fun _ => Some false) (fun _ => py "scan.png") true
  = Some (orange_original (py "scan.png")
            (collect [[(demo_box, (py "TOTAL 12,50", 0.9%Q))]]) 0)
  /\ process_orange_factures.select_best_orange
       (fun img : bool => if img then None else demo_ocr true)
       (fun _ => Some false) (fun _ => py "scan.png") true
     = Some (orange_preprocessed (py "scan.png")
               (collect [[(demo_box, (py "TOTAL 12,50", 0.9%Q))]]) 0).
Proof.
  split.
  - destruct (arbiters_on_engine_failure bool
                (fun img : bool => if img then demo_ocr true else None)
                (fun _ => Some false) (fun _ => py "scan.png") true false)
      as (_ & _ & _ & H & _).
    apply (H eq_refl eq_refl _ eq_refl).
  - destruct (arbiters_on_engine_failure bool
                (fun img : bool => if img then None else demo_ocr true)
                (fun _ => Some false) (fun _ => py "scan.png") true false)
      as (_ & _ & _ & _ & H & _).
    destruct (H eq_refl eq_refl _ eq_refl) as [Htake _].
    apply Htake. vm_compute. reflexivity.
Defined.

(** X15.  In [select_best_orange], when the original gives no line (or its
    engine call fails) and the enhanced variant has lines whose average
    confidence exceeds 0.01, the enhanced variant is taken, with its
    lines. *)
Theorem orange_takes_the_surviving_variant :
  forall (image : Type) (ocr : image -> option ocr_result)
         (preprocess_image : image -> option image) (name : image -> str)
         (image_original image_processed : image)
         (ext_p : list line) (conf_p : Q) (text_p : str),
    preprocess_image image_original = Some image_processed ->
    fst (fst (process_orange_factures.ocr_or_empty ocr image_original)) = [] ->
    process_orange_factures.ocr_or_empty ocr image_processed
    = (ext_p, conf_p, text_p) ->
    ext_p <> [] -> (0.01 < conf_p)%Q ->
    exists d,
      process_orange_factures.select_best_orange
        ocr preprocess_image name image_original = Some d
      /\ process_orange_factures.chosen d = "preprocessed"%string
      /\ process_orange_factures.lines d = ext_p
      /\ process_orange_factures.avg_conf d = conf_p.
Proof.
  intros image ocr pre name io ip ext_p conf_p text_p Hpre Ho Hp Hext Hconf.
  unfold process_orange_factures.select_best_orange.
  rewrite Hpre, Hp.
  destruct (process_orange_factures.ocr_or_empty ocr io)
    as [[ext_o conf_o] text_o].
  cbn [fst] in Ho. subst ext_o.
  destruct ext_p as [| lp ext_p']; [contradiction |].
  cbn [Nat.ltb Nat.leb List.length]. rewrite andb_true_r.
  unfold process_orange_factures.CONF_MARGIN.
  match goal with
  | |- context [Qlt_le_dec ?a ?b] => destruct (Qlt_le_dec a b) as [H | H]
  end.
  - eexists. repeat split; reflexivity.
  - exfalso. unfold process_orange_factures.score_result in H.
    pose proof (line_bonus_first (S (List.length ext_p'))) as Hb.
    assert (Hb' := Hb ltac:(lia)).
    destruct (match text_p with
              | [] => None
              | _ => find_total_in_text text_p
              end); lra.
Qed.

Lemma orange_takes_the_surviving_variant_witness :
  exists d,
    process_orange_factures.select_best_orange
      (fun img : bool => if img then None else demo_ocr true)
      (fun _ => Some false) (fun _ => py "scan.png") true = Some d
    /\ process_orange_factures.chosen d = "preprocessed"%string
    /\ process_orange_factures.lines d
       = [Line (py "TOTAL 12,50") 0.9%Q demo_box]
    /\ process_orange_factures.avg_conf d = (0 + 0.9) / inject_Z 1.
Proof.
  apply (orange_takes_the_surviving_variant bool
           (fun img : bool => if img then None else demo_ocr true)
           (fun _ => Some false) (fun _ => py "scan.png") true false
           [Line (py "TOTAL 12,50") 0.9%Q demo_box]
           ((0 + 0.9) / inject_Z 1)%Q (py "TOTAL 12,50")).
  - reflexivity.
  - reflexivity.
  - reflexivity.
  - discriminate.
  - vm_compute. reflexivity.
Defined.

(** ** The text and confidence of a scan *)

Section CollectFacts.
Open Scope Q_scope.

Lemma splitlines_aux_one_line (t cur s : str) :
  one_line t -> splitlines_aux cur (t ++ s) = splitlines_aux (rev t ++ cur) s.
Proof.
  revert cur. induction t as [| c t IH]; intros cur Ht; [reflexivity |].
  inversion Ht as [| ? ? Hc Ht']; subst.
  cbn [app splitlines_aux rev].
  assert (H13 : (c =? 13)%N = false).
  { apply N.eqb_neq. intros ->. discriminate Hc. }
  rewrite H13, Hc, (IH _ Ht'), <- app_assoc. reflexivity.
Qed.

Lemma splitlines_join (texts : list str) :
  Forall one_line texts ->
  (forall t, last_opt texts = Some t -> t <> []) ->
  splitlines (join NL texts) = texts.
Proof.
  unfold splitlines.
  induction texts as [| p ps IH]; intros Hone Hlast; [reflexivity |].
  inversion Hone as [| ? ? Hp Hps]; subst.
  destruct ps as [| q ps'].
  - cbn [join]. rewrite <- (app_nil_r p) at 1.
    rewrite splitlines_aux_one_line by exact Hp.
    rewrite app_nil_r. cbn [splitlines_aux].
    assert (Hne : p <> []) by (apply Hlast; reflexivity).
    destruct (rev p) as [| c r] eqn:E.
    + apply (f_equal (@rev char)) in E. rewrite rev_involutive in E.
      contradiction.
    + rewrite <- E, rev_involutive. reflexivity.
  - change (join NL (p :: q :: ps')) with (p ++ NL ++ join NL (q :: ps')).
    rewrite splitlines_aux_one_line by exact Hp.
    rewrite app_nil_r. unfold NL at 1.
    cbn [app splitlines_aux N.eqb Pos.eqb is_linebreak in_range].
    change (is_linebreak 10%N) with true. cbv iota.
    rewrite rev_involutive. f_equal.
    apply IH; [exact Hps |]. intros t Ht. apply Hlast. exact Ht.
Qed.

Lemma sum_bounds (lo hi : Q) (xs : list Q) (acc : Q) (n : nat) :
  Forall (fun x => lo <= x <= hi) xs ->
  lo * inject_Z (Z.of_nat n) <= acc <= hi * inject_Z (Z.of_nat n) ->
  lo * inject_Z (Z.of_nat (n + List.length xs)) <= fold_left Qplus xs acc
  <= hi * inject_Z (Z.of_nat (n + List.length xs)).
Proof.
  revert acc n. induction xs as [| x xs IH]; intros acc n Hxs Hacc.
  - cbn [List.length fold_left]. rewrite Nat.add_0_r. exact Hacc.
  - inversion Hxs as [| ? ? Hx Hrest]; subst.
    cbn [List.length fold_left].
    replace (n + S (List.length xs))%nat with (S n + List.length xs)%nat
      by lia.
    apply IH; [exact Hrest |].
    rewrite Nat2Z.inj_succ. unfold Z.succ. rewrite inject_Z_plus.
    change (inject_Z 1) with 1. split; lra.
Qed.

Lemma mean_bounds (lo hi : Q) (xs : list Q) :
  xs <> [] -> Forall (fun x => lo <= x <= hi) xs -> lo <= mean xs <= hi.
Proof.
  intros Hne Hxs. unfold mean.
  pose proof (sum_bounds lo hi xs 0 0 Hxs) as H.
  cbn [Nat.add] in H.
  assert (Hpos : 0 < inject_Z (Z.of_nat (List.length xs))).
  { change 0 with (inject_Z 0). rewrite <- Zlt_Qlt.
    destruct xs; [contradiction | cbn [List.length]; lia]. }
  destruct H as [H1 H2].
  { change (inject_Z (Z.of_nat 0)) with 0. split; lra. }
  split.
  - apply Qle_shift_div_l; assumption.
  - apply Qle_shift_div_r; assumption.
Qed.

Lemma collect_confs (result : ocr_result) :
  map conf (fst (fst (collect result)))
  = map (fun e => snd (snd e)) (List.concat result).
Proof.
  rewrite collect_lines, flat_map_concat_map, concat_map, map_map.
  rewrite concat_map. f_equal. apply map_ext. intros page.
  rewrite map_map. reflexivity.
Qed.

Lemma collect_texts (result : ocr_result) :
  map text (fst (fst (collect result)))
  = map (fun e => fst (snd e)) (List.concat result).
Proof.
  rewrite collect_lines, flat_map_concat_map, concat_map, map_map.
  rewrite concat_map. f_equal. apply map_ext. intros page.
  rewrite map_map. reflexivity.
Qed.

Lemma collect_avg (result : ocr_result) :
  snd (fst (collect result))
  = match map conf (fst (fst (collect result))) with
    | [] => 0
    | _ => mean (map conf (fst (fst (collect result))))
    end.
Proof. reflexivity. Qed.

Lemma collect_text (result : ocr_result) :
  snd (collect result) = join NL (map text (fst (fst (collect result)))).
Proof. reflexivity. Qed.

End CollectFacts.

(** X16.  The average confidence that [run_ocr_on_image] reports lies
    between any two bounds of the confidences of the lines read, over all
    pages; without any line it is 0.  With confidences in [0, 1] it is in
    [0, 1] whatever the engine returned. *)
Theorem avg_conf_between_line_confidences :
  forall (result : ocr_result) (lo hi : Q),
    Forall (fun e => (lo <= snd (snd e) <= hi)%Q) (List.concat result) ->
    (List.concat result <> [] ->
     (lo <= snd (fst (collect result)) <= hi)%Q)
    /\ (List.concat result = [] -> snd (fst (collect result)) = 0%Q)
    /\ ((lo <= 0 <= hi)%Q -> (lo <= snd (fst (collect result)) <= hi)%Q).
Proof.
  intros result lo hi Hall.
  assert (Hc : Forall (fun x => (lo <= x <= hi)%Q)
                 (map conf (fst (fst (collect result))))).
  { rewrite collect_confs. rewrite Forall_map. exact Hall. }
  assert (Hne : List.concat result <> [] ->
                (lo <= snd (fst (collect result)) <= hi)%Q).
  { intros Hres. rewrite collect_avg.
    destruct (map conf (fst (fst (collect result)))) as [| c cs] eqn:E.
    - rewrite collect_confs in E. apply map_eq_nil in E. contradiction.
    - apply mean_bounds; [discriminate | exact Hc]. }
  assert (He : List.concat result = [] -> snd (fst (collect result)) = 0%Q).
  { intros Hres. rewrite collect_avg, collect_confs, Hres. reflexivity. }
  split; [exact Hne | split; [exact He |]].
  intros H0. destruct (List.concat result) as [| e es] eqn:E.
  - rewrite (He eq_refl). exact H0.
  - apply Hne. discriminate.
Qed.

Lemma avg_conf_between_line_confidences_witness :
  (0.5 <= snd (fst (collect [[(demo_box, (py "TOTAL", 0.5%Q))];
                             [(demo_box, (py "12,50", 0.9%Q))]])) <= 0.9)%Q.
Proof.
  destruct (avg_conf_between_line_confidences
              [[(demo_box, (py "TOTAL", 0.5%Q))];
               [(demo_box, (py "12,50", 0.9%Q))]] 0.5%Q 0.9%Q) as (H & _).
  - repeat constructor; cbn; discriminate.
  - apply H. discriminate.
Defined.

(** X17.  The full text of [run_ocr_on_image] splits back into the texts
    of the lines read: when no text holds a line boundary character and
    the last text is not empty, [full_text.splitlines()] gives the texts of
    the extracted lines, one per line and in order, so that the keyword
    scan of [find_total_in_text] reads the lines of the scan from the last
    to the first. *)
Theorem full_text_lines_are_the_lines_read :
  forall result : ocr_result,
    let extracted := fst (fst (collect result)) in
    let full_text := snd (collect result) in
    Forall (fun l => one_line (text l)) extracted ->
    (forall l, last_opt extracted = Some l -> text l <> []) ->
    splitlines full_text = map text extracted
    /\ find_total_in_text full_text
       = match keyword_scan (rev (map text extracted)) with
         | Some total => Some total
         | None => largest_amount full_text
         end.
Proof.
  intros result extracted full_text Hone Hlast.
  assert (H : splitlines full_text = map text extracted).
  { subst full_text. rewrite collect_text. fold extracted.
    apply splitlines_join.
    - rewrite Forall_map. exact Hone.
    - intros t Ht.
      assert (Hl : exists l, last_opt extracted = Some l /\ text l = t).
      { clear - Ht. induction extracted as [| a [| b l] IH].
        - discriminate Ht.
        - injection Ht as <-. exists a. split; reflexivity.
        - apply IH. exact Ht. }
      destruct Hl as (l & Hl & <-). apply Hlast. exact Hl. }
  split; [exact H |].
  unfold find_total_in_text. rewrite H. reflexivity.
Qed.

Lemma full_text_lines_are_the_lines_read_witness :
  splitlines (snd (collect [[(demo_box, (py "Facture", 0.5%Q))];
                            [(demo_box, (py "TOTAL 12,50", 0.9%Q))]]))
  = [py "Facture"; py "TOTAL 12,50"].
Proof.
  destruct (full_text_lines_are_the_lines_read
              [[(demo_box, (py "Facture", 0.5%Q))];
               [(demo_box, (py "TOTAL 12,50", 0.9%Q))]]) as (H & _).
  - repeat constructor.
  - intros l Hl. injection Hl as <-. discriminate.
  - exact H.
Defined.

(** ** Spatial structuring, continued *)

Section DocumentFacts.
Open Scope Q_scope.

Lemma map_or_raise_Forall2 {A B : Type} (f : A -> option B) (P : A -> Prop)
      (R : A -> B -> Prop) (xs : list A) :
  Forall P xs ->
  (forall x, P x -> exists y, f x = Some y /\ R x y) ->
  exists ys, map_or_raise f xs = Some ys /\ Forall2 R xs ys.
Proof.
  intros Hxs Hf. induction Hxs as [| x xs Hx Hrest IH].
  - exists []. split; [reflexivity | constructor].
  - destruct (Hf x Hx) as (y & Hy & Hr). destruct IH as (ys & Hys & Hall).
    exists (y :: ys). cbn [map_or_raise]. rewrite Hy, Hys.
    split; [reflexivity | constructor; assumption].
Qed.

Lemma make_block_built (i : nat) (blk : list line) :
  blk <> [] -> exists b, make_block (i, blk) = Some b /\ built_from (i, blk) b.
Proof.
  intros Hne. destruct blk as [| l0 rest]; [contradiction |].
  eexists. split; [reflexivity |].
  repeat split. discriminate.
Qed.

Lemma enumerate1_fst {A : Type} (l : list A) :
  map fst (enumerate1 l) = seq 1 (List.length l).
Proof.
  unfold enumerate1. generalize 1%nat.
  induction l as [| x l IH]; intros n; [reflexivity |].
  cbn [List.length seq combine map fst]. f_equal. apply IH.
Qed.

Lemma enumerate1_Forall {A : Type} (P : A -> Prop) (l : list A) :
  Forall P l -> Forall (fun ix => P (snd ix)) (enumerate1 l).
Proof.
  intros H. rewrite Forall_forall in *. intros [i x] Hin.
  apply H. apply (in_enumerate1 l i x Hin).
Qed.

(** The document of [structure_ocr]: one block per group of lines. *)
Lemma structure_ocr_shape (data : decision_json) :
  exists bs,
    structure_ocr data
    = Some (Structured bs
              (Meta (data_avg_conf data) (List.length (data_lines data))
                    (List.length bs) (data_chosen data)))
    /\ Forall2 built_from
         (enumerate1 (group_lines_into_blocks (data_lines data)
                        default_y_gap)) bs.
Proof.
  unfold structure_ocr.
  destruct (group_lines_into_blocks_facts default_y_gap (data_lines data))
    as (_ & Hne & _).
  destruct (map_or_raise_Forall2 make_block (fun ib => snd ib <> [])
              built_from
              (enumerate1 (group_lines_into_blocks (data_lines data)
                             default_y_gap)))
    as (bs & Hbs & Hall).
  - apply (enumerate1_Forall (fun b : list line => b <> [])). exact Hne.
  - intros [i blk] Hblk. apply make_block_built. exact Hblk.
  - exists bs. rewrite Hbs. split; [reflexivity | exact Hall].
Qed.

Lemma out_line_content (blk : list line) :
  map out_content (map out_line (enumerate1 blk)) = map line_content blk.
Proof.
  rewrite map_map.
  rewrite <- (map_snd_enumerate1 blk) at 2. rewrite map_map.
  apply map_ext. intros [j l]. reflexivity.
Qed.

Lemma out_line_ids (blk : list line) :
  map line_id (map out_line (enumerate1 blk)) = seq 1 (List.length blk).
Proof.
  rewrite map_map, <- enumerate1_fst.
  apply map_ext. intros [j l]. reflexivity.
Qed.

Lemma built_lines (ibs : list (nat * list line)) (bs : list block) :
  Forall2 built_from ibs bs ->
  map out_content (flat_map lines bs)
  = map line_content (List.concat (map snd ibs)).
Proof.
  induction 1 as [| ib b ibs bs (_ & _ & _ & Hl) _ IH]; [reflexivity |].
  cbn [flat_map map List.concat]. rewrite !map_app, IH, Hl.
  rewrite out_line_content. reflexivity.
Qed.

Lemma built_ids (ibs : list (nat * list line)) (bs : list block) :
  Forall2 built_from ibs bs ->
  map block_id bs = map fst ibs
  /\ Forall (fun b => map line_id (lines b)
                      = seq 1 (List.length (lines b))) bs.
Proof.
  induction 1 as [| ib b ibs bs (_ & Hi & _ & Hl) _ [IH1 IH2]].
  - split; [reflexivity | constructor].
  - split.
    + cbn [map]. rewrite Hi, IH1. reflexivity.
    + constructor; [| exact IH2].
      rewrite Hl, out_line_ids, length_map.
      unfold enumerate1. rewrite length_combine, length_seq, Nat.min_id.
      reflexivity.
Qed.

Lemma concat_length_nonempty {A : Type} (ls : list (list A)) :
  Forall (fun l => l <> []) ls ->
  (List.length ls <= List.length (List.concat ls))%nat.
Proof.
  induction 1 as [| l ls Hl _ IH]; [apply Nat.le_refl |].
  cbn [List.length List.concat]. rewrite length_app.
  destruct l; [contradiction | cbn [List.length]; lia].
Qed.

End DocumentFacts.

(** X18.  [structure_ocr] loses no line and invents none: read block after
    block, the lines of the document carry the text, bbox and confidence
    of the input lines sorted by top.  The meta data count them correctly:
    [lines_count] is the number of input lines and of output lines,
    [blocks_count] the number of blocks, which is at most [lines_count]
    and 0 exactly for an input without lines; [avg_conf] and
    [chosen_source] are copied from the decision. *)
Theorem structure_ocr_keeps_every_line :
  forall data : decision_json,
    exists doc : structured,
      structure_ocr data = Some doc
      /\ map out_content (doc_lines doc)
         = map line_content (sorted top (data_lines data))
      /\ lines_count (doc_meta doc) = List.length (data_lines data)
      /\ lines_count (doc_meta doc) = List.length (doc_lines doc)
      /\ blocks_count (doc_meta doc) = List.length (blocks doc)
      /\ (blocks_count (doc_meta doc) <= lines_count (doc_meta doc))%nat
      /\ (blocks_count (doc_meta doc) = 0%nat <-> data_lines data = [])
      /\ meta_avg_conf (doc_meta doc) = data_avg_conf data
      /\ chosen_source (doc_meta doc) = data_chosen data.
Proof.
  intros data.
  destruct (structure_ocr_shape data) as (bs & Hdoc & Hall).
  destruct (group_lines_into_blocks_facts default_y_gap (data_lines data))
    as (Hcat & Hne & _).
  set (raw := group_lines_into_blocks (data_lines data) default_y_gap) in *.
  assert (Hlines : map out_content (flat_map lines bs)
                   = map line_content (sorted top (data_lines data))).
  { rewrite (built_lines _ _ Hall), map_snd_enumerate1, Hcat. reflexivity. }
  assert (Hlen : List.length (flat_map lines bs)
                 = List.length (data_lines data)).
  { rewrite <- (length_map out_content), Hlines, length_map.
    symmetry. apply Permutation_length. apply sorted_perm. }
  assert (Hbs : List.length bs = List.length raw).
  { rewrite <- (Forall2_length Hall). unfold enumerate1.
    rewrite length_combine, length_seq. apply Nat.min_id. }
  assert (Hsorted : List.length (sorted top (data_lines data))
                    = List.length (data_lines data)).
  { symmetry. apply Permutation_length. apply sorted_perm. }
  eexists. split; [exact Hdoc |].
  unfold doc_lines. cbn [blocks doc_meta lines_count blocks_count
                         meta_avg_conf chosen_source].
  repeat split; try reflexivity.
  - exact Hlines.
  - symmetry. exact Hlen.
  - rewrite Hbs, <- Hsorted, <- Hcat. apply concat_length_nonempty. exact Hne.
  - intros H0. rewrite Hbs in H0.
    apply length_zero_iff_nil in H0. rewrite H0 in Hcat. cbn in Hcat.
    apply length_zero_iff_nil. rewrite <- Hsorted, <- Hcat. reflexivity.
  - intros Hnil. rewrite Hbs. subst raw. rewrite Hnil. reflexivity.
Qed.

(** X19.  The numbering of the document: the blocks carry the ids 1, 2,
    ... in their order, and in every block the lines carry the ids 1, 2,
    ... again, so that a line id is unique inside its block only. *)
Theorem structure_ocr_numbering :
  forall data : decision_json,
    exists doc : structured,
      structure_ocr data = Some doc
      /\ map block_id (blocks doc) = seq 1 (List.length (blocks doc))
      /\ Forall (fun b => map line_id (lines b)
                          = seq 1 (List.length (lines b))) (blocks doc).
Proof.
  intros data.
  destruct (structure_ocr_shape data) as (bs & Hdoc & Hall).
  destruct (built_ids _ _ Hall) as [Hb Hl].
  eexists. split; [exact Hdoc |]. cbn [blocks].
  split; [| exact Hl].
  rewrite Hb, enumerate1_fst. f_equal.
  rewrite <- (Forall2_length Hall). unfold enumerate1.
  rewrite length_combine, length_seq. symmetry. apply Nat.min_id.
Qed.

Section GeometryFacts.
Open Scope Q_scope.

Lemma bbox_extent (bx : box) :
  bbox_left bx <= bbox_right bx /\ bbox_top bx <= bbox_bottom bx.
Proof.
  unfold bbox_left, bbox_right, bbox_top, bbox_bottom. split.
  - destruct (min_from_spec (map fst (box_rest bx)) (fst (box_first bx)))
      as [_ Hmin].
    destruct (max_from_spec (map fst (box_rest bx)) (fst (box_first bx)))
      as [_ Hmax].
    apply Qle_trans with (fst (box_first bx));
      [apply Hmin | apply Hmax]; left; reflexivity.
  - destruct (min_from_spec (map snd (box_rest bx)) (snd (box_first bx)))
      as [_ Hmin].
    destruct (max_from_spec (map snd (box_rest bx)) (snd (box_first bx)))
      as [_ Hmax].
    apply Qle_trans with (snd (box_first bx));
      [apply Hmin | apply Hmax]; left; reflexivity.
Qed.

Lemma py_min_least (xs : list Q) (m : Q) :
  py_min xs = Some m -> forall y, In y xs -> m <= y.
Proof.
  destruct xs as [| x xs]; [discriminate |].
  intros [= <-]. apply (min_from_spec xs x).
Qed.

Lemma py_max_greatest (xs : list Q) (m : Q) :
  py_max xs = Some m -> forall y, In y xs -> y <= m.
Proof.
  destruct xs as [| x xs]; [discriminate |].
  intros [= <-]. apply (max_from_spec xs x).
Qed.

Lemma bbox_union_bounds (boxes : list box) (bb : list Q) (bx : box) :
  bbox_union boxes = Some bb -> In bx boxes ->
  nth 0 bb 0 <= bbox_left bx /\ nth 1 bb 0 <= bbox_top bx
  /\ bbox_right bx <= nth 2 bb 0 /\ bbox_bottom bx <= nth 3 bb 0.
Proof.
  unfold bbox_union. intros H Hin.
  destruct (py_min (map bbox_left boxes)) as [l |] eqn:El; [| discriminate].
  destruct (py_min (map bbox_top boxes)) as [t |] eqn:Et; [| discriminate].
  destruct (py_max (map bbox_right boxes)) as [r |] eqn:Er;
    [| discriminate].
  destruct (py_max (map bbox_bottom boxes)) as [b |] eqn:Eb;
    [| discriminate].
  injection H as <-. cbn [nth].
  repeat split.
  - apply (py_min_least _ _ El). apply in_map. exact Hin.
  - apply (py_min_least _ _ Et). apply in_map. exact Hin.
  - apply (py_max_greatest _ _ Er). apply in_map. exact Hin.
  - apply (py_max_greatest _ _ Eb). apply in_map. exact Hin.
Qed.

Lemma in_out_lines (blk : list line) (bl : block_line) :
  In bl (map out_line (enumerate1 blk)) ->
  exists l, In l blk /\ bl_bbox bl = line_bbox l.
Proof.
  rewrite in_map_iff. intros ([j l] & <- & Hin).
  exists l. split; [apply (in_enumerate1 blk j l Hin) | reflexivity].
Qed.

Lemma built_inside (ib : nat * list line) (b : block) (bl : block_line) :
  built_from ib b -> In bl (lines b) ->
  (block_coord 0 b <= coord 0 bl <= coord 2 bl
   /\ coord 2 bl <= block_coord 2 b)
  /\ (block_coord 1 b <= coord 1 bl <= coord 3 bl
      /\ coord 3 bl <= block_coord 3 b).
Proof.
  intros (_ & _ & Hbb & Hl) Hin. rewrite Hl in Hin.
  apply in_out_lines in Hin. destruct Hin as (l & Hin & Hbl).
  destruct (bbox_union_bounds _ _ (line_box l) Hbb (in_map line_box _ _ Hin))
    as (H0 & H1 & H2 & H3).
  destruct (bbox_extent (line_box l)) as [Hx Hy].
  unfold block_coord, coord. rewrite Hbl. unfold line_bbox. cbn [nth].
  repeat split; assumption.
Qed.

Lemma min_from_first (x : Q) (xs : list Q) :
  Forall (fun y => x <= y) xs -> min_from x xs = x.
Proof.
  induction 1 as [| z xs Hz _ IH]; [reflexivity |].
  rewrite min_from_cons.
  destruct (Qlt_le_dec z x) as [Hlt | _]; [exfalso; lra | exact IH].
Qed.

Lemma sorted_app {A : Type} (R : A -> A -> Prop) (l1 l2 : list A) :
  StronglySorted R (l1 ++ l2) ->
  StronglySorted R l1 /\ StronglySorted R l2
  /\ forall x y, In x l1 -> In y l2 -> R x y.
Proof.
  induction l1 as [| a l1 IH]; intros H.
  - repeat split; [constructor | exact H | intros x y []].
  - cbn [app] in H. apply StronglySorted_inv in H. destruct H as [H Ha].
    destruct (IH H) as (H1 & H2 & H12).
    rewrite Forall_app in Ha. destruct Ha as [Ha1 Ha2].
    repeat split.
    + constructor; assumption.
    + exact H2.
    + intros x y [<- | Hx] Hy.
      * rewrite Forall_forall in Ha2. apply Ha2. exact Hy.
      * apply H12; assumption.
Qed.

Lemma heads_sorted (raw : list (list line)) :
  StronglySorted by_top (List.concat raw) ->
  Forall (fun b => b <> []) raw ->
  StronglySorted Qle (map head_top raw)
  /\ Forall (StronglySorted by_top) raw.
Proof.
  intros Hs Hne. induction Hne as [| blk raw Hblk Hne IH].
  - split; constructor.
  - cbn [List.concat] in Hs. apply sorted_app in Hs.
    destruct Hs as (H1 & H2 & H12). destruct (IH H2) as [IH1 IH2].
    split; [| constructor; assumption].
    cbn [map]. constructor; [exact IH1 |].
    destruct blk as [| l0 rest]; [contradiction |].
    rewrite Forall_map, Forall_forall. intros blk' Hin.
    rewrite Forall_forall in Hne. specialize (Hne blk' Hin).
    destruct blk' as [| l0' rest']; [contradiction |].
    apply (H12 l0 l0'); [left; reflexivity |].
    rewrite in_concat. exists (l0' :: rest'). split; [exact Hin |].
    left. reflexivity.
Qed.

Lemma built_top (ib : nat * list line) (b : block) :
  built_from ib b -> StronglySorted by_top (snd ib) ->
  block_coord 1 b = head_top (snd ib)
  /\ exists bl, hd_error (lines b) = Some bl
                /\ block_coord 1 b = coord 1 bl.
Proof.
  destruct ib as [i blk]. intros (Hne & _ & Hbb & Hl) Hs. cbn [snd] in *.
  destruct blk as [| l0 rest]; [contradiction |].
  assert (Htop : block_coord 1 b = top l0).
  { unfold block_coord. unfold bbox_union in Hbb.
    cbn [map py_min py_max] in Hbb.
    injection Hbb as <-. cbn [nth].
    rewrite map_map. apply min_from_first.
    apply StronglySorted_inv in Hs. destruct Hs as [_ Hall].
    rewrite Forall_map. exact Hall. }
  split; [exact Htop |].
  rewrite Hl. eexists. split; [reflexivity |]. exact Htop.
Qed.

Lemma built_tops (ibs : list (nat * list line)) (bs : list block) :
  Forall2 built_from ibs bs ->
  Forall (StronglySorted by_top) (map snd ibs) ->
  map (block_coord 1) bs = map head_top (map snd ibs)
  /\ Forall (fun b => exists bl, hd_error (lines b) = Some bl
                                 /\ block_coord 1 b = coord 1 bl) bs.
Proof.
  induction 1 as [| ib b ibs bs Hb _ IH]; intros Hs.
  - split; [reflexivity | constructor].
  - cbn [map] in Hs. inversion Hs as [| ? ? Hs1 Hs2]; subst.
    destruct (IH Hs2) as [IH1 IH2].
    destruct (built_top ib b Hb Hs1) as [Ht Hbl].
    split.
    + cbn [map]. rewrite Ht, IH1. reflexivity.
    + constructor; assumption.
Qed.

Lemma sorted_map_top (l : list line) :
  StronglySorted by_top l -> StronglySorted Qle (map top l).
Proof.
  induction 1 as [| a l _ IH Ha]; [constructor |].
  cbn [map]. constructor; [exact IH |].
  rewrite Forall_map. exact Ha.
Qed.

Lemma breaks_antitone (y1 y2 : Q) (l : list line) :
  y1 <= y2 -> (breaks y2 l <= breaks y1 l)%nat.
Proof.
  intros Hy. induction l as [| p l IH]; [apply Nat.le_refl |].
  cbn [breaks]. destruct l as [| ln l']; [exact IH |].
  destruct (Qlt_le_dec (gap p ln) y2) as [H2 | H2];
    destruct (Qlt_le_dec (gap p ln) y1) as [H1 | H1];
    try lia.
  exfalso. lra.
Qed.

Lemma fold_block_count (y_gap : Q) (ls : list line) :
  forall (blks : list (list line)) (current : list line) (p : line),
    last_opt current = Some p ->
    List.length (close_blocks (fold_left (step y_gap) ls (blks, current)))
    = (List.length blks + S (breaks y_gap (p :: ls)))%nat.
Proof.
  induction ls as [| ln ls IH]; intros blks current p Hp.
  - cbn [fold_left close_blocks breaks].
    destruct current as [| c cs]; [discriminate |].
    rewrite length_app. cbn [List.length]. lia.
  - cbn [fold_left]. unfold step at 2.
    destruct current as [| c cs] eqn:Ec; [discriminate |].
    rewrite <- Ec in *.
    rewrite (last_opt_last current p ln Hp).
    change (top ln - bottom p) with (gap p ln).
    change (breaks y_gap (p :: ln :: ls))
      with ((if Qlt_le_dec (gap p ln) y_gap then 0 else 1)
            + breaks y_gap (ln :: ls))%nat.
    destruct (Qlt_le_dec (gap p ln) y_gap) as [Hlt | Hge].
    + rewrite (IH blks (current ++ [ln]) ln (last_opt_snoc current ln)).
      lia.
    + rewrite (IH (blks ++ [current]) [ln] ln eq_refl).
      rewrite length_app. cbn [List.length]. lia.
Qed.

Lemma block_count (y_gap : Q) (ls : list line) :
  List.length (group_lines_into_blocks ls y_gap)
  = match sorted top ls with
    | [] => 0%nat
    | _ => S (breaks y_gap (sorted top ls))
    end.
Proof.
  rewrite group_lines_into_blocks_close.
  destruct (sorted top ls) as [| l0 rest]; [reflexivity |].
  cbn [fold_left]. change (step y_gap ([], []) l0) with
    (@nil (list line), [l0]).
  rewrite (fold_block_count y_gap rest [] [l0] l0 eq_refl). reflexivity.
Qed.

End GeometryFacts.

(** X20.  The document reads top to bottom: the tops of its lines never
    decrease from one line to the next, across blocks as well; the top of a
    block is the top of its first line, and the tops of the blocks never
    decrease either. *)
Theorem document_reads_top_to_bottom :
  forall data : decision_json,
    exists doc : structured,
      structure_ocr data = Some doc
      /\ StronglySorted Qle (map (coord 1) (doc_lines doc))
      /\ StronglySorted Qle (map (block_coord 1) (blocks doc))
      /\ Forall (fun b => exists bl, hd_error (lines b) = Some bl
                                     /\ block_coord 1 b = coord 1 bl)
           (blocks doc).
Proof.
  intros data.
  destruct (structure_ocr_shape data) as (bs & Hdoc & Hall).
  destruct (group_lines_into_blocks_facts default_y_gap (data_lines data))
    as (Hcat & Hne & _).
  pose proof (sorted_sorted top (data_lines data)) as Hs.
  change (StronglySorted by_top (sorted top (data_lines data))) in Hs.
  eexists. split; [exact Hdoc |]. unfold doc_lines. cbn [blocks].
  split.
  - assert (E : map (coord 1) (flat_map lines bs)
                = map top (sorted top (data_lines data))).
    { transitivity (map (fun c : str * list Q * Q => nth 1 (snd (fst c)) 0%Q)
                        (map out_content (flat_map lines bs))).
      - rewrite map_map. reflexivity.
      - rewrite (built_lines _ _ Hall), map_snd_enumerate1, Hcat, map_map.
        reflexivity. }
    rewrite E. apply sorted_map_top. exact Hs.
  - rewrite <- Hcat in Hs.
    destruct (heads_sorted _ Hs Hne) as [Hheads Heach].
    destruct (built_tops _ _ Hall) as [Ht Hbl].
    + rewrite map_snd_enumerate1. exact Heach.
    + split; [| exact Hbl].
      rewrite Ht, map_snd_enumerate1. exact Hheads.
Qed.

(** X21.  In the document every line lies inside its block, and no bbox is
    inverted: for a line of a block, left and top of the block are at most
    left and top of the line, which are at most right and bottom of the
    line, which are at most right and bottom of the block. *)
Theorem lines_lie_inside_their_block :
  forall data : decision_json,
    exists doc : structured,
      structure_ocr data = Some doc
      /\ Forall
           (fun b =>
              Forall
                (fun bl =>
                   ((block_coord 0 b <= coord 0 bl <= coord 2 bl)%Q
                    /\ (coord 2 bl <= block_coord 2 b)%Q)
                   /\ ((block_coord 1 b <= coord 1 bl <= coord 3 bl)%Q
                       /\ (coord 3 bl <= block_coord 3 b)%Q))
                (lines b))
           (blocks doc).
Proof.
  intros data.
  destruct (structure_ocr_shape data) as (bs & Hdoc & Hall).
  eexists. split; [exact Hdoc |]. cbn [blocks].
  clear Hdoc. induction Hall as [| ib b ibs bs Hb _ IH]; [constructor |].
  constructor; [| exact IH].
  rewrite Forall_forall. intros bl Hin. exact (built_inside ib b bl Hb Hin).
Qed.

(** X22.  The number of blocks of [group_lines_into_blocks] is 0 without
    lines, and otherwise one more than the number of lines that lie [y_gap]
    or more below the bottom of the line before them in the order of the
    tops.  A larger [y_gap] therefore never gives more blocks. *)
Theorem block_count_follows_the_gaps :
  forall (ls : list line) (y_gap y_gap' : Q),
    List.length (group_lines_into_blocks ls y_gap)
    = match sorted top ls with
      | [] => 0%nat
      | _ => S (breaks y_gap (sorted top ls))
      end
    /\ ((y_gap <= y_gap')%Q ->
        (List.length (group_lines_into_blocks ls y_gap')
         <= List.length (group_lines_into_blocks ls y_gap))%nat).
Proof.
  intros ls y_gap y_gap'. split; [apply block_count |].
  intros Hy. rewrite !block_count.
  destruct (sorted top ls) as [| l0 rest]; [apply Nat.le_refl |].
  apply le_n_S. apply breaks_antitone. exact Hy.
Qed.

Lemma block_count_follows_the_gaps_witness :
  (List.length (group_lines_into_blocks [line_c; line_a; line_b] 100)
   <= List.length (group_lines_into_blocks [line_c; line_a; line_b] 40))%nat.
Proof.
  destruct (block_count_follows_the_gaps [line_c; line_a; line_b] 40 100)
    as [_ H].
  apply H. discriminate.
Defined.

(** ** Brightness check and batches *)

Section BatchFacts.
Import image_enhancer.
Variable path : Type.
Variable image : Type.
Variable path_exists : path -> bool.
Variable imread : path -> option image.
Variable array_mean : image -> Q.
Variable is_colour : image -> bool.
Variable to_gray : image -> image.
Variable round1 : Q -> Q.
Variable name : path -> str.

Let load := load_image path_exists imread.
Let pre :=
  smart_preprocess path_exists imread array_mean is_colour to_gray round1.
Let loop :=
  batch_loop path_exists imread array_mean is_colour to_gray round1 name.

Lemma smart_preprocess_raise (p : path) (e : error) :
  load p = Raise e <-> pre p = Raise e.
Proof.
  unfold pre, load, smart_preprocess.
  destruct (load_image path_exists imread p) as [img | e'].
  - split; [discriminate |].
    destruct (negb _); discriminate.
  - split; intros [= ->]; reflexivity.
Qed.

Lemma smart_preprocess_loaded (p : path) (img : image) :
  load p = Ok img ->
  exists processed quality, pre p = Ok (processed, quality).
Proof.
  unfold pre, load, smart_preprocess. intros ->.
  destruct (negb _); eexists; eexists; reflexivity.
Qed.

Lemma batch_loop_ok (files : list path) :
  forall r0 r : batch_results,
    loop files r0 = Ok r ->
    total r = (total r0 + List.length files)%nat
    /\ map fst (passed r)
       = map fst (passed r0) ++ map name (filter (accepted pre) files)
    /\ map failed_file (failed r)
       = map failed_file (failed r0)
         ++ map name (filter (fun p => negb (accepted pre p)) files).
Proof.
  induction files as [| p files IH]; intros r0 r H.
  - injection H as <-. cbn [List.length filter map].
    rewrite !app_nil_r, Nat.add_0_r. repeat split.
  - unfold loop in H. cbn [batch_loop] in H. unfold batch_step in H.
    fold pre in H. fold loop in H.
    cbn [filter List.length].
    destruct (pre p) as [[[img |] quality] | e] eqn:E; [| | discriminate H].
    + assert (Ha : accepted pre p = true)
        by (unfold accepted; rewrite E; reflexivity).
      rewrite Ha. cbn [negb map].
      apply IH in H. cbn [total passed failed] in H.
      destruct H as (Ht & Hp & Hf).
      repeat split.
      * rewrite Ht. lia.
      * rewrite Hp, map_app, <- app_assoc. reflexivity.
      * exact Hf.
    + assert (Ha : accepted pre p = false)
        by (unfold accepted; rewrite E; reflexivity).
      rewrite Ha. cbn [negb map].
      apply IH in H. cbn [total passed failed] in H.
      destruct H as (Ht & Hp & Hf).
      repeat split.
      * rewrite Ht. lia.
      * exact Hp.
      * rewrite Hf, map_app, <- app_assoc. reflexivity.
Qed.

Lemma batch_loop_runs (files : list path) :
  forall r0 : batch_results,
    Forall (fun p => exists img, load p = Ok img) files ->
    exists r, loop files r0 = Ok r.
Proof.
  induction files as [| p files IH]; intros r0 Hall.
  - exists r0. reflexivity.
  - inversion Hall as [| ? ? (img & Himg) Hrest]; subst.
    destruct (smart_preprocess_loaded p img Himg) as (pr & q & Hpre).
    unfold loop. cbn [batch_loop]. unfold batch_step.
    fold pre. fold loop. rewrite Hpre.
    destruct pr; apply IH; exact Hrest.
Qed.

Lemma batch_loop_raises (files : list path) :
  forall (r0 : batch_results) (e : error),
    loop files r0 = Raise e -> Exists (fun p => load p = Raise e) files.
Proof.
  induction files as [| p files IH]; intros r0 e H; [discriminate H |].
  unfold loop in H. cbn [batch_loop] in H. unfold batch_step in H.
  fold pre in H. fold loop in H.
  destruct (pre p) as [[[img |] quality] | e'] eqn:E.
  - right. exact (IH _ _ H).
  - right. exact (IH _ _ H).
  - left. injection H as <-. apply smart_preprocess_raise. exact E.
Qed.

Lemma length_split_filter {A : Type} (f : A -> bool) (l : list A) :
  List.length l
  = (List.length (filter f l)
     + List.length (filter (fun x => negb (f x)) l))%nat.
Proof.
  induction l as [| x l IH]; [reflexivity |].
  cbn [filter List.length]. destruct (f x); cbn [negb List.length]; lia.
Qed.

Lemma process_batch_ok (png_files jpg_files : list path)
      (r : batch_results) :
  process_batch path_exists imread array_mean is_colour to_gray round1 name
    png_files jpg_files = Ok r ->
  loop (png_files ++ jpg_files) (Results [] [] 0) = Ok r
  /\ (0 < total r)%nat.
Proof.
  unfold process_batch. fold loop.
  destruct (loop (png_files ++ jpg_files) (Results [] [] 0)) as [r' | e];
    [| discriminate].
  destruct (total r' =? 0)%nat eqn:E; [discriminate |].
  intros [= <-]. split; [reflexivity |].
  apply Nat.eqb_neq in E. lia.
Qed.

End BatchFacts.

(** X23.  The report of [process_batch].  Without any file the summary
    divides by zero and [ZeroDivisionError] leaves the function.  With
    files that all load there is a report, and in every report [total] is
    the number of files and also the number of passed plus failed entries;
    [passed] lists, in the order of the files (png before jpg), the names
    of the scans that pass the brightness check and [failed] the names of
    the others.  The only other exception is that of a file that does not
    load. *)
Theorem process_batch_accounting :
  forall (path image : Type) (path_exists : path -> bool)
         (imread : path -> option image) (array_mean : image -> Q)
         (is_colour : image -> bool) (to_gray : image -> image)
         (round1 : Q -> Q) (name : path -> str)
         (png_files jpg_files : list path),
    let load := image_enhancer.load_image path_exists imread in
    let pre := image_enhancer.smart_preprocess
                 path_exists imread array_mean is_colour to_gray round1 in
    let batch := image_enhancer.process_batch
                   path_exists imread array_mean is_colour to_gray round1
                   name png_files jpg_files in
    let all_files := png_files ++ jpg_files in
    (all_files = [] ->
     batch = image_enhancer.Raise image_enhancer.ZeroDivisionError)
    /\ (all_files <> [] ->
        Forall (fun p => exists img, load p = image_enhancer.Ok img)
          all_files ->
        exists r, batch = image_enhancer.Ok r)
    /\ (forall r,
           batch = image_enhancer.Ok r ->
           image_enhancer.total r = List.length all_files
           /\ image_enhancer.total r
              = (List.length (image_enhancer.passed r)
                 + List.length (image_enhancer.failed r))%nat
           /\ map fst (image_enhancer.passed r)
              = map name (filter (accepted pre) all_files)
           /\ map failed_file (image_enhancer.failed r)
              = map name (filter (fun p => negb (accepted pre p))
                            all_files))
    /\ (forall e,
           batch = image_enhancer.Raise e ->
           all_files <> [] ->
           Exists (fun p => load p = image_enhancer.Raise e) all_files).
Proof.
  intros path image path_exists imread array_mean is_colour to_gray round1
         name png_files jpg_files load pre batch all_files.
  split; [| split; [| split]].
  - intros Hnil. subst batch. unfold image_enhancer.process_batch.
    fold all_files. rewrite Hnil. reflexivity.
  - intros Hne Hall.
    destruct (batch_loop_runs path image path_exists imread array_mean
                is_colour to_gray round1 name all_files
                (image_enhancer.Results [] [] 0) Hall) as (r & Hr).
    exists r. subst batch. unfold image_enhancer.process_batch.
    fold all_files. rewrite Hr.
    apply batch_loop_ok in Hr. destruct Hr as (Ht & _).
    destruct (image_enhancer.total r =? 0)%nat eqn:E; [| reflexivity].
    apply Nat.eqb_eq in E. rewrite E in Ht. cbn [image_enhancer.total] in Ht.
    destruct all_files; [contradiction | cbn [List.length] in Ht; lia].
  - intros r Hr. apply process_batch_ok in Hr. destruct Hr as [Hr _].
    apply batch_loop_ok in Hr. fold all_files in Hr.
    cbn [image_enhancer.total image_enhancer.passed image_enhancer.failed
         map app Nat.add] in Hr.
    destruct Hr as (Ht & Hp & Hf).
    repeat split; try assumption.
    rewrite Ht.
    rewrite <- (length_map fst (image_enhancer.passed r)), Hp.
    rewrite <- (length_map failed_file (image_enhancer.failed r)), Hf.
    rewrite !length_map. apply length_split_filter.
  - intros e He Hne. subst batch.
    unfold image_enhancer.process_batch in He. fold all_files in He.
    destruct (image_enhancer.batch_loop path_exists imread array_mean
                is_colour to_gray round1 name all_files
                (image_enhancer.Results [] [] 0)) as [r | e'] eqn:E.
    + exfalso. apply batch_loop_ok in E. destruct E as (Ht & _).
      destruct (image_enhancer.total r =? 0)%nat eqn:E0; [| discriminate].
      apply Nat.eqb_eq in E0. rewrite E0 in Ht.
      cbn [image_enhancer.total] in Ht.
      destruct all_files; [contradiction | cbn [List.length] in Ht; lia].
    + injection He as <-.
      exact (batch_loop_raises path image path_exists imread array_mean
               is_colour to_gray round1 name all_files _ _ E).
Qed.

Lemma process_batch_accounting_witness :
  image_enhancer.process_batch
    (fun _ : nat => true) (fun _ => @None Q) (fun q => q) (fun _ => false)
    (fun q => q) (fun q => q) (fun _ => py "scan.png") [] []
  = image_enhancer.Raise image_enhancer.ZeroDivisionError.
Proof.
  destruct (process_batch_accounting nat Q
              (fun _ => true) (fun _ => None) (fun q => q) (fun _ => false)
              (fun q => q) (fun q => q) (fun _ => py "scan.png") [] [])
    as (H & _).
  apply H. reflexivity.
Defined.

(** X24.  [smart_preprocess] is a gate and nothing more: a scan that loads
    comes back unchanged, with the message "OK", exactly when the mean of
    its gray version is between 5 and 254, both included; below 5 and
    above 254 no image comes back and the message says completely black or
    completely white.  The brightness of the report is the rounded mean in
    all three cases; an exception of the loading leaves the function. *)
Theorem smart_preprocess_brightness_gate :
  forall (path image : Type) (path_exists : path -> bool)
         (imread : path -> option image) (array_mean : image -> Q)
         (is_colour : image -> bool) (to_gray : image -> image)
         (round1 : Q -> Q) (image_path : path),
    let pre := image_enhancer.smart_preprocess
                 path_exists imread array_mean is_colour to_gray round1 in
    (forall e,
        image_enhancer.load_image path_exists imread image_path
        = image_enhancer.Raise e ->
        pre image_path = image_enhancer.Raise e)
    /\ (forall img,
           image_enhancer.load_image path_exists imread image_path
           = image_enhancer.Ok img ->
           let m := array_mean (if is_colour img then to_gray img else img) in
           ((5 <= m <= 254)%Q ->
            pre image_path
            = image_enhancer.Ok
                (Some img, image_enhancer.Quality true (round1 m) "OK"))
           /\ ((m < 5)%Q ->
               pre image_path
               = image_enhancer.Ok
                   (None, image_enhancer.Quality false (round1 m)
                            "Image completely black"))
           /\ ((254 < m)%Q ->
               pre image_path
               = image_enhancer.Ok
                   (None, image_enhancer.Quality false (round1 m)
                            "Image completely white"))).
Proof.
  intros path image path_exists imread array_mean is_colour to_gray round1
         image_path pre.
  subst pre. unfold image_enhancer.smart_preprocess. split.
  - intros e ->. reflexivity.
  - intros img ->.
    unfold image_enhancer.assess_image_quality,
      image_enhancer.check_brightness.
    set (m := array_mean (if is_colour img then to_gray img else img)).
    destruct (Qlt_le_dec m 5) as [H5 | H5];
      [| destruct (Qlt_le_dec 254 m) as [H254 | H254]];
      cbn [negb image_enhancer.is_acceptable];
      repeat split; intros H; try reflexivity; exfalso; lra.
Qed.

Lemma smart_preprocess_brightness_gate_witness :
  image_enhancer.smart_preprocess
    (fun _ : nat => true) (fun _ => Some 254%Q) (fun q => q)
    (fun _ => false) (fun q => q) (fun q => q) 0%nat
  = image_enhancer.Ok
      (Some 254%Q, image_enhancer.Quality true 254 "OK").
Proof.
  destruct (smart_preprocess_brightness_gate nat Q
              (fun _ => true) (fun _ => Some 254%Q) (fun q => q)
              (fun _ => false) (fun q => q) (fun q => q) 0%nat)
    as (_ & H).
  destruct (H 254%Q eq_refl) as (Hok & _).
  apply Hok. split; discriminate.
Defined.
